(** * run_simulation.py: mask builders, covariance engine and aggregator

    A shallow embedding of [run_simulation.py] (rare-variant simulation):
    the variant selector [select_variants_for_cmac], the two mask builders
    [creating_mask_null] and [creating_mask_causal], the covariance and
    projection engine of [RVsimulation], the aggregation of [RVsimulation.run]
    and the input check [check_input].

    Conventions.
    - Integers (MACs, cMAC targets, bin bounds, chromosome numbers) are [Z];
      positions of variants inside a chromosome are [nat].
    - A Python [dict] is an association list in insertion order, with
      [dict_get] / [dict_set] / [dict_append].
    - The global [np.random] state is an explicit random source [rng]
      threaded through a state-and-exception monad [M]. A [while] loop of the
      source takes a [fuel]; running out of it is the outcome [Diverged],
      kept apart from a returned value and from a raised exception. *)

From Stdlib Require Import String Ascii DecimalString.
From Stdlib Require Import ZArith QArith Qround List Lia Bool Permutation Ring.
Import ListNotations.

Local Open Scope Z_scope.

(* ===================================================================== *)
(** ** Outcomes, exceptions and the random source                         *)
(* ===================================================================== *)

Inductive exn : Type :=
| ValueError (msg : string)
| KeyError
| IndexError.

Inductive outcome (A : Type) : Type :=
| Returned (a : A)
| Raised (e : exn)
| Diverged.

Arguments Returned {A} a.
Arguments Raised {A} e.
Arguments Diverged {A}.

(** The random source: an infinite tape of raw draws and a read cursor. *)
Record rng : Type := mkRng { tape : nat -> Z; cursor : nat }.

Definition M (A : Type) : Type := rng -> outcome (A * rng).

Definition ret {A} (a : A) : M A := fun g => Returned (a, g).

Definition bind {A B} (m : M A) (k : A -> M B) : M B :=
  fun g =>
    match m g with
    | Returned (a, g') => k a g'
    | Raised e => Raised e
    | Diverged => Diverged
    end.

Definition raise {A} (e : exn) : M A := fun _ => Raised e.
Definition diverge {A} : M A := fun _ => Diverged.

Declare Scope sim_scope.
Delimit Scope sim_scope with sim.
Notation "x <- m ;; k" := (bind m (fun x => k))
  (at level 61, m at next level, right associativity) : sim_scope.
Notation "' p <- m ;; k" := (bind m (fun p => k))
  (at level 61, p pattern, m at next level, right associativity) : sim_scope.
Local Open Scope sim_scope.

(** One raw draw from the tape. *)
Definition draw : M Z :=
  fun g => Returned (tape g (cursor g), mkRng (tape g) (S (cursor g))).

(** A random source that replays a finite list of draws, then zeros. *)
Definition rng_of (draws : list Z) : rng := mkRng (fun i => nth i draws 0) 0.

(** [for x in l: f x], collecting the results. *)
Fixpoint for_each {A B} (f : A -> M B) (l : list A) : M (list B) :=
  match l with
  | [] => ret []
  | x :: l' => y <- f x ;; ys <- for_each f l' ;; ret (y :: ys)
  end.

(** [np.random.choice(a)]: a uniformly drawn element; [ValueError] when [a]
    is empty. *)
Definition random_choice {A} (a : list A) : M A :=
  match a with
  | [] => raise (ValueError "'a' cannot be empty unless no samples are taken")
  | x :: _ =>
      r <- draw ;;
      ret (nth (Z.to_nat (r mod Z.of_nat (length a))) a x)
  end.

(** [np.random.randint(low, high)]: an integer of [[low, high)];
    [ValueError] when the interval is empty. *)
Definition random_randint (low high : Z) : M Z :=
  if high <=? low then raise (ValueError "low >= high")
  else r <- draw ;; ret (low + r mod (high - low)).

(** [np.random.uniform(0, 1)]: a 53-bit fraction [k / 2^53] of [[0, 1)]. *)
Definition random_uniform01 : M Q :=
  r <- draw ;; ret (Qmake (r mod 2 ^ 53) (2 ^ 53)%positive).

(** Swap the entries at positions [i] and [j] of a list. *)
Definition swap (l : list nat) (i j : nat) : list nat :=
  let xi := nth i l 0%nat in
  let xj := nth j l 0%nat in
  map (fun '(k, x) => if Nat.eqb k i then xj else if Nat.eqb k j then xi else x)
      (combine (seq 0 (length l)) l).

(** The shuffle behind [np.random.permutation]: for [i = n-1 .. 1], draw
    [j] in [[0, i]] and swap entries [i] and [j]. *)
Fixpoint shuffle (i : nat) (l : list nat) : M (list nat) :=
  match i with
  | O => ret l
  | S i' =>
      r <- draw ;;
      shuffle i' (swap l i (Z.to_nat (r mod Z.of_nat (S i))))
  end.

Definition random_permutation (n : nat) : M (list nat) :=
  shuffle (n - 1) (seq 0 n).

(* ===================================================================== *)
(** ** Python dictionaries as association lists                            *)
(* ===================================================================== *)

Section Dict.
Context {K V : Type} (eqb : K -> K -> bool).

Fixpoint dict_get (d : list (K * V)) (k : K) : option V :=
  match d with
  | [] => None
  | (k', v) :: d' => if eqb k k' then Some v else dict_get d' k
  end.

(** [d[k] = v]: overwrite in place, or insert at the end. *)
Fixpoint dict_set (d : list (K * V)) (k : K) (v : V) : list (K * V) :=
  match d with
  | [] => [(k, v)]
  | (k', v') :: d' =>
      if eqb k k' then (k', v) :: d' else (k', v') :: dict_set d' k v
  end.

Definition dict_keys (d : list (K * V)) : list K := map fst d.

(** [d[k]] on a plain dict: [KeyError] on a missing key. *)
Definition dict_lookup (d : list (K * V)) (k : K) : M V :=
  match dict_get d k with
  | Some v => ret v
  | None => raise KeyError
  end.
End Dict.

(** [d[k].append(x)] on a [defaultdict(list)]. *)
Fixpoint dict_append {K A} (eqb : K -> K -> bool)
         (d : list (K * list A)) (k : K) (x : A) : list (K * list A) :=
  match d with
  | [] => [(k, [x])]
  | (k', l) :: d' =>
      if eqb k k' then (k', l ++ [x]) :: d'
      else (k', l) :: dict_append eqb d' k x
  end.

(** [d[k]] on a [defaultdict(list)]: a missing key reads as the empty list. *)
Definition defaultdict_get {K A} (eqb : K -> K -> bool)
           (d : list (K * list A)) (k : K) : list A :=
  match dict_get eqb d k with
  | Some l => l
  | None => []
  end.

(** The value stored last under a key by a sequence of assignments. *)
Fixpoint assoc_last {V} (l : list (Z * V)) (k : Z) : option V :=
  match l with
  | [] => None
  | (c, v) :: l' =>
      match assoc_last l' k with
      | Some w => Some w
      | None => if k =? c then Some v else None
      end
  end.

(** The MAC-to-positions maps of the program. *)
Definition mac_map : Type := list (Z * list nat).

(** A cMAC bin [(lo, hi)] and the fixed list of bins. *)
Definition cmac_bin : Type := (Z * Z)%type.

Definition bin_eqb (a b : cmac_bin) : bool :=
  (fst a =? fst b) && (snd a =? snd b).

Definition cmac_bins : list cmac_bin :=
  [(2,2); (3,3); (4,4); (5,5); (6,7); (8,9);
   (10,11); (12,14); (15,20); (21,30); (31,60);
   (61,100); (101,500); (501,1000)].

(** [mac[v]] for a position of the chromosome. *)
Definition mac_at (mac : list Z) (v : nat) : Z := nth v mac 0.

(** [np.sum(mac[selected_variants])]. *)
Definition cmac_of (mac : list Z) (selected : list nat) : Z :=
  fold_right Z.add 0 (map (mac_at mac) selected).

Definition sumZ (l : list Z) : Z := fold_right Z.add 0 l.

(** [l[i:j]] for [0 <= i]. *)
Definition slice {A} (l : list A) (i j : Z) : list A :=
  firstn (Z.to_nat (j - i)) (skipn (Z.to_nat i) l).

(** [for x in l: s = f s x]. *)
Fixpoint for_fold {A S} (f : S -> A -> M S) (l : list A) (s : S) : M S :=
  match l with
  | [] => ret s
  | x :: l' => s' <- f s x ;; for_fold f l' s'
  end.

(** [a[i]] on an array: [IndexError] out of range. *)
Definition index {A} (a : list A) (i : nat) : M A :=
  match nth_error a i with
  | Some x => ret x
  | None => raise IndexError
  end.

Definition len {A} (l : list A) : Z := Z.of_nat (length l).

(* ===================================================================== *)
(** ** The variant selector and the mask builders                          *)
(* ===================================================================== *)

Section MaskBuilders.

(** Bound on the iterations of each [while] loop. *)
Variable loop_fuel : nat.

(** Line 235 / 290, [(n_variants_list / np.sum(n_variants_list) *
    cmac_bins_count).astype(int)]: a floating-point computation, kept
    abstract. *)
Variable genes_quota : list nat -> Z -> list Z.

(** *** [select_variants_for_cmac] *)

(** Lines 349-354: the accumulation loop. *)
Fixpoint select_combo (fuel : nat) (cmac : Z) (macs combo : list Z)
         (current_cmac : Z) : M (list Z) :=
  if current_cmac <? cmac then
    match fuel with
    | O => diverge
    | S fuel' =>
        mac_ <- random_choice macs ;;
        if current_cmac + mac_ <=? cmac then
          let current_cmac' := current_cmac + mac_ in
          select_combo fuel' cmac
            (filter (fun m => m <=? cmac - current_cmac') macs)
            (combo ++ [mac_]) current_cmac'
        else select_combo fuel' cmac macs combo current_cmac
    end
  else ret combo.

(** Lines 358-362: one concrete variant for an accepted MAC value.
    [int(n_variants * x)] is taken in exact arithmetic. *)
Definition pick_variant (mac_positions : mac_map) (mac : Z) : M nat :=
  let positions := defaultdict_get Z.eqb mac_positions mac in
  let n_variants := len positions in
  x <- random_uniform01 ;;
  let i := Qfloor (inject_Z n_variants * x) in
  let j := Z.min (i + 20) n_variants in
  random_choice (slice positions i j).

Definition select_variants_for_cmac (mac_positions : mac_map) (cmac : Z)
  : M (list nat) :=
  let macs := dict_keys mac_positions in
  let macs := filter (fun m => m <=? cmac) macs in
  combo <- select_combo loop_fuel cmac macs [] 0 ;;
  for_each (pick_variant mac_positions) combo.

(** *** [creating_mask_null] *)

(** Lines 251-259: the windows of one permutation. *)
Fixpoint scan_windows (fuel : nat) (mac : list Z) (bin : cmac_bin)
         (n_genes n_variants : Z) (permuted_variant_idxs : list nat)
         (window_size skip_size start : Z) (output : list (list nat))
  : M (list (list nat)) :=
  if start + window_size <? n_variants then
    match fuel with
    | O => diverge
    | S fuel' =>
        let end_ := start + window_size in
        let selected_variants := slice permuted_variant_idxs start end_ in
        let cmac := cmac_of mac selected_variants in
        if (fst bin <=? cmac) && (cmac <=? snd bin) then
          let output' := output ++ [selected_variants] in
          if n_genes <=? len output' then ret output'
          else scan_windows fuel' mac bin n_genes n_variants
                 permuted_variant_idxs window_size skip_size
                 (start + skip_size) output'
        else scan_windows fuel' mac bin n_genes n_variants
               permuted_variant_idxs window_size skip_size
               (start + skip_size) output
    end
  else ret output.

(** Lines 246-261: the [while True] loop of one bin. [int(window_size *
    0.8)] is taken in exact arithmetic. *)
Fixpoint null_bin_loop (fuel : nat) (mac : list Z) (bin : cmac_bin)
         (n_genes : Z) (n_variants : nat) (variant_idxs : list nat)
         (window_range : Z * Z) (output : list (list nat))
  : M (list (list nat)) :=
  match fuel with
  | O => diverge
  | S fuel' =>
      perm <- random_permutation n_variants ;;
      let permuted_variant_idxs :=
        map (fun p => nth p variant_idxs 0%nat) perm in
      window_size <- random_randint (fst window_range) (snd window_range) ;;
      let skip_size := Z.quot (window_size * 4) 5 + 1 in
      output' <- scan_windows loop_fuel mac bin n_genes
                   (Z.of_nat n_variants) permuted_variant_idxs
                   window_size skip_size 0 output ;;
      if n_genes <=? len output' then ret output'
      else null_bin_loop fuel' mac bin n_genes n_variants variant_idxs
             window_range output'
  end.

(** Lines 243-262: one bin. [int(bin[0] * 0.1)] is taken in exact
    arithmetic. *)
Definition null_bin (mac : list Z) (n_genes : Z) (n_variants : nat)
           (variant_idxs : list nat) (bin : cmac_bin)
  : M (list (list nat)) :=
  let window_range := (Z.max 2 (Z.quot (fst bin) 10), snd bin + 1) in
  null_bin_loop loop_fuel mac bin n_genes n_variants variant_idxs
    window_range [].

Definition bin_dict : Type := list (cmac_bin * list (list nat)).
Definition chr_bin_dict : Type := list (Z * bin_dict).

Definition creating_mask_null (mac_dict : list (Z * list Z))
           (cmac_bins_count : Z) : M chr_bin_dict :=
  let n_variants_list := map (fun '(_, mac) => length mac) mac_dict in
  let chr_list := dict_keys mac_dict in
  let n_genes_chr_list := genes_quota n_variants_list cmac_bins_count in
  for_fold
    (fun chr_gene_numeric_idxs '(i, chr) =>
       mac <- dict_lookup Z.eqb mac_dict chr ;;
       n_variants <- index n_variants_list i ;;
       n_genes <- index n_genes_chr_list i ;;
       let variant_idxs := seq 0 n_variants in
       gene_numeric_idxs <-
         for_fold
           (fun gene_numeric_idxs bin =>
              output <- null_bin mac n_genes n_variants variant_idxs bin ;;
              ret (dict_set bin_eqb gene_numeric_idxs bin output))
           cmac_bins [] ;;
       ret (dict_set Z.eqb chr_gene_numeric_idxs chr gene_numeric_idxs))
    (combine (seq 0 (length chr_list)) chr_list) [].

(** *** [creating_mask_causal] *)

(** [np.setdiff1d(np.arange(n), causal_idxs)]. *)
Definition setdiff1d_arange (n : nat) (causal_idxs : list nat) : list nat :=
  filter (fun v => negb (existsb (Nat.eqb v) causal_idxs)) (seq 0 n).

(** Lines 303-305: the map over every position of [mac]. *)
Definition build_mac_positions (mac : list Z) : mac_map :=
  fold_left (fun d '(mac_i, x) => dict_append Z.eqb d x mac_i)
            (combine (seq 0 (length mac)) mac) [].

(** Lines 308-310: the map over the causal positions. *)
Definition build_causal_mac_positions (mac : list Z)
           (causal_idxs : list nat) : M mac_map :=
  for_fold (fun d idx => x <- index mac idx ;;
                         ret (dict_append Z.eqb d x idx))
           causal_idxs [].

(** Lines 321-331: up to [todo = 10 - n_added] sets for one causal draw. *)
Fixpoint add_non_causal (todo : nat) (mac_positions : mac_map)
         (bin : cmac_bin) (n_genes : Z) (causal_variants_cmac : Z)
         (causal_variants : list nat) (output : list (list nat))
  : M (list (list nat)) :=
  match todo with
  | O => ret output
  | S todo' =>
      non_causal_variants_cmac <-
        random_randint (Z.max (fst bin - causal_variants_cmac) 1)
                       (snd bin - causal_variants_cmac + 1) ;;
      non_causal_variants <-
        select_variants_for_cmac mac_positions non_causal_variants_cmac ;;
      let selected_variants := non_causal_variants ++ causal_variants in
      let output' := output ++ [selected_variants] in
      if n_genes <=? len output' then ret output'
      else add_non_causal todo' mac_positions bin n_genes
             causal_variants_cmac causal_variants output'
  end.

(** Lines 315-333: the [while True] loop of one bin. *)
Fixpoint causal_bin_loop (fuel : nat) (mac_positions causal_mac_positions : mac_map)
         (bin : cmac_bin) (n_genes : Z) (output : list (list nat))
  : M (list (list nat)) :=
  match fuel with
  | O => diverge
  | S fuel' =>
      let upper_bound := Z.max (Z.quot ((fst bin + snd bin) / 2) 2) 2 in
      causal_variants_cmac <- random_randint 1 upper_bound ;;
      causal_variants <-
        select_variants_for_cmac causal_mac_positions causal_variants_cmac ;;
      output' <- add_non_causal 10 mac_positions bin n_genes
                   causal_variants_cmac causal_variants output ;;
      if n_genes <=? len output' then ret output'
      else causal_bin_loop fuel' mac_positions causal_mac_positions bin
             n_genes output'
  end.

Definition causal_bin (mac_positions causal_mac_positions : mac_map)
           (n_genes : Z) (bin : cmac_bin) : M (list (list nat)) :=
  causal_bin_loop loop_fuel mac_positions causal_mac_positions bin n_genes [].

Definition creating_mask_causal (mac_dict : list (Z * list Z))
           (causal_idx_dict : list (Z * list nat)) (cmac_bins_count : Z)
  : M chr_bin_dict :=
  let n_variants_list := map (fun '(_, mac) => length mac) mac_dict in
  let chr_list := dict_keys mac_dict in
  let n_genes_chr_list := genes_quota n_variants_list cmac_bins_count in
  for_fold
    (fun chr_gene_numeric_idxs '(i, chr) =>
       mac <- dict_lookup Z.eqb mac_dict chr ;;
       n_variants <- index n_variants_list i ;;
       n_genes <- index n_genes_chr_list i ;;
       causal_idxs <- dict_lookup Z.eqb causal_idx_dict chr ;;
       let variant_idxs := setdiff1d_arange n_variants causal_idxs in
       let n_variants := length variant_idxs in
       let mac_positions := build_mac_positions mac in
       causal_mac_positions <- build_causal_mac_positions mac causal_idxs ;;
       gene_numeric_idxs <-
         for_fold
           (fun gene_numeric_idxs bin =>
              output <- causal_bin mac_positions causal_mac_positions
                          n_genes bin ;;
              ret (dict_set bin_eqb gene_numeric_idxs bin output))
           cmac_bins [] ;;
       ret (dict_set Z.eqb chr_gene_numeric_idxs chr gene_numeric_idxs))
    (combine (seq 0 (length chr_list)) chr_list) [].

End MaskBuilders.

(* ===================================================================== *)
(** ** The covariance and projection engine of [RVsimulation]              *)
(* ===================================================================== *)

(** [vset.astype(np.uint16)] and the product [vset @ vset.T] on unsigned
    16-bit entries: every product and every partial sum wraps modulo 2^16. *)
Definition uint16_max : Z := 65535.

Definition wrap16 (x : Z) : Z := x mod 65536.

Definition astype_uint16 (vset : list (list Z)) : list (list Z) :=
  map (map wrap16) vset.

Definition dot_u16 (u v : list Z) : Z :=
  fold_left (fun acc '(a, b) => wrap16 (acc + wrap16 (a * b)))
            (combine u v) 0.

(** [A @ B.T] on uint16 matrices given by rows. *)
Definition matmul_T_u16 (A B : list (list Z)) : list (list Z) :=
  map (fun ra => map (fun rb => dot_u16 ra rb) B) A.

(** The co-occurrence count of two genotype rows, in unbounded integers. *)
Definition cooccurrence (u v : list Z) : Z :=
  sumZ (map (fun '(a, b) => a * b) (combine u v)).

(** Lines 88-94. *)
Definition _get_ld_matrix (sparse_genotype_dict : list (Z * list (list Z)))
  : list (Z * list (list Z)) :=
  fold_left
    (fun vset_ld_dict '(chr, vset) =>
       let vset := astype_uint16 vset in
       let vset_ld := matmul_T_u16 vset vset in
       dict_set Z.eqb vset_ld_dict chr vset_ld)
    sparse_genotype_dict [].

Section Engine.

(** Floating-point numbers and their operations, kept abstract: no law
    of arithmetic is assumed of them. *)
Variable F : Type.
Variable Fzero : F.
Variables Fadd Fsub Fmul : F -> F -> F.
Variable F_of_Z : Z -> F.
Variable astype_float32 : F -> F.

(** [np.linalg.svd(covar, full_matrices=False)]. *)
Variable svd : list (list F) -> list (list F) * list F * list (list F).

Definition matrix : Type := list (list F).

Definition dotF (u v : list F) : F :=
  fold_left (fun acc '(a, b) => Fadd acc (Fmul a b)) (combine u v) Fzero.

Definition width (B : matrix) : nat :=
  match B with
  | [] => 0%nat
  | r :: _ => length r
  end.

Definition column (k : nat) (B : matrix) : list F :=
  map (fun row => nth k row Fzero) B.

(** [A @ B] for conformable operands; on operands whose shapes do not
    match, where [@] raises [ValueError], the products below are taken
    over the common part. *)
Definition matmul (A B : matrix) : matrix :=
  map (fun ra => map (fun k => dotF ra (column k B)) (seq 0 (width B))) A.

(** [A @ B.T]. *)
Definition matmul_T (A B : matrix) : matrix :=
  map (fun ra => map (fun rb => dotF ra rb) B) A.

(** [A - B], entry by entry. *)
Definition mat_sub (A B : matrix) : matrix :=
  map (fun '(ra, rb) => map (fun '(a, b) => Fsub a b) (combine ra rb))
      (combine A B).

(** [m[numeric_idx]]: the rows at the given positions. *)
Definition take_rows {A} (m : list A) (numeric_idx : list nat) : M (list A) :=
  for_each (index m) numeric_idx.

(** [m[:, numeric_idx]]: the columns at the given positions. *)
Definition take_cols {A} (m : list (list A)) (numeric_idx : list nat)
  : M (list (list A)) :=
  for_each (fun row => take_rows row numeric_idx) m.

(** Lines 96-103. *)
Definition _get_vset_half_covar_proj (covar : matrix)
           (sparse_genotype_dict : list (Z * list (list Z)))
  : list (Z * matrix) :=
  let '(covar_U, _, covar_Vt) := svd covar in
  let half_covar_proj := map (map astype_float32) (matmul covar_U covar_Vt) in
  fold_left
    (fun vset_half_covar_proj_dict '(chr, vset) =>
       let vset_half_covar_proj :=
         matmul (map (map F_of_Z) vset) half_covar_proj in
       dict_set Z.eqb vset_half_covar_proj_dict chr vset_half_covar_proj)
    sparse_genotype_dict [].

(** Lines 125-127: the matrix of one variant set of a chromosome. *)
Definition cov_mat_of (vset_ld_dict : list (Z * list (list Z)))
           (vset_half_covar_proj_dict : list (Z * matrix))
           (chr : Z) (numeric_idx : list nat) : M matrix :=
  proj_chr <- dict_lookup Z.eqb vset_half_covar_proj_dict chr ;;
  vset_half_covar_proj <- take_rows proj_chr numeric_idx ;;
  ld_chr <- dict_lookup Z.eqb vset_ld_dict chr ;;
  ld_rows <- take_rows ld_chr numeric_idx ;;
  vset_ld <- take_cols ld_rows numeric_idx ;;
  ret (mat_sub (map (map F_of_Z) vset_ld)
               (matmul_T vset_half_covar_proj vset_half_covar_proj)).

(** Lines 114-131. Storing under the key being iterated builds a
    dictionary with the keys of the iterated one, in the same order. *)
Definition _get_cov_mat (vset_ld_dict : list (Z * list (list Z)))
           (vset_half_covar_proj_dict : list (Z * matrix))
           (chr_gene_numeric_idxs : chr_bin_dict)
  : M (list (Z * list (cmac_bin * list matrix))) :=
  for_each
    (fun '(chr, gene_numeric_idxs) =>
       cov_mat_dict <-
         for_each
           (fun '(bin, gene_numeric_idx) =>
              cov_mat_list <-
                for_each
                  (cov_mat_of vset_ld_dict vset_half_covar_proj_dict chr)
                  gene_numeric_idx ;;
              ret (bin, cov_mat_list))
           gene_numeric_idxs ;;
       ret (chr, cov_mat_dict))
    chr_gene_numeric_idxs.

(** The covariate half-projection [np.dot(covar_U, covar_Vt)] of a
    covariate matrix. *)
Definition half_covar_proj_of (covar : matrix) : matrix :=
  let '(covar_U, _, covar_Vt) := svd covar in
  map (map astype_float32) (matmul covar_U covar_Vt).

(** The row of the half-projection of a chromosome for one genotype
    row: the genotype row times the covariate half-projection. *)
Definition proj_row (half_covar_proj : matrix) (genotype_row : list Z)
  : list F :=
  map (fun k => dotF (map F_of_Z genotype_row) (column k half_covar_proj))
      (seq 0 (width half_covar_proj)).

(** The covariate-adjusted covariance of a variant set, entry by entry:
    the linkage entry of the two variants minus the product of their
    half-projection rows. *)
Definition adjusted_covariance (vset : list (list Z))
           (half_covar_proj : matrix) (numeric_idx : list nat) : matrix :=
  map (fun ia =>
         map (fun ib =>
                Fsub (F_of_Z (wrap16 (cooccurrence (nth ia vset [])
                                                   (nth ib vset []))))
                     (dotF (proj_row half_covar_proj (nth ia vset []))
                           (proj_row half_covar_proj (nth ib vset []))))
             numeric_idx)
      numeric_idx.

(** Lines 84-86 of [__init__]: the three caches in order. *)
Definition init_cov_mat (covar : matrix)
           (sparse_genotype_dict : list (Z * list (list Z)))
           (chr_gene_numeric_idxs : chr_bin_dict)
  : M (list (Z * list (cmac_bin * list matrix))) :=
  let vset_ld_dict := _get_ld_matrix sparse_genotype_dict in
  let vset_half_covar_proj_dict :=
    _get_vset_half_covar_proj covar sparse_genotype_dict in
  _get_cov_mat vset_ld_dict vset_half_covar_proj_dict chr_gene_numeric_idxs.

End Engine.

(* ===================================================================== *)
(** ** The test runner and the aggregator                                  *)
(* ===================================================================== *)

(** A p-value of the external test: a number, or NaN. *)
Inductive pvalue : Type :=
| PNum (q : Q)
| PNaN.

(** [p < sig_thresh] on one entry: a comparison with NaN is [False]. *)
Definition pvalue_lt (sig_thresh : Q) (p : pvalue) : bool :=
  match p with
  | PNum q => negb (Qle_bool sig_thresh q)
  | PNaN => false
  end.

(** [np.nansum] of a boolean array. *)
Definition nansum (bs : list bool) : Z :=
  fold_left (fun acc (b : bool) => if b then acc + 1 else acc) bs 0.

(** [np.mean(l)]: NaN ([None]) on an empty list. *)
Definition np_mean (l : list Z) : option Q :=
  match l with
  | [] => None
  | _ => Some (inject_Z (sumZ l) / inject_Z (len l))%Q
  end.

(** [x / n] on a float and an integer: no number ([None]) when [n = 0]. *)
Definition np_div (x : option Q) (n : Z) : option Q :=
  match x with
  | Some q => if n =? 0 then None else Some (q / inject_Z n)%Q
  | None => None
  end.

(** [str(x)] of an integer. *)
Definition str (x : Z) : string := NilZero.string_of_int (Z.to_int x).

(** ["_".join([str(x) for x in cmac_bin])]. *)
Definition cmac_bin_str (b : cmac_bin) : string :=
  String.concat "_" [str (fst b); str (snd b)].

Section Aggregator.

Variable sig_thresh : Q.
Variable n_voxels : Z.

(** Lines 168-175 and 187-189: the statistics gathered for one variant
    set and the external test on them, as the p-values (one per trait
    dimension) that the test returns for the set at position [gene_id]
    of a bin of a chromosome. *)
Variable test_pvalues : Z -> cmac_bin -> nat -> list nat -> list pvalue.

Definition all_bins : list cmac_bin :=
  [(2,2); (3,3); (4,4); (5,5); (6,7); (8,9);
   (10,11); (12,14); (15,20); (21,30); (31,60);
   (61,100); (101,500); (501,1000)].

(** Lines 189-192. *)
Definition _variant_set_test_ (pvalues : list pvalue) : Z :=
  nansum (map (pvalue_lt sig_thresh) pvalues).

(** Lines 157-180. *)
Definition _variant_set_test (chr_gene_numeric_idxs : chr_bin_dict)
  : list (Z * list (cmac_bin * list Z)) :=
  map (fun '(chr, gene_numeric_idxs) =>
         (chr,
          map (fun '(bin, gene_numeric_idx) =>
                 (bin,
                  map (fun '(gene_id, numeric_idx) =>
                         _variant_set_test_
                           (test_pvalues chr bin gene_id numeric_idx))
                      (combine (seq 0 (length gene_numeric_idx))
                               gene_numeric_idx)))
              gene_numeric_idxs))
      chr_gene_numeric_idxs.

(** Lines 202-204. *)
Definition extend_bins (chr_sig_count_dict : list (Z * list (cmac_bin * list Z)))
           (bin_sig_count_dict : list (cmac_bin * list Z))
  : M (list (cmac_bin * list Z)) :=
  for_fold
    (fun d '(_, sig_count_dict) =>
       for_fold
         (fun d '(cmac_bin, sig_count_list) =>
            l <- dict_lookup bin_eqb d cmac_bin ;;
            ret (dict_set bin_eqb d cmac_bin (l ++ sig_count_list)))
         sig_count_dict d)
    chr_sig_count_dict bin_sig_count_dict.

(** Lines 194-211; the one-row frame is its index and its columns. *)
Definition run (chr_gene_numeric_idxs : chr_bin_dict) (sample_id : Z)
  : M (Z * list (string * option Q)) :=
  let chr_sig_count_dict := _variant_set_test chr_gene_numeric_idxs in
  let bin_sig_count_dict := map (fun cmac_bin => (cmac_bin, [])) all_bins in
  bin_sig_count_dict <- extend_bins chr_sig_count_dict bin_sig_count_dict ;;
  let bin_sig_count_dict_ :=
    fold_left
      (fun d '(cmac_bin, sig_count_list) =>
         dict_set String.eqb d (cmac_bin_str cmac_bin)
                  (np_div (np_mean sig_count_list) n_voxels))
      bin_sig_count_dict [] in
  ret (sample_id, bin_sig_count_dict_).

(** The significance counts of the sets of one bin, concatenated across
    the chromosomes. *)
Definition bin_counts (chr_gene_numeric_idxs : chr_bin_dict) (b : cmac_bin)
  : list Z :=
  flat_map
    (fun '(chr, gene_numeric_idxs) =>
       flat_map
         (fun '(bin, gene_numeric_idx) =>
            if bin_eqb bin b then
              map (fun '(gene_id, numeric_idx) =>
                     len (filter (pvalue_lt sig_thresh)
                                 (test_pvalues chr bin gene_id numeric_idx)))
                  (combine (seq 0 (length gene_numeric_idx)) gene_numeric_idx)
            else [])
         gene_numeric_idxs)
    chr_gene_numeric_idxs.

End Aggregator.

(* ===================================================================== *)
(** ** [check_input]                                                       *)
(* ===================================================================== *)

Record args : Type := mkArgs {
  null_model : option string;
  sparse_genotype : option string;
  loco_preds : option string;
  out : option string;
  n_ldrs : option Z;
  causal_idx : option string;
  perm : option string
}.

Fixpoint range_from (n : nat) (start step : Z) : list Z :=
  match n with
  | O => []
  | S n' => start :: range_from n' (start + step) step
  end.

(** [list(range(start, stop, step))] for a positive step. *)
Definition py_range (start stop step : Z) : list Z :=
  range_from (Z.to_nat ((stop - start + step - 1) / step)) start step.

(** Lines 367-379. *)
Definition check_input (a : args) : outcome (list Z) :=
  match sparse_genotype a with
  | None => Raised (ValueError "--sparse-genotype is required")
  | Some _ =>
      match null_model a with
      | None => Raised (ValueError "--null-model is required")
      | Some _ =>
          match perm a with
          | None => Raised (ValueError "--perm is required")
          | Some _ =>
              match causal_idx a with
              | Some _ => Returned (py_range 1 23 2)
              | None => Returned (py_range 2 23 2)
              end
          end
      end
  end.

(* ===================================================================== *)
(** ** Predicates and concrete runs used in the statements                 *)
(* ===================================================================== *)

(** A MAC-to-positions map agrees with a MAC vector when every position
    listed under a key has that key as its MAC. *)
Definition mac_map_consistent (mac : list Z) (mp : mac_map) : Prop :=
  forall m ps v, In (m, ps) mp -> In v ps -> mac_at mac v = m.

(** Every position listed in a map belongs to a given set of positions. *)
Definition mac_map_within (mp : mac_map) (pool : list nat) : Prop :=
  forall m ps v, In (m, ps) mp -> In v ps -> In v pool.

(** A set of the causal builder: filler followed by a non-empty causal
    part, with the combined cMAC inside the bin. *)
Definition causal_set_ok (mac : list Z) (causal_idxs : list nat)
           (bin : cmac_bin) (selected_variants : list nat) : Prop :=
  (exists non_causal_variants causal_variants,
      selected_variants = non_causal_variants ++ causal_variants /\
      causal_variants <> [] /\
      Forall (fun v => In v causal_idxs) causal_variants) /\
  fst bin <= cmac_of mac selected_variants <= snd bin.

(** The exact-arithmetic reading of line 235 / 290: the share of each
    chromosome in the quota, rounded down. *)
Definition genes_quota_exact (n_variants_list : list nat) (cmac_bins_count : Z)
  : list Z :=
  map (fun n => (Z.of_nat n * cmac_bins_count)
                / Z.of_nat (fold_right Nat.add 0%nat n_variants_list))
      n_variants_list.

(** Concrete runs of the two mask builders, used below. *)
Definition causal_example_out : chr_bin_dict :=
  [(1,
    [((2, 2), [[4; 4]%nat]); ((3, 3), [[4; 4; 4]%nat]);
     ((4, 4), [[4; 4; 4; 4]%nat]);
     ((5, 5), [[4; 4; 4; 4; 4]%nat]);
     ((6, 7), [[3; 4]%nat]);
     ((8, 9), [[3; 4; 4; 4]%nat]);
     ((10, 11), [[3; 4; 4; 4; 4; 4]%nat]);
     ((12, 14), [[3; 3; 4; 4]%nat]);
     ((15, 20), [[3; 3; 4; 4; 4; 4; 4]%nat]);
     ((21, 30), [[2; 4]%nat]);
     ((31, 60), [[2; 3; 3; 4]%nat]);
     ((61, 100), [[1; 3; 3; 4]%nat]);
     ((101, 500), [[1; 1; 4]%nat]);
     ((501, 1000), [[0; 1; 1; 4]%nat])])].

Definition null_example_draws : list Z :=
  [3;1;4;1;5;9;2;6;5;3;5;8;9;7;9;3;2;3;8;4;6;2;6;4;3;3;8;3;2;7;9;5;0;2;8;8;
   4;1;9;7;1;6;9;3;9;9;3;7;5;1;0;5;8;2;0;9;7;4;9;4;4;5;9;2;3;0;7;8;1;6;4;0;
   6;2;8;6].

Definition null_example_out : chr_bin_dict :=
  [(2,
    [((2, 2), [[0; 5]%nat]); ((3, 3), []); ((4, 4), []);
     ((5, 5), [[0; 4; 1]%nat]); ((6, 7), [[7; 3; 6]%nat]); ((8, 9), []);
     ((10, 11), []); ((12, 14), []); ((15, 20), []); ((21, 30), []);
     ((31, 60), []); ((61, 100), []); ((101, 500), []); ((501, 1000), [])]);
   (4,
    [((2, 2), [[3; 4]%nat]); ((3, 3), []); ((4, 4), []); ((5, 5), []);
     ((6, 7), []); ((8, 9), [[1; 2]%nat]); ((10, 11), []); ((12, 14), []);
     ((15, 20), []); ((21, 30), []); ((31, 60), []); ((61, 100), []);
     ((101, 500), []); ((501, 1000), [])])].

(** A set of the null builder: the sum of its MACs lies in the bin. *)
Definition in_bin (mac : list Z) (bin : cmac_bin)
           (selected_variants : list nat) : Prop :=
  fst bin <= cmac_of mac selected_variants <= snd bin.

(** The counts stored under one bin, concatenated across chromosomes. *)
Definition counts_of (chr_sig_count_dict : list (Z * list (cmac_bin * list Z)))
           (b : cmac_bin) : list Z :=
  flat_map (fun '(_, sig_count_dict) =>
              flat_map (fun '(bin, sig_count_list) =>
                          if bin_eqb bin b then sig_count_list else [])
                       sig_count_dict)
           chr_sig_count_dict.

(** A concrete run of the aggregator, used below: three trait dimensions,
    the second never testable. *)
Definition example_thresh : Q := 25 # 10000000.

Definition example_pvalues (chr : Z) (bin : cmac_bin) (gene_id : nat)
           (numeric_idx : list nat) : list pvalue :=
  [PNum (1 # 10000000); PNaN;
   if Nat.even gene_id then PNum (1 # 2) else PNum (1 # 1000000000)].

Definition example_sets : chr_bin_dict :=
  [(2, [((2, 2), [[0; 1]%nat; [2; 3]%nat]); ((3, 3), [[1; 2]%nat])]);
   (4, [((2, 2), [[5]%nat])])].

(** A small pool and a random source for concrete runs of the selector. *)
Definition selector_example_map : mac_map :=
  [(1, [0; 1; 3]%nat); (2, [2%nat]); (3, [4%nat])].

Definition selector_example_rng : rng :=
  rng_of [1; 5; 0; 0; 4503599627370496; 1].

(** Line 399 of [run], [mac = np.squeeze(np.array(sparse_genotype.sum(axis=1)))]:
    the MAC of a variant is the sum of its genotype row. *)
Definition mac_of_genotype (sparse_genotype : list (list Z)) : list Z :=
  map sumZ sparse_genotype.

(** Lines 396-404 of [run]: the MAC dictionary of the loaded genotypes,
    one entry per chromosome, in loading order. *)
Definition mac_dict_of (sparse_genotype_dict : list (Z * list (list Z)))
  : list (Z * list Z) :=
  map (fun '(chr, sparse_genotype) => (chr, mac_of_genotype sparse_genotype))
      sparse_genotype_dict.

(** A genotype dictionary whose MAC vectors are those of the null-mask
    example: rows are variants, columns are subjects. *)
Definition example_genotypes : list (Z * list (list Z)) :=
  [(2, [[1; 0; 0; 0]; [0; 1; 0; 0]; [1; 1; 0; 0]; [0; 0; 1; 0];
        [2; 1; 0; 0]; [0; 0; 0; 1]; [2; 2; 0; 0]; [0; 2; 0; 0]]);
   (4, [[2; 0; 0; 0]; [2; 1; 0; 0]; [2; 2; 1; 0]; [1; 0; 0; 0];
        [0; 1; 0; 0]; [0; 0; 2; 0]])].

(** Every variant set of a mask points into the genotypes: its chromosome
    has a genotype matrix and its positions are rows of that matrix. *)
Definition set_addressable (sparse_genotype_dict : list (Z * list (list Z)))
           (chr : Z) (numeric_idx : list nat) : Prop :=
  exists vset,
    dict_get Z.eqb sparse_genotype_dict chr = Some vset /\
    Forall (fun v => (v < length vset)%nat) numeric_idx.

Definition sets_addressable (sparse_genotype_dict : list (Z * list (list Z)))
           (chr_gene_numeric_idxs : chr_bin_dict) : Prop :=
  forall chr gene_numeric_idxs bin sets numeric_idx,
    In (chr, gene_numeric_idxs) chr_gene_numeric_idxs ->
    In (bin, sets) gene_numeric_idxs ->
    In numeric_idx sets ->
    set_addressable sparse_genotype_dict chr numeric_idx.

(** A p-value that is a number, not NaN. *)
Definition is_number (p : pvalue) : bool :=
  match p with
  | PNum _ => true
  | PNaN => false
  end.

(** A bin holds no variant set in a mask. *)
Definition bin_without_sets (chr_gene_numeric_idxs : chr_bin_dict)
           (b : cmac_bin) : Prop :=
  forall chr gene_numeric_idxs sets,
    In (chr, gene_numeric_idxs) chr_gene_numeric_idxs ->
    In (b, sets) gene_numeric_idxs -> sets = [].

(** What the null builder keeps for a bin: windows of the permuted order. *)
Definition window_ok (n_variants : nat) (window_lo window_hi : Z)
           (selected_variants : list nat) : Prop :=
  window_lo <= len selected_variants < window_hi /\
  NoDup selected_variants /\
  Forall (fun v => (v < n_variants)%nat) selected_variants.

(** A set of the causal builder, part by part. *)
Definition causal_parts_ok (mac : list Z) (causal_idxs : list nat)
           (bin : cmac_bin) (selected_variants : list nat) : Prop :=
  exists non_causal_variants causal_variants,
    selected_variants = non_causal_variants ++ causal_variants /\
    1 <= cmac_of mac causal_variants
      < Z.max (Z.quot ((fst bin + snd bin) / 2) 2) 2 /\
    1 <= cmac_of mac non_causal_variants /\
    Forall (fun v => In v causal_idxs) causal_variants /\
    Forall (fun v => (v < length mac)%nat) selected_variants.

(* ===================================================================== *)
(** ** The specification's reading of the engine and of the aggregator     *)
(* ===================================================================== *)

(** No linkage entry between two variants of a set has wrapped: the
    co-occurrence counts fit the unsigned 16-bit range. *)
Definition no_wrap (vset : list (list Z)) (numeric_idx : list nat) : Prop :=
  forall ia ib,
    In ia numeric_idx -> In ib numeric_idx ->
    0 <= cooccurrence (nth ia vset []) (nth ib vset []) <= uint16_max.

Section EngineSpec.
Variable F : Type.
Variables Fzero Fone : F.
Variables Fadd Fsub Fmul : F -> F -> F.
Variable F_of_Z : Z -> F.

(** The covariance of a variant set in the specification's words: the
    linkage entry of two variants is the entry of genotype times
    genotype-transpose, their co-occurrence count in unbounded integers. *)
Definition exact_adjusted_covariance (vset : list (list Z))
           (half_covar_proj : matrix F) (numeric_idx : list nat) : matrix F :=
  map (fun ia =>
         map (fun ib =>
                Fsub (F_of_Z (cooccurrence (nth ia vset []) (nth ib vset [])))
                     (dotF F Fzero Fadd Fmul
                           (proj_row F Fzero Fadd Fmul F_of_Z half_covar_proj
                                     (nth ia vset []))
                           (proj_row F Fzero Fadd Fmul F_of_Z half_covar_proj
                                     (nth ib vset []))))
             numeric_idx)
      numeric_idx.

(** [x.T @ cov_mat @ x]. *)
Definition quadratic_form (cov_mat : matrix F) (x : list F) : F :=
  dotF F Fzero Fadd Fmul x
       (map (fun row => dotF F Fzero Fadd Fmul row x) cov_mat).

(** The columns of a matrix given by rows. *)
Definition columns (B : matrix F) : list (list F) :=
  map (fun k => column F Fzero k B) (seq 0 (width F B)).

(** Vectors of unit length that are orthogonal to each other. *)
Inductive orthonormal : list (list F) -> Prop :=
| orthonormal_nil : orthonormal []
| orthonormal_cons (c : list F) (cs : list (list F)) :
    dotF F Fzero Fadd Fmul c c = Fone ->
    Forall (fun d => dotF F Fzero Fadd Fmul c d = Fzero) cs ->
    orthonormal cs ->
    orthonormal (c :: cs).

Definition vadd (u v : list F) : list F :=
  map (fun '(a, b) => Fadd a b) (combine u v).

Definition scale (x : F) (u : list F) : list F := map (Fmul x) u.

(** [x1 * g1 + ... + xk * gk] for vectors of length [n]. *)
Fixpoint lincomb (n : nat) (xs : list F) (gs : list (list F)) : list F :=
  match xs, gs with
  | x :: xs', g :: gs' => vadd (scale x g) (lincomb n xs' gs')
  | _, _ => repeat Fzero n
  end.

Definition sum_over {A} (f : A -> F) (l : list A) : F :=
  fold_right (fun a acc => Fadd (f a) acc) Fzero l.

(** [u . v] minus the product of the coordinates of [u] and [v] along the
    vectors [cols]: what is left of [u . v] outside the span of [cols]. *)
Definition residual_dot (cols : list (list F)) (u v : list F) : F :=
  Fsub (dotF F Fzero Fadd Fmul u v)
       (sum_over (fun c => Fmul (dotF F Fzero Fadd Fmul u c)
                                (dotF F Fzero Fadd Fmul v c)) cols).

End EngineSpec.

(** A run of the engine on which a linkage entry wraps: one variant
    carried twice by each of 16384 subjects, the covariate the first unit
    vector with its own (orthonormal) decomposition. *)
Definition wrap_example_genotypes : list (Z * list (list Z)) :=
  [(1, [repeat 2 (Z.to_nat 16384)])].

Definition wrap_example_covar : list (list Z) :=
  [1] :: repeat [0] (Z.to_nat 16383).

Definition unit_svd (covar : list (list Z))
  : list (list Z) * list Z * list (list Z) :=
  (covar, [1], [[1]]).

Definition wrap_example_mask : chr_bin_dict :=
  [(1, [((501, 1000), [[0%nat]])])].

(** The significance count in the specification's words: the p-values
    that are numbers strictly below the threshold; a NaN is not counted. *)
Definition below_threshold (sig_thresh : Q) (p : pvalue) : bool :=
  match p with
  | PNum q => if Qlt_le_dec q sig_thresh then true else false
  | PNaN => false
  end.

Definition significant_count (sig_thresh : Q) (pvalues : list pvalue) : Z :=
  len (filter (below_threshold sig_thresh) pvalues).

(** The significance counts of all the variant sets of a bin, concatenated
    across the chromosomes. *)
Definition significant_counts (sig_thresh : Q)
           (test_pvalues : Z -> cmac_bin -> nat -> list nat -> list pvalue)
           (chr_gene_numeric_idxs : chr_bin_dict) (b : cmac_bin) : list Z :=
  flat_map
    (fun '(chr, gene_numeric_idxs) =>
       flat_map
         (fun '(bin, gene_numeric_idx) =>
            if bin_eqb bin b then
              map (fun '(gene_id, numeric_idx) =>
                     significant_count
                       sig_thresh (test_pvalues chr bin gene_id numeric_idx))
                  (combine (seq 0 (length gene_numeric_idx)) gene_numeric_idx)
            else [])
         gene_numeric_idxs)
    chr_gene_numeric_idxs.

(** A bin holds at least one variant set in a mask. *)
Definition bin_has_set (chr_gene_numeric_idxs : chr_bin_dict)
           (b : cmac_bin) : Prop :=
  exists chr gene_numeric_idxs sets numeric_idx,
    In (chr, gene_numeric_idxs) chr_gene_numeric_idxs /\
    In (b, sets) gene_numeric_idxs /\
    In numeric_idx sets.

(* ===================================================================== *)
(** * Properties                                                           *)
(* ===================================================================== *)

(** ** The monad and the random primitives *)

Lemma bind_Returned {A B} (m : M A) (k : A -> M B) g b g' :
  bind m k g = Returned (b, g') ->
  exists a g1, m g = Returned (a, g1) /\ k a g1 = Returned (b, g').
Proof.
  unfold bind. destruct (m g) as [[a g1] | e | ]; try discriminate.
  intros H. exists a, g1. split; [reflexivity | exact H].
Qed.

Lemma ret_Returned {A} (a b : A) g g' :
  ret a g = Returned (b, g') -> a = b /\ g = g'.
Proof. unfold ret. intros H. inversion H. split; reflexivity. Qed.

Tactic Notation "inv_bind" hyp(H) "as" ident(a) ident(g) ident(E) :=
  apply bind_Returned in H; destruct H as (a & g & E & H).

Ltac inv_ret H :=
  let E := fresh "E" in
  apply ret_Returned in H; destruct H as [H E]; subst.

Lemma random_choice_In {A} (a : list A) g x g' :
  random_choice a g = Returned (x, g') -> In x a.
Proof.
  destruct a as [| y a']; [discriminate |].
  unfold random_choice. intros H. inv_bind H as r g1 E. inv_ret H.
  apply nth_In.
  assert (0 < Z.of_nat (length (y :: a'))) as Hlen by (simpl length; lia).
  pose proof (Z.mod_pos_bound r _ Hlen). lia.
Qed.

Lemma random_randint_range low high g x g' :
  random_randint low high g = Returned (x, g') -> low <= x < high.
Proof.
  unfold random_randint. destruct (high <=? low) eqn:E; [discriminate |].
  intros H. inv_bind H as r g1 E1. inv_ret H.
  apply Z.leb_gt in E.
  pose proof (Z.mod_pos_bound r (high - low)). lia.
Qed.

Lemma for_each_Forall2 {A B} (f : A -> M B) (R : A -> B -> Prop) l :
  forall g ys g',
    (forall x y g1 g2, In x l -> f x g1 = Returned (y, g2) -> R x y) ->
    for_each f l g = Returned (ys, g') -> Forall2 R l ys.
Proof.
  induction l as [| x l IH]; intros g ys g' Hf H; simpl in H.
  - inv_ret H. constructor.
  - inv_bind H as y g1 E1. inv_bind H as ys' g2 E2. inv_ret H. constructor.
    + eapply Hf; [left; reflexivity | eassumption].
    + eapply IH; [| eassumption].
      intros. eapply Hf; [right |]; eassumption.
Qed.

Lemma for_fold_inv {A S} (f : S -> A -> M S) (P : S -> Prop) l :
  forall s g s' g',
    P s ->
    (forall s1 x s2 g1 g2,
        In x l -> P s1 -> f s1 x g1 = Returned (s2, g2) -> P s2) ->
    for_fold f l s g = Returned (s', g') -> P s'.
Proof.
  induction l as [| x l IH]; intros s g s' g' Hs Hf H; simpl in H.
  - inv_ret H. exact Hs.
  - inv_bind H as s1 g1 E1. eapply IH; [| | eassumption].
    + eapply Hf; [left; reflexivity | exact Hs | eassumption].
    + intros. eapply Hf; [right | |]; eassumption.
Qed.

(** ** Dictionaries *)

Lemma dict_get_In {K V} (eqb : K -> K -> bool) (d : list (K * V)) k v :
  dict_get eqb d k = Some v -> exists k', eqb k k' = true /\ In (k', v) d.
Proof.
  induction d as [| [k' v'] d IH]; simpl; [discriminate |].
  destruct (eqb k k') eqn:E.
  - intros H. inversion H; subst. exists k'. split; [exact E | left; reflexivity].
  - intros H. destruct (IH H) as (k2 & E2 & Hin). exists k2. split; [exact E2 | right; exact Hin].
Qed.

Lemma dict_set_In {K V} (eqb : K -> K -> bool) (d : list (K * V)) k v k0 v0 :
  In (k0, v0) (dict_set eqb d k v) ->
  In (k0, v0) d \/ (v0 = v /\ (k0 = k \/ eqb k k0 = true)).
Proof.
  induction d as [| [k' v'] d IH]; simpl.
  - intros [H | []]. inversion H; subst. right. split; [reflexivity | left; reflexivity].
  - destruct (eqb k k') eqn:E; simpl.
    + intros [H | H].
      * inversion H; subst. right. split; [reflexivity | right; exact E].
      * left. right. exact H.
    + intros [H | H].
      * left. left. exact H.
      * destruct (IH H) as [H1 | H1]; [left; right; exact H1 | right; exact H1].
Qed.

Lemma bin_eqb_eq (a b : cmac_bin) : bin_eqb a b = true -> a = b.
Proof.
  destruct a, b. unfold bin_eqb. simpl. intros H.
  apply andb_true_iff in H. destruct H as [H1 H2].
  apply Z.eqb_eq in H1. apply Z.eqb_eq in H2. subst. reflexivity.
Qed.

Lemma In_slice {A} (l : list A) i j x : In x (slice l i j) -> In x l.
Proof.
  unfold slice. intros H.
  rewrite <- (firstn_skipn (Z.to_nat i) l). apply in_or_app. right.
  rewrite <- (firstn_skipn (Z.to_nat (j - i)) (skipn (Z.to_nat i) l)).
  apply in_or_app. left. exact H.
Qed.

Lemma sumZ_app l1 l2 : sumZ (l1 ++ l2) = sumZ l1 + sumZ l2.
Proof. unfold sumZ. induction l1; simpl; lia. Qed.

Lemma defaultdict_get_In (mp : mac_map) m v :
  In v (defaultdict_get Z.eqb mp m) -> exists ps, In (m, ps) mp /\ In v ps.
Proof.
  unfold defaultdict_get. destruct (dict_get Z.eqb mp m) as [ps |] eqn:E.
  - intros Hv. apply dict_get_In in E. destruct E as (k' & Ek & Hin).
    apply Z.eqb_eq in Ek. subst k'. exists ps. split; assumption.
  - intros [].
Qed.

(** ** The variant selector *)

Section SelectorFacts.
Variable loop_fuel : nat.

Lemma select_combo_sum fuel cmac :
  forall macs combo current g combo' g',
    current <= cmac ->
    sumZ combo = current ->
    select_combo fuel cmac macs combo current g = Returned (combo', g') ->
    sumZ combo' = cmac.
Proof.
  induction fuel as [| fuel IH]; intros macs combo current g combo' g' Hle Hsum H;
    simpl in H; destruct (current <? cmac) eqn:E.
  - discriminate.
  - inv_ret H. apply Z.ltb_ge in E. lia.
  - inv_bind H as a g1 E1. destruct (current + a <=? cmac) eqn:E2.
    + apply Z.leb_le in E2.
      eapply IH; [| | exact H]; [lia |].
      rewrite sumZ_app. simpl. lia.
    + eapply IH; [| | exact H]; assumption.
  - inv_ret H. apply Z.ltb_ge in E. lia.
Qed.

Lemma select_combo_members fuel cmac :
  forall macs combo current g combo' g',
    select_combo fuel cmac macs combo current g = Returned (combo', g') ->
    forall m, In m combo' -> In m combo \/ In m macs.
Proof.
  induction fuel as [| fuel IH]; intros macs combo current g combo' g' H m Hm;
    simpl in H; destruct (current <? cmac) eqn:E.
  - discriminate.
  - inv_ret H. left. exact Hm.
  - inv_bind H as a g1 E1. pose proof (random_choice_In _ _ _ _ E1) as Hin.
    destruct (current + a <=? cmac) eqn:E2.
    + destruct (IH _ _ _ _ _ _ H m Hm) as [H1 | H1].
      * apply in_app_or in H1. destruct H1 as [H1 | [H1 | []]];
          [left; exact H1 | subst; right; exact Hin].
      * apply filter_In in H1. right. apply H1.
    + eapply IH; eassumption.
  - inv_ret H. left. exact Hm.
Qed.

(** A target above the running sum makes the loop accept at least once. *)
Lemma select_combo_grows fuel cmac :
  forall macs combo current g combo' g',
    select_combo fuel cmac macs combo current g = Returned (combo', g') ->
    current < cmac -> (length combo < length combo')%nat.
Proof.
  induction fuel as [| fuel IH]; intros macs combo current g combo' g' H Hlt;
    simpl in H; destruct (current <? cmac) eqn:E;
    try (apply Z.ltb_ge in E; lia).
  - discriminate.
  - inv_bind H as a g1 E1. destruct (current + a <=? cmac) eqn:E2.
    + destruct (Z.ltb_spec (current + a) cmac) as [Hc | Hc].
      * specialize (IH _ _ _ _ _ _ H Hc). rewrite length_app in IH. simpl in IH. lia.
      * destruct fuel; simpl in H;
          (destruct (current + a <? cmac) eqn:E3; [apply Z.ltb_lt in E3; lia |]);
          inv_ret H; rewrite length_app; simpl; lia.
    + eapply IH; eassumption.
Qed.

Lemma pick_variant_In mp m g v g' :
  pick_variant mp m g = Returned (v, g') ->
  In v (defaultdict_get Z.eqb mp m).
Proof.
  unfold pick_variant. intros H. inv_bind H as x g1 E1.
  apply random_choice_In in H. eapply In_slice. exact H.
Qed.

(** What a returned selection looks like: a combination of MAC values of
    the pool that sums to the target, and one position per value, listed
    under that value. *)
Lemma select_variants_for_cmac_shape mp cmac g vs g' :
  0 <= cmac ->
  select_variants_for_cmac loop_fuel mp cmac g = Returned (vs, g') ->
  exists combo,
    sumZ combo = cmac /\
    (0 < cmac -> combo <> []) /\
    Forall2 (fun m v => exists ps, In (m, ps) mp /\ In v ps) combo vs.
Proof.
  intros Hpos H. unfold select_variants_for_cmac in H. inv_bind H as a g1 E.
  exists a. split; [| split].
  - eapply select_combo_sum; [| | exact E]; [lia | reflexivity].
  - intros Hlt Hnil. apply select_combo_grows in E; [| exact Hlt].
    subst a. simpl in E. lia.
  - eapply for_each_Forall2; [| exact H].
    intros x y ga gb _ Hp. apply pick_variant_In in Hp.
    apply defaultdict_get_In. exact Hp.
Qed.

Lemma cmac_of_combo mac mp combo vs :
  mac_map_consistent mac mp ->
  Forall2 (fun m v => exists ps, In (m, ps) mp /\ In v ps) combo vs ->
  cmac_of mac vs = sumZ combo.
Proof.
  intros Hc H. induction H as [| m v combo vs (ps & Hin & Hv) _ IH]; simpl.
  - reflexivity.
  - unfold cmac_of in IH. unfold cmac_of. simpl. rewrite IH.
    rewrite (Hc m ps v Hin Hv). reflexivity.
Qed.

End SelectorFacts.

(** C2. For every MAC-to-positions map (positions listed under their own
    MAC, MACs being counts) and every target at least the smallest MAC of
    the pool, whenever [select_variants_for_cmac] returns, the MACs of the
    returned positions, counted with multiplicity, sum exactly to the
    target. *)
Theorem select_variants_for_cmac_exact
        (loop_fuel : nat) (mac : list Z) (mp : mac_map) (cmac : Z) g vs g' :
  mac_map_consistent mac mp ->
  (forall m, In m (dict_keys mp) -> 0 <= m) ->
  (exists m, In m (dict_keys mp) /\ m <= cmac) ->
  select_variants_for_cmac loop_fuel mp cmac g = Returned (vs, g') ->
  cmac_of mac vs = cmac.
Proof.
  intros Hc Hnn (m0 & Hin & Hle) H.
  assert (0 <= cmac) as Hpos by (specialize (Hnn m0 Hin); lia).
  destruct (select_variants_for_cmac_shape _ _ _ _ _ _ Hpos H)
    as (combo & Hsum & _ & Hall).
  rewrite (cmac_of_combo _ _ _ _ Hc Hall). exact Hsum.
Qed.

Lemma select_variants_for_cmac_exact_witness :
  select_variants_for_cmac 20 [(1, [0; 1; 3]%nat); (2, [2%nat]); (3, [4%nat])]
                           3 (rng_of [1; 5; 0; 0; 4503599627370496; 1])
  = Returned ([2; 3]%nat, mkRng (tape (rng_of [1; 5; 0; 0; 4503599627370496; 1])) 6)
  /\ cmac_of [1; 1; 2; 1; 3] [2; 3]%nat = 3.
Proof.
  split; [reflexivity |].
  apply (select_variants_for_cmac_exact 20 [1; 1; 2; 1; 3]
           [(1, [0; 1; 3]%nat); (2, [2%nat]); (3, [4%nat])] 3
           (rng_of [1; 5; 0; 0; 4503599627370496; 1]) [2; 3]%nat
           (mkRng (tape (rng_of [1; 5; 0; 0; 4503599627370496; 1])) 6)).
  - intros m ps v Hin Hv. simpl in Hin.
    repeat (destruct Hin as [Hin | Hin]; [inversion Hin; subst; simpl in Hv;
      repeat (destruct Hv as [Hv | Hv]; [subst; reflexivity |]); contradiction |]).
    contradiction.
  - simpl. intros m Hm. repeat (destruct Hm as [Hm | Hm]; [subst; lia |]). contradiction.
  - exists 1. simpl. split; [left; reflexivity | lia].
  - reflexivity.
Defined.

(** C7, as stated, fails: with the pool [{2: [0]}] and the target 3 the
    selector accepts 2, the eligible set becomes empty with 1 still to
    reach, and the next draw raises; the run does not go on for ever. *)
Lemma select_empty_eligible_counterexample :
  (exists msg,
      select_variants_for_cmac 5 [(2, [0%nat])] 3 (rng_of [0; 0])
      = Raised (ValueError msg))
  /\ select_variants_for_cmac 5 [(2, [0%nat])] 3 (rng_of [0; 0]) <> Diverged.
Proof.
  split.
  - eexists. reflexivity.
  - vm_compute. discriminate.
Qed.

(** C7 (amended). When the eligible set is empty while the running sum is
    still below the target, the next iteration of the selection loop ends
    the invocation with a [ValueError], raised by the draw from the empty
    set: the selector neither returns nor loops. *)
Theorem select_combo_empty_raises (fuel : nat) (cmac : Z) (combo : list Z)
        (current_cmac : Z) (g : rng) :
  current_cmac < cmac ->
  exists msg,
    select_combo (S fuel) cmac [] combo current_cmac g
    = Raised (ValueError msg).
Proof.
  intros Hlt. simpl. apply Z.ltb_lt in Hlt. rewrite Hlt.
  eexists. reflexivity.
Qed.

Lemma select_combo_empty_raises_witness :
  2 < 3 /\
  exists msg, select_combo 1 3 [] [2] 2 (rng_of []) = Raised (ValueError msg).
Proof.
  split; [lia |].
  apply (select_combo_empty_raises 0 3 [2] 2 (rng_of [])). lia.
Defined.

(** ** [check_input] *)

(** C10. For arguments that pass the required-input checks, the chromosome
    list is 1, 3, ..., 21 when a causal-index input is given and
    2, 4, ..., 22 otherwise. *)
Theorem check_input_chromosomes (a : args) :
  sparse_genotype a <> None ->
  null_model a <> None ->
  perm a <> None ->
  check_input a =
  Returned (match causal_idx a with
            | Some _ => [1; 3; 5; 7; 9; 11; 13; 15; 17; 19; 21]
            | None => [2; 4; 6; 8; 10; 12; 14; 16; 18; 20; 22]
            end).
Proof.
  intros Hg Hn Hp. unfold check_input.
  destruct (sparse_genotype a); [| contradiction].
  destruct (null_model a); [| contradiction].
  destruct (perm a); [| contradiction].
  destruct (causal_idx a); reflexivity.
Qed.

Lemma check_input_chromosomes_witness :
  check_input (mkArgs (Some "null"%string) (Some "geno_chr@.npz"%string) None
                      None None (Some "causal_chr@.txt"%string)
                      (Some "perm"%string))
  = Returned [1; 3; 5; 7; 9; 11; 13; 15; 17; 19; 21].
Proof.
  apply (check_input_chromosomes
           (mkArgs (Some "null"%string) (Some "geno_chr@.npz"%string) None
                   None None (Some "causal_chr@.txt"%string)
                   (Some "perm"%string))); simpl; discriminate.
Defined.

(** ** The linkage matrix *)

Lemma fold_left_inv {A S} (f : S -> A -> S) (P : S -> Prop) l :
  forall s,
    P s -> (forall s1 x, In x l -> P s1 -> P (f s1 x)) -> P (fold_left f l s).
Proof.
  induction l as [| x l IH]; intros s Hs Hf; simpl.
  - exact Hs.
  - apply IH.
    + apply Hf; [left; reflexivity | exact Hs].
    + intros. apply Hf; [right |]; assumption.
Qed.

Lemma dot_u16_acc u : forall v acc,
    fold_left (fun acc '(a, b) => wrap16 (acc + wrap16 (a * b)))
              (combine (map wrap16 u) (map wrap16 v)) (wrap16 acc)
    = wrap16 (acc + cooccurrence u v).
Proof.
  unfold cooccurrence, sumZ, wrap16.
  induction u as [| a u IH]; intros v acc; simpl.
  - f_equal. lia.
  - destruct v as [| b v]; simpl.
    + f_equal. lia.
    + replace (((acc mod 65536 + (a mod 65536 * (b mod 65536)) mod 65536)) mod 65536)
        with ((acc + a * b) mod 65536).
      * rewrite IH. f_equal. lia.
      * rewrite <- Z.mul_mod by lia. rewrite <- Z.add_mod by lia. reflexivity.
Qed.

Lemma dot_u16_wrap u v :
  dot_u16 (map wrap16 u) (map wrap16 v) = wrap16 (cooccurrence u v).
Proof.
  unfold dot_u16. change 0 with (wrap16 0) at 1. rewrite dot_u16_acc.
  reflexivity.
Qed.

Lemma ld_entry (vset : list (list Z)) i j :
  (i < length vset)%nat -> (j < length vset)%nat ->
  nth j (nth i (matmul_T_u16 (astype_uint16 vset) (astype_uint16 vset)) []) 0
  = wrap16 (cooccurrence (nth i vset []) (nth j vset [])).
Proof.
  intros Hi Hj. unfold matmul_T_u16, astype_uint16.
  rewrite (nth_indep _ [] (map (fun rb => dot_u16 (map wrap16 []) rb) (map (map wrap16) vset)))
    by (rewrite !length_map; exact Hi).
  rewrite (map_nth (fun ra => map (fun rb => dot_u16 ra rb) (map (map wrap16) vset))
                   (map (map wrap16) vset) (map wrap16 []) i).
  rewrite (nth_indep _ 0 (dot_u16 (nth i (map (map wrap16) vset) (map wrap16 [])) (map wrap16 [])))
    by (rewrite !length_map; exact Hj).
  rewrite (map_nth (fun rb => dot_u16 (nth i (map (map wrap16) vset) (map wrap16 [])) rb)
                   (map (map wrap16) vset) (map wrap16 []) j).
  rewrite !(map_nth (map wrap16) vset []).
  apply dot_u16_wrap.
Qed.

Lemma _get_ld_matrix_entries sparse_genotype_dict chr vset_ld :
  In (chr, vset_ld) (_get_ld_matrix sparse_genotype_dict) ->
  exists vset,
    In (chr, vset) sparse_genotype_dict /\
    vset_ld = matmul_T_u16 (astype_uint16 vset) (astype_uint16 vset).
Proof.
  unfold _get_ld_matrix.
  apply (fold_left_inv _
           (fun d => In (chr, vset_ld) d ->
                     exists vset, In (chr, vset) sparse_genotype_dict /\
                       vset_ld = matmul_T_u16 (astype_uint16 vset) (astype_uint16 vset))).
  - intros [].
  - intros d [c vset] Hin IH H.
    apply dict_set_In in H. destruct H as [H | [Hv Hk]].
    + apply IH. exact H.
    + exists vset. split; [| exact Hv].
      destruct Hk as [Hk | Hk]; [| apply Z.eqb_eq in Hk]; subst; exact Hin.
Qed.

(** C9, as stated, fails: one variant carried twice by each of 16384
    subjects has the co-occurrence count 65536 with itself, and the stored
    entry is 0. *)
Lemma ld_matrix_wraps_counterexample :
  _get_ld_matrix [(1, [repeat 2 (Z.to_nat 16384)])] = [(1, [[0]])]
  /\ cooccurrence (repeat 2 (Z.to_nat 16384)) (repeat 2 (Z.to_nat 16384)) = 65536
  /\ uint16_max < 65536.
Proof. vm_compute. repeat split; reflexivity. Qed.

(** C9 (amended). The linkage matrix of a chromosome is the product of the
    genotype matrix, cast to unsigned 16-bit integers, with its transpose;
    every entry is the true co-occurrence count reduced modulo 2^16, and it
    is the true count itself whenever that count is at most 65535. *)
Theorem ld_matrix_entry_mod sparse_genotype_dict chr vset_ld :
  In (chr, vset_ld) (_get_ld_matrix sparse_genotype_dict) ->
  exists vset,
    In (chr, vset) sparse_genotype_dict /\
    forall i j,
      (i < length vset)%nat -> (j < length vset)%nat ->
      let count := cooccurrence (nth i vset []) (nth j vset []) in
      nth j (nth i vset_ld []) 0 = count mod 65536 /\
      (0 <= count <= uint16_max -> nth j (nth i vset_ld []) 0 = count).
Proof.
  intros H. apply _get_ld_matrix_entries in H. destruct H as (vset & Hin & ->).
  exists vset. split; [exact Hin |].
  intros i j Hi Hj count. rewrite (ld_entry vset i j Hi Hj). fold count.
  unfold wrap16. split; [reflexivity |].
  unfold uint16_max. intros Hc. apply Z.mod_small. lia.
Qed.

Lemma ld_matrix_entry_mod_witness :
  exists vset,
    In (1, vset) [(1, [[1; 0; 2]; [0; 1; 1]])] /\
    forall i j,
      (i < length vset)%nat -> (j < length vset)%nat ->
      let count := cooccurrence (nth i vset []) (nth j vset []) in
      nth j (nth i [[5; 2]; [2; 2]] []) 0 = count mod 65536 /\
      (0 <= count <= uint16_max -> nth j (nth i [[5; 2]; [2; 2]] []) 0 = count).
Proof.
  apply (ld_matrix_entry_mod [(1, [[1; 0; 2]; [0; 1; 1]])] 1 [[5; 2]; [2; 2]]).
  vm_compute. left. reflexivity.
Defined.

(** ** The MAC-to-positions maps of the causal mask builder *)

Lemma dict_append_member (d : mac_map) k x m ps v :
  In (m, ps) (dict_append Z.eqb d k x) -> In v ps ->
  (exists ps0, In (m, ps0) d /\ In v ps0) \/ (m = k /\ v = x).
Proof.
  induction d as [| [k' l] d IH]; simpl; intros Hin Hv.
  - destruct Hin as [Hin | []]. inversion Hin; subst.
    destruct Hv as [Hv | []]. right. split; [reflexivity | symmetry; exact Hv].
  - destruct (Z.eqb k k') eqn:E.
    + apply Z.eqb_eq in E. subst k'. destruct Hin as [Hin | Hin].
      * inversion Hin; subst. apply in_app_or in Hv.
        destruct Hv as [Hv | [Hv | []]].
        -- left. exists l. split; [left; reflexivity | exact Hv].
        -- right. split; [reflexivity | symmetry; exact Hv].
      * left. exists ps. split; [right; exact Hin | exact Hv].
    + destruct Hin as [Hin | Hin].
      * inversion Hin; subst. left. exists ps. split; [left; reflexivity | exact Hv].
      * destruct (IH Hin Hv) as [(ps0 & H0 & Hv0) | H0].
        -- left. exists ps0. split; [right; exact H0 | exact Hv0].
        -- right. exact H0.
Qed.

Lemma dict_append_keeps (d : mac_map) k x m ps v :
  In (m, ps) d -> In v ps ->
  exists ps', In (m, ps') (dict_append Z.eqb d k x) /\ In v ps'.
Proof.
  induction d as [| [k' l] d IH]; simpl; intros Hin Hv; [contradiction |].
  destruct (Z.eqb k k') eqn:E.
  - destruct Hin as [Hin | Hin].
    + inversion Hin; subst. exists (ps ++ [x]).
      split; [left; reflexivity | apply in_or_app; left; exact Hv].
    + exists ps. split; [right; exact Hin | exact Hv].
  - destruct Hin as [Hin | Hin].
    + exists ps. split; [left; exact Hin | exact Hv].
    + destruct (IH Hin Hv) as (ps' & H1 & H2).
      exists ps'. split; [right; exact H1 | exact H2].
Qed.

Lemma dict_append_adds (d : mac_map) k x :
  exists ps, In (k, ps) (dict_append Z.eqb d k x) /\ In x ps.
Proof.
  induction d as [| [k' l] d IH]; simpl.
  - exists [x]. split; left; reflexivity.
  - destruct (Z.eqb k k') eqn:E.
    + apply Z.eqb_eq in E. subst k'. exists (l ++ [x]).
      split; [left; reflexivity | apply in_or_app; right; left; reflexivity].
    + destruct IH as (ps & H1 & H2). exists ps. split; [right; exact H1 | exact H2].
Qed.

Lemma In_enumerate {A} (l : list A) (d : A) : forall s i x,
    In (i, x) (combine (seq s (length l)) l) ->
    (s <= i)%nat /\ nth (i - s) l d = x.
Proof.
  induction l as [| y l IH]; intros s i x H; simpl in H; [contradiction |].
  destruct H as [H | H].
  - inversion H; subst. rewrite Nat.sub_diag. split; [lia | reflexivity].
  - apply IH in H. destruct H as [Hle Hn]. split; [lia |].
    replace (i - s)%nat with (S (i - S s)) by lia. exact Hn.
Qed.

Lemma enumerate_In {A} (l : list A) (d : A) : forall s i,
    (i < length l)%nat -> In ((s + i)%nat, nth i l d) (combine (seq s (length l)) l).
Proof.
  induction l as [| y l IH]; intros s i Hi; simpl in Hi; [lia |].
  destruct i as [| i]; simpl.
  - left. rewrite Nat.add_0_r. reflexivity.
  - right. replace (s + S i)%nat with (S s + i)%nat by lia. apply IH. lia.
Qed.

(** The map of lines 303-305 lists positions under their own MAC. *)
Lemma build_mac_positions_consistent mac :
  mac_map_consistent mac (build_mac_positions mac).
Proof.
  unfold build_mac_positions.
  apply (fold_left_inv _ (mac_map_consistent mac)).
  - intros m ps v [].
  - intros d [i x] Hin IH m ps v Hm Hv.
    destruct (dict_append_member _ _ _ _ _ _ Hm Hv) as [(ps0 & H0 & Hv0) | [-> ->]].
    + eapply IH; eassumption.
    + apply (In_enumerate mac 0) in Hin. destruct Hin as [_ Hn].
      rewrite Nat.sub_0_r in Hn. exact Hn.
Qed.

Lemma fold_dict_append_keeps (l : list (nat * Z)) : forall (d : mac_map) m ps v,
    In (m, ps) d -> In v ps ->
    exists ps',
      In (m, ps') (fold_left (fun d '(mac_i, x) => dict_append Z.eqb d x mac_i) l d)
      /\ In v ps'.
Proof.
  induction l as [| [i x] l IH]; intros d m ps v Hin Hv; simpl.
  - exists ps. split; assumption.
  - destruct (dict_append_keeps d x i _ _ _ Hin Hv) as (ps' & H1 & H2).
    eapply IH; eassumption.
Qed.

(** The map of lines 303-305 lists every position of the chromosome,
    whether causal or not, under its MAC. *)
Lemma build_mac_positions_complete mac v :
  (v < length mac)%nat ->
  exists ps, In (mac_at mac v, ps) (build_mac_positions mac) /\ In v ps.
Proof.
  intros Hv. unfold build_mac_positions.
  pose proof (enumerate_In mac 0 0 v Hv) as Hen. simpl in Hen.
  revert Hen. generalize (combine (seq 0 (length mac)) mac).
  intros l. generalize (@nil (Z * list nat)).
  induction l as [| [i x] l IH]; intros d Hen; [contradiction |].
  simpl. destruct Hen as [Hen | Hen].
  - inversion Hen; subst.
    destruct (dict_append_adds d (nth v mac 0) v) as (ps & H1 & H2).
    eapply fold_dict_append_keeps; eassumption.
  - apply IH. exact Hen.
Qed.

Lemma index_Returned {A} (a : list A) i g x g' :
  index a i g = Returned (x, g') -> nth_error a i = Some x /\ g' = g.
Proof.
  unfold index. destruct (nth_error a i); [| discriminate].
  intros H. inv_ret H. split; reflexivity.
Qed.

Lemma dict_lookup_Returned {K V} (eqb : K -> K -> bool) (d : list (K * V)) k g v g' :
  dict_lookup eqb d k g = Returned (v, g') -> dict_get eqb d k = Some v /\ g' = g.
Proof.
  unfold dict_lookup. destruct (dict_get eqb d k); [| discriminate].
  intros H. inv_ret H. split; reflexivity.
Qed.

(** The map of lines 308-310 lists causal positions only, each under its
    own MAC. *)
Lemma build_causal_mac_positions_spec mac causal_idxs g cmp g' :
  build_causal_mac_positions mac causal_idxs g = Returned (cmp, g') ->
  mac_map_consistent mac cmp /\ mac_map_within cmp causal_idxs.
Proof.
  unfold build_causal_mac_positions.
  apply (for_fold_inv _ (fun d => mac_map_consistent mac d /\ mac_map_within d causal_idxs)).
  - split; intros m ps v [].
  - intros d idx d' g1 g2 Hidx [Hc Hw] H.
    inv_bind H as x g3 E. inv_ret H.
    apply index_Returned in E. destruct E as [E _].
    split; intros m ps v Hm Hv;
      destruct (dict_append_member _ _ _ _ _ _ Hm Hv) as [(ps0 & H0 & Hv0) | [-> ->]].
    + eapply Hc; eassumption.
    + unfold mac_at. apply nth_error_nth. exact E.
    + eapply Hw; eassumption.
    + exact Hidx.
Qed.

Lemma cmac_of_app mac s1 s2 :
  cmac_of mac (s1 ++ s2) = cmac_of mac s1 + cmac_of mac s2.
Proof. unfold cmac_of. rewrite map_app. apply sumZ_app. Qed.

(** ** The causal mask builder *)

Section CausalFacts.
Variable loop_fuel : nat.
Variable mac : list Z.
Variable causal_idxs : list nat.
Variables mac_positions causal_mac_positions : mac_map.
Hypothesis mac_positions_ok : mac_map_consistent mac mac_positions.
Hypothesis causal_ok : mac_map_consistent mac causal_mac_positions.
Hypothesis causal_within : mac_map_within causal_mac_positions causal_idxs.

Lemma add_non_causal_ok bin n_genes c causal_variants todo :
  forall output g output' g',
    causal_variants <> [] ->
    Forall (fun v => In v causal_idxs) causal_variants ->
    cmac_of mac causal_variants = c ->
    Forall (causal_set_ok mac causal_idxs bin) output ->
    add_non_causal loop_fuel todo mac_positions bin n_genes c
                   causal_variants output g = Returned (output', g') ->
    Forall (causal_set_ok mac causal_idxs bin) output'.
Proof.
  induction todo as [| todo IH]; intros output g output' g' Hne Hin Hc Hout H;
    simpl in H.
  - inv_ret H. exact Hout.
  - inv_bind H as n g1 E1. inv_bind H as nc g2 E2.
    apply random_randint_range in E1.
    assert (0 <= n) as Hn by lia.
    destruct (select_variants_for_cmac_shape _ _ _ _ _ _ Hn E2)
      as (combo & Hsum & _ & Hall).
    pose proof (cmac_of_combo _ _ _ _ mac_positions_ok Hall) as Hnc.
    assert (Forall (causal_set_ok mac causal_idxs bin) (output ++ [nc ++ causal_variants]))
      as Hout'.
    { apply Forall_app. split; [exact Hout |]. constructor; [| constructor].
      split.
      - exists nc, causal_variants. repeat split; assumption.
      - rewrite cmac_of_app. lia. }
    destruct (n_genes <=? len (output ++ [nc ++ causal_variants])).
    + inv_ret H. exact Hout'.
    + eapply IH; [exact Hne | exact Hin | exact Hc | exact Hout' | exact H].
Qed.

Lemma causal_bin_loop_ok bin n_genes fuel :
  forall output g output' g',
    Forall (causal_set_ok mac causal_idxs bin) output ->
    causal_bin_loop loop_fuel fuel mac_positions causal_mac_positions bin
                    n_genes output g = Returned (output', g') ->
    Forall (causal_set_ok mac causal_idxs bin) output'.
Proof.
  induction fuel as [| fuel IH]; intros output g output' g' Hout H;
    cbn [causal_bin_loop] in H.
  - discriminate.
  - inv_bind H as c g1 E1. inv_bind H as cv g2 E2. inv_bind H as out1 g3 E3.
    apply random_randint_range in E1.
    assert (0 <= c) as Hc by lia.
    destruct (select_variants_for_cmac_shape _ _ _ _ _ _ Hc E2)
      as (combo & Hsum & Hne & Hall).
    assert (Forall (causal_set_ok mac causal_idxs bin) out1) as Hout1.
    { eapply add_non_causal_ok; [| | | exact Hout | exact E3].
      - intros ->. inversion Hall; subst. apply Hne; [lia | reflexivity].
      - clear - Hall causal_within. induction Hall as [| m v l l' (ps & H1 & H2) _ IH];
          constructor; [eapply causal_within; eassumption | exact IH].
      - rewrite (cmac_of_combo _ _ _ _ causal_ok Hall). exact Hsum. }
    destruct (n_genes <=? len out1).
    + inv_ret H. exact Hout1.
    + eapply IH; eassumption.
Qed.

End CausalFacts.

(** C4. In causal mode, whenever the builder returns, every stored set of
    every chromosome and bin ends with a non-empty part drawn from the
    causal map (positions of the chromosome's causal index set), and the
    combined cMAC of the set lies in the bin; the builder validates nothing
    after the two draws. *)
Theorem creating_mask_causal_sets
        (loop_fuel : nat) (genes_quota : list nat -> Z -> list Z)
        (mac_dict : list (Z * list Z)) (causal_idx_dict : list (Z * list nat))
        (cmac_bins_count : Z) (g : rng) (out : chr_bin_dict) (g' : rng) :
  creating_mask_causal loop_fuel genes_quota mac_dict causal_idx_dict
                       cmac_bins_count g = Returned (out, g') ->
  forall chr gene_numeric_idxs bin sets selected_variants,
    In (chr, gene_numeric_idxs) out ->
    In (bin, sets) gene_numeric_idxs ->
    In selected_variants sets ->
    exists mac causal_idxs,
      dict_get Z.eqb mac_dict chr = Some mac /\
      dict_get Z.eqb causal_idx_dict chr = Some causal_idxs /\
      causal_set_ok mac causal_idxs bin selected_variants.
Proof.
  unfold creating_mask_causal.
  apply (for_fold_inv _
    (fun d : chr_bin_dict =>
       forall chr gene_numeric_idxs bin sets selected_variants,
         In (chr, gene_numeric_idxs) d ->
         In (bin, sets) gene_numeric_idxs ->
         In selected_variants sets ->
         exists mac causal_idxs,
           dict_get Z.eqb mac_dict chr = Some mac /\
           dict_get Z.eqb causal_idx_dict chr = Some causal_idxs /\
           causal_set_ok mac causal_idxs bin selected_variants)).
  - intros chr gd bin sets s [].
  - intros d [i chr] d' g1 g2 _ IH H.
    inv_bind H as mac g3 Emac. inv_bind H as n_variants g4 En.
    inv_bind H as n_genes g5 Eg. inv_bind H as causal_idxs g6 Ec.
    inv_bind H as cmp g7 Ecmp. inv_bind H as gd g8 Egd. inv_ret H.
    apply dict_lookup_Returned in Emac. destruct Emac as [Emac _].
    apply dict_lookup_Returned in Ec. destruct Ec as [Ec _].
    apply build_causal_mac_positions_spec in Ecmp. destruct Ecmp as [Hc Hw].
    intros chr0 gd0 bin sets s Hin Hbin Hs.
    apply dict_set_In in Hin. destruct Hin as [Hin | [-> Hk]].
    + eapply IH; eassumption.
    + assert (chr0 = chr) as -> by
          (destruct Hk as [Hk | Hk]; [exact Hk | apply Z.eqb_eq in Hk; symmetry; exact Hk]).
      exists mac, causal_idxs. split; [exact Emac | split; [exact Ec |]].
      revert bin sets s Hbin Hs. revert Egd.
      apply (for_fold_inv _
        (fun gd : bin_dict =>
           forall bin sets s, In (bin, sets) gd -> In s sets ->
                              causal_set_ok mac causal_idxs bin s)).
      * intros bin sets s [].
      * intros gd1 b gd2 ga gb _ IHb Hb.
        inv_bind Hb as output gc Eo. inv_ret Hb.
        intros bin sets s Hbin Hs.
        apply dict_set_In in Hbin. destruct Hbin as [Hbin | [-> Hk2]].
        -- eapply IHb; eassumption.
        -- assert (bin = b) as -> by
               (destruct Hk2 as [Hk2 | Hk2]; [exact Hk2 | apply bin_eqb_eq in Hk2; symmetry; exact Hk2]).
           unfold causal_bin in Eo.
           eapply causal_bin_loop_ok in Eo;
             [| apply build_mac_positions_consistent | exact Hc | exact Hw | constructor].
           rewrite Forall_forall in Eo. apply Eo. exact Hs.
Qed.

Lemma creating_mask_causal_sets_witness :
  exists mac causal_idxs,
    dict_get Z.eqb [(1, [400; 50; 20; 5; 1; 1])] 1 = Some mac /\
    dict_get Z.eqb [(1, [4%nat])] 1 = Some causal_idxs /\
    causal_set_ok mac causal_idxs (12, 14) [3; 3; 4; 4]%nat.
Proof.
  apply (creating_mask_causal_sets 40 genes_quota_exact
           [(1, [400; 50; 20; 5; 1; 1])] [(1, [4%nat])] 1 (rng_of [])
           causal_example_out (mkRng (tape (rng_of [])) 190)
           ltac:(vm_compute; reflexivity)
           1 (snd (nth 0 causal_example_out (0, []))) (12, 14)
           [[3; 3; 4; 4]%nat] [3; 3; 4; 4]%nat).
  - left. reflexivity.
  - simpl. do 7 right. left. reflexivity.
  - left. reflexivity.
Defined.

(** ** The null mask builder *)

Section NullFacts.
Variable loop_fuel : nat.
Variable mac : list Z.
Variable bin : cmac_bin.

Lemma scan_windows_ok n_genes n_variants permuted window_size skip_size fuel :
  forall start output g output' g',
    Forall (in_bin mac bin) output ->
    scan_windows fuel mac bin n_genes n_variants permuted window_size
                 skip_size start output g = Returned (output', g') ->
    Forall (in_bin mac bin) output'.
Proof.
  induction fuel as [| fuel IH]; intros start output g output' g' Hout H;
    simpl in H; destruct (start + window_size <? n_variants).
  - discriminate.
  - inv_ret H. exact Hout.
  - destruct ((fst bin <=? cmac_of mac (slice permuted start (start + window_size)))
              && (cmac_of mac (slice permuted start (start + window_size)) <=? snd bin))
             eqn:E.
    + apply andb_true_iff in E. destruct E as [E1 E2].
      apply Z.leb_le in E1. apply Z.leb_le in E2.
      assert (Forall (in_bin mac bin) (output ++ [slice permuted start (start + window_size)]))
        as Hout'.
      { apply Forall_app. split; [exact Hout |].
        constructor; [split; assumption | constructor]. }
      destruct (n_genes <=? len (output ++ [slice permuted start (start + window_size)])).
      * inv_ret H. exact Hout'.
      * eapply IH; eassumption.
    + eapply IH; eassumption.
  - inv_ret H. exact Hout.
Qed.

Lemma null_bin_loop_ok n_genes n_variants variant_idxs window_range fuel :
  forall output g output' g',
    Forall (in_bin mac bin) output ->
    null_bin_loop loop_fuel fuel mac bin n_genes n_variants variant_idxs
                  window_range output g = Returned (output', g') ->
    Forall (in_bin mac bin) output'.
Proof.
  induction fuel as [| fuel IH]; intros output g output' g' Hout H;
    cbn [null_bin_loop] in H.
  - discriminate.
  - inv_bind H as perm g1 E1. inv_bind H as window_size g2 E2.
    inv_bind H as out1 g3 E3.
    apply scan_windows_ok in E3; [| exact Hout].
    destruct (n_genes <=? len out1).
    + inv_ret H. exact E3.
    + eapply IH; eassumption.
Qed.

End NullFacts.

(** C3. In null mode, whenever the builder returns, every variant-index
    array stored for a chromosome and a bin [(lo, hi)] has the sum of its
    members' MACs inside [[lo, hi]]. *)
Theorem creating_mask_null_sets
        (loop_fuel : nat) (genes_quota : list nat -> Z -> list Z)
        (mac_dict : list (Z * list Z)) (cmac_bins_count : Z)
        (g : rng) (out : chr_bin_dict) (g' : rng) :
  creating_mask_null loop_fuel genes_quota mac_dict cmac_bins_count g
  = Returned (out, g') ->
  forall chr gene_numeric_idxs lo hi sets selected_variants,
    In (chr, gene_numeric_idxs) out ->
    In ((lo, hi), sets) gene_numeric_idxs ->
    In selected_variants sets ->
    exists mac,
      dict_get Z.eqb mac_dict chr = Some mac /\
      lo <= cmac_of mac selected_variants <= hi.
Proof.
  unfold creating_mask_null.
  apply (for_fold_inv _
    (fun d : chr_bin_dict =>
       forall chr gene_numeric_idxs lo hi sets selected_variants,
         In (chr, gene_numeric_idxs) d ->
         In ((lo, hi), sets) gene_numeric_idxs ->
         In selected_variants sets ->
         exists mac,
           dict_get Z.eqb mac_dict chr = Some mac /\
           lo <= cmac_of mac selected_variants <= hi)).
  - intros chr gd lo hi sets s [].
  - intros d [i chr] d' g1 g2 _ IH H.
    inv_bind H as mac g3 Emac. inv_bind H as n_variants g4 En.
    inv_bind H as n_genes g5 Eg. inv_bind H as gd g6 Egd. inv_ret H.
    apply dict_lookup_Returned in Emac. destruct Emac as [Emac _].
    intros chr0 gd0 lo hi sets s Hin Hbin Hs.
    apply dict_set_In in Hin. destruct Hin as [Hin | [-> Hk]].
    + eapply IH; eassumption.
    + assert (chr0 = chr) as -> by
          (destruct Hk as [Hk | Hk]; [exact Hk | apply Z.eqb_eq in Hk; symmetry; exact Hk]).
      exists mac. split; [exact Emac |].
      revert lo hi sets s Hbin Hs. revert Egd.
      apply (for_fold_inv _
        (fun gd : bin_dict =>
           forall lo hi sets s, In ((lo, hi), sets) gd -> In s sets ->
                                lo <= cmac_of mac s <= hi)).
      * intros lo hi sets s [].
      * intros gd1 b gd2 ga gb _ IHb Hb.
        inv_bind Hb as output gc Eo. inv_ret Hb.
        intros lo hi sets s Hbin Hs.
        apply dict_set_In in Hbin. destruct Hbin as [Hbin | [-> Hk2]].
        -- eapply IHb; eassumption.
        -- assert ((lo, hi) = b) as <- by
               (destruct Hk2 as [Hk2 | Hk2]; [exact Hk2 | apply bin_eqb_eq in Hk2; symmetry; exact Hk2]).
           unfold null_bin in Eo.
           eapply null_bin_loop_ok in Eo; [| constructor].
           rewrite Forall_forall in Eo. apply (Eo s Hs).
Qed.

Lemma creating_mask_null_sets_witness :
  exists mac,
    dict_get Z.eqb [(2, [1; 1; 2; 1; 3; 1; 4; 2]); (4, [2; 3; 5; 1; 1; 2])] 2
    = Some mac /\
    6 <= cmac_of mac [7; 3; 6]%nat <= 7.
Proof.
  apply (creating_mask_null_sets 40 genes_quota_exact
           [(2, [1; 1; 2; 1; 3; 1; 4; 2]); (4, [2; 3; 5; 1; 1; 2])] 0
           (rng_of null_example_draws) null_example_out
           (mkRng (tape (rng_of null_example_draws)) 196)
           ltac:(vm_compute; reflexivity)
           2 (snd (nth 0 null_example_out (0, []))) 6 7
           [[7; 3; 6]%nat] [7; 3; 6]%nat).
  - left. reflexivity.
  - simpl. do 4 right. left. reflexivity.
  - left. reflexivity.
Defined.

(** C1: the code does otherwise. On a chromosome with MACs
    [400, 50, 20, 5, 1, 1] and the causal index 4, the pool without the
    causal index is computed and left unused; the map given to the selector
    for the filler lists position 4; the selector returns it as filler; and
    the set stored for the bin (2, 2) is the causal variant twice. *)
Theorem non_causal_pool_contains_causal :
  let mac := [400; 50; 20; 5; 1; 1] in
  let causal_idxs := [4%nat] in
  setdiff1d_arange (length mac) causal_idxs = [0; 1; 2; 3; 5]%nat /\
  In 4%nat (defaultdict_get Z.eqb (build_mac_positions mac) 1) /\
  select_variants_for_cmac 40 (build_mac_positions mac) 1 (rng_of [])
  = Returned ([4%nat], mkRng (tape (rng_of [])) 3) /\
  creating_mask_causal 40 genes_quota_exact [(1, mac)] [(1, causal_idxs)] 1
                       (rng_of [])
  = Returned (causal_example_out, mkRng (tape (rng_of [])) 190) /\
  In ((2, 2), [[4; 4]%nat]) (snd (nth 0 causal_example_out (0, []))).
Proof.
  cbv zeta. split; [reflexivity |]. split; [vm_compute; left; reflexivity |].
  split; [vm_compute; reflexivity |]. split; [vm_compute; reflexivity |].
  left. reflexivity.
Qed.

(** ** The covariance engine *)

Lemma dict_get_set_Z {V} (d : list (Z * V)) k v k' :
  dict_get Z.eqb (dict_set Z.eqb d k v) k'
  = if k' =? k then Some v else dict_get Z.eqb d k'.
Proof.
  induction d as [| [c w] d IH]; simpl.
  - reflexivity.
  - destruct (k =? c) eqn:E; simpl.
    + apply Z.eqb_eq in E. subst c. destruct (k' =? k); reflexivity.
    + destruct (k' =? c) eqn:E2.
      * apply Z.eqb_eq in E2. subst c.
        rewrite Z.eqb_sym in E. rewrite E. reflexivity.
      * exact IH.
Qed.

Lemma fold_dict_set_get {V W} (f : V -> W)
      (step : list (Z * W) -> Z * V -> list (Z * W)) (l : list (Z * V)) :
  (forall d c v, step d (c, v) = dict_set Z.eqb d c (f v)) ->
  forall d0 k,
    dict_get Z.eqb (fold_left step l d0) k
    = match assoc_last l k with
      | Some v => Some (f v)
      | None => dict_get Z.eqb d0 k
      end.
Proof.
  intros Hstep. induction l as [| [c v] l IH]; intros d0 k; simpl.
  - reflexivity.
  - rewrite IH. destruct (assoc_last l k); [reflexivity |].
    rewrite Hstep. rewrite dict_get_set_Z. destruct (k =? c); reflexivity.
Qed.

Lemma assoc_last_In {V} (l : list (Z * V)) k v :
  assoc_last l k = Some v -> In (k, v) l.
Proof.
  induction l as [| [c w] l IH]; simpl; [discriminate |].
  destruct (assoc_last l k) as [w' |].
  - intros H. right. apply IH. exact H.
  - destruct (k =? c) eqn:E; [| discriminate].
    apply Z.eqb_eq in E. intros H. inversion H; subst. left. reflexivity.
Qed.

Lemma for_each_pure {A B} (f : A -> M B) (h : A -> B) (P : A -> Prop) l :
  forall g ys g',
    (forall x y g1 g2, In x l -> f x g1 = Returned (y, g2) ->
                       y = h x /\ P x /\ g2 = g1) ->
    for_each f l g = Returned (ys, g') ->
    ys = map h l /\ Forall P l /\ g' = g.
Proof.
  induction l as [| x l IH]; intros g ys g' Hf H; simpl in H.
  - inv_ret H. repeat split. constructor.
  - inv_bind H as y g1 E1. inv_bind H as ys' g2 E2. inv_ret H.
    destruct (Hf x y g g1 (or_introl eq_refl) E1) as (-> & Hp & ->).
    destruct (IH g ys' g' (fun x0 y0 ga gb Hin => Hf x0 y0 ga gb (or_intror Hin)) E2)
      as (-> & Hall & ->).
    repeat split. constructor; assumption.
Qed.

Lemma take_rows_map {A} (d : A) (m : list A) numeric_idx g rows g' :
  for_each (index m) numeric_idx g = Returned (rows, g') ->
  rows = map (fun i => nth i m d) numeric_idx /\
  Forall (fun i => (i < length m)%nat) numeric_idx /\ g' = g.
Proof.
  apply for_each_pure. intros i y g1 g2 _ H.
  apply index_Returned in H. destruct H as [H ->].
  repeat split.
  - symmetry. apply nth_error_nth. exact H.
  - apply nth_error_Some. rewrite H. discriminate.
Qed.

Lemma combine_map_same {A B C} (f : A -> B) (h : A -> C) (l : list A) :
  combine (map f l) (map h l) = map (fun x => (f x, h x)) l.
Proof. induction l; simpl; [reflexivity | rewrite IHl; reflexivity]. Qed.

Lemma nth_map_in_range {A B} (f : A -> B) (l : list A) i dA dB :
  (i < length l)%nat -> nth i (map f l) dB = f (nth i l dA).
Proof.
  intros Hi. rewrite (nth_indep _ dB (f dA)) by (rewrite length_map; exact Hi).
  apply map_nth.
Qed.

Section EngineFacts.
Variable F : Type.
Variable Fzero : F.
Variables Fadd Fsub Fmul : F -> F -> F.
Variable F_of_Z : Z -> F.
Variable astype_float32 : F -> F.
Variable svd : list (list F) -> list (list F) * list F * list (list F).

Local Notation "'linkage' vset" :=
  (matmul_T_u16 (astype_uint16 vset) (astype_uint16 vset))
    (at level 10, vset at level 9).
Local Notation "'projection' vset P" :=
  (matmul F Fzero Fadd Fmul (map (map F_of_Z) vset) P)
    (at level 10, vset at level 9, P at level 9).

Lemma cov_mat_of_spec vset_ld_dict vset_half_covar_proj_dict chr vset P
      numeric_idx g cov_mat g' :
  dict_get Z.eqb vset_half_covar_proj_dict chr = Some (projection vset P) ->
  dict_get Z.eqb vset_ld_dict chr = Some (linkage vset) ->
  cov_mat_of F Fzero Fadd Fsub Fmul F_of_Z vset_ld_dict
             vset_half_covar_proj_dict chr numeric_idx g
  = Returned (cov_mat, g') ->
  cov_mat = adjusted_covariance F Fzero Fadd Fsub Fmul F_of_Z vset P numeric_idx.
Proof.
  unfold cov_mat_of, take_cols, take_rows. intros Hp Hl H.
  inv_bind H as proj g0 Ep. inv_bind H as rows g1 E1.
  inv_bind H as ld g4 El. inv_bind H as ld_rows g2 E2.
  inv_bind H as vset_ld g3 E3. inv_ret H.
  apply dict_lookup_Returned in Ep. destruct Ep as [Ep _].
  rewrite Hp in Ep. injection Ep as <-.
  apply dict_lookup_Returned in El. destruct El as [El _].
  rewrite Hl in El. injection El as <-.
  apply (take_rows_map []) in E1. destruct E1 as (-> & Hr & _).
  apply (take_rows_map []) in E2. destruct E2 as (-> & Hl' & _).
  apply (for_each_pure _ (fun row => map (fun i => nth i row 0) numeric_idx)
                       (fun _ => True)) in E3.
  2:{ intros row y ga gb _ Hy. apply (take_rows_map 0) in Hy.
      destruct Hy as (-> & _ & ->). repeat split. }
  destruct E3 as (-> & _ & _).
  unfold mat_sub, matmul_T, adjusted_covariance.
  rewrite !map_map. rewrite combine_map_same. rewrite map_map.
  apply map_ext_in. intros ia Hia.
  rewrite !map_map. rewrite combine_map_same. rewrite map_map.
  apply map_ext_in. intros ib Hib.
  rewrite Forall_forall in Hr.
  pose proof (Hr ia Hia) as Ha. pose proof (Hr ib Hib) as Hb.
  unfold matmul in Ha, Hb. rewrite !length_map in Ha, Hb.
  rewrite (ld_entry vset ia ib Ha Hb).
  unfold matmul. rewrite map_map.
  rewrite !(nth_map_in_range _ vset _ [] []) by assumption.
  reflexivity.
Qed.

(** The matrices stored by the engine, set by set, with the linkage entry
    as the unsigned 16-bit product holds it. *)
Lemma init_cov_mat_spec (covar : list (list F))
        (sparse_genotype_dict : list (Z * list (list Z)))
        (chr_gene_numeric_idxs : chr_bin_dict) (g : rng)
        (chr_cov_mat_dict : list (Z * list (cmac_bin * list (list (list F)))))
        (g' : rng) :
  init_cov_mat F Fzero Fadd Fsub Fmul F_of_Z astype_float32 svd covar
               sparse_genotype_dict chr_gene_numeric_idxs g
  = Returned (chr_cov_mat_dict, g') ->
  Forall2
    (fun chr_sets chr_covs =>
       fst chr_covs = fst chr_sets /\
       Forall2
         (fun bin_sets bin_covs =>
            fst bin_covs = fst bin_sets /\
            Forall2
              (fun numeric_idx cov_mat =>
                 exists vset,
                   In (fst chr_sets, vset) sparse_genotype_dict /\
                   cov_mat =
                   adjusted_covariance F Fzero Fadd Fsub Fmul F_of_Z vset
                     (half_covar_proj_of F Fzero Fadd Fmul astype_float32
                                         svd covar)
                     numeric_idx)
              (snd bin_sets) (snd bin_covs))
         (snd chr_sets) (snd chr_covs))
    chr_gene_numeric_idxs chr_cov_mat_dict.
Proof.
  unfold init_cov_mat, _get_cov_mat. intros H.
  eapply for_each_Forall2; [| exact H]. clear H.
  intros [chr genes] [chr' covs] g1 g2 _ H.
  inv_bind H as cov_mat_dict g3 E. inv_ret H. injection H as <- <-. simpl.
  split; [reflexivity |].
  eapply for_each_Forall2; [| exact E]. clear E.
  intros [bin sets] [bin' cov_list] g4 g5 _ H.
  inv_bind H as cov_mat_list g6 E. inv_ret H. injection H as <- <-. simpl.
  split; [reflexivity |].
  eapply for_each_Forall2; [| exact E]. clear E.
  intros numeric_idx cov_mat g7 g8 _ H.
  destruct (assoc_last sparse_genotype_dict chr) as [vset |] eqn:Ea.
  - exists vset. split; [apply assoc_last_In; exact Ea |].
    unfold half_covar_proj_of. unfold _get_vset_half_covar_proj in H.
    destruct (svd covar) as [[covar_U s] covar_Vt].
    eapply cov_mat_of_spec; [| | exact H].
    + rewrite (fold_dict_set_get
                 (fun vset => projection vset
                    (map (map astype_float32)
                         (matmul F Fzero Fadd Fmul covar_U covar_Vt))))
        by (intros; reflexivity).
      rewrite Ea. reflexivity.
    + unfold _get_ld_matrix.
      rewrite (fold_dict_set_get (fun vset => linkage vset))
        by (intros; reflexivity).
      rewrite Ea. reflexivity.
  - exfalso. unfold cov_mat_of in H. inv_bind H as proj g9 Ep.
    apply dict_lookup_Returned in Ep. destruct Ep as [Ep _].
    unfold _get_vset_half_covar_proj in Ep.
    destruct (svd covar) as [[covar_U s] covar_Vt].
    rewrite (fold_dict_set_get
               (fun vset => projection vset
                  (map (map astype_float32)
                       (matmul F Fzero Fadd Fmul covar_U covar_Vt)))) in Ep
      by (intros; reflexivity).
    rewrite Ea in Ep. discriminate.
Qed.

Lemma wrap16_small (x : Z) : 0 <= x <= uint16_max -> wrap16 x = x.
Proof. unfold wrap16, uint16_max. intros H. apply Z.mod_small. lia. Qed.

Lemma adjusted_covariance_no_wrap vset P numeric_idx :
  no_wrap vset numeric_idx ->
  adjusted_covariance F Fzero Fadd Fsub Fmul F_of_Z vset P numeric_idx
  = exact_adjusted_covariance F Fzero Fadd Fsub Fmul F_of_Z vset P numeric_idx.
Proof.
  intros Hnw. unfold adjusted_covariance, exact_adjusted_covariance.
  apply map_ext_in. intros ia Hia. apply map_ext_in. intros ib Hib.
  rewrite (wrap16_small _ (Hnw ia ib Hia Hib)). reflexivity.
Qed.

(** C5 (amended). For every chromosome and every variant set, the matrix
    stored by the engine is the sub-block of the chromosome's linkage
    matrix at the set's variant indices, minus the product of the set's
    rows of the covariate half-projection (genotype times [U.Vt] of the
    decomposition of the covariate matrix) with their transpose, where
    every linkage entry is the entry of genotype times genotype-transpose
    reduced modulo 2^16; it is the entry of genotype times
    genotype-transpose itself whenever the co-occurrence counts of the
    set's variants are at most 65535. *)
Theorem cov_mat_formula (covar : list (list F))
        (sparse_genotype_dict : list (Z * list (list Z)))
        (chr_gene_numeric_idxs : chr_bin_dict) (g : rng)
        (chr_cov_mat_dict : list (Z * list (cmac_bin * list (list (list F)))))
        (g' : rng) :
  init_cov_mat F Fzero Fadd Fsub Fmul F_of_Z astype_float32 svd covar
               sparse_genotype_dict chr_gene_numeric_idxs g
  = Returned (chr_cov_mat_dict, g') ->
  Forall2
    (fun chr_sets chr_covs =>
       fst chr_covs = fst chr_sets /\
       Forall2
         (fun bin_sets bin_covs =>
            fst bin_covs = fst bin_sets /\
            Forall2
              (fun numeric_idx cov_mat =>
                 exists vset,
                   In (fst chr_sets, vset) sparse_genotype_dict /\
                   cov_mat =
                   adjusted_covariance F Fzero Fadd Fsub Fmul F_of_Z vset
                     (half_covar_proj_of F Fzero Fadd Fmul astype_float32
                                         svd covar)
                     numeric_idx /\
                   (no_wrap vset numeric_idx ->
                    cov_mat =
                    exact_adjusted_covariance F Fzero Fadd Fsub Fmul F_of_Z
                      vset
                      (half_covar_proj_of F Fzero Fadd Fmul astype_float32
                                          svd covar)
                      numeric_idx))
              (snd bin_sets) (snd bin_covs))
         (snd chr_sets) (snd chr_covs))
    chr_gene_numeric_idxs chr_cov_mat_dict.
Proof.
  intros H. apply init_cov_mat_spec in H.
  eapply Forall2_impl; [| exact H]. clear H.
  intros chr_sets chr_covs [Hk H]. split; [exact Hk |].
  eapply Forall2_impl; [| exact H]. clear H.
  intros bin_sets bin_covs [Hb H]. split; [exact Hb |].
  eapply Forall2_impl; [| exact H]. clear H.
  intros numeric_idx cov_mat (vset & Hin & Hcov).
  exists vset. split; [exact Hin |]. split; [exact Hcov |].
  intros Hnw. rewrite Hcov. apply adjusted_covariance_no_wrap. exact Hnw.
Qed.

(** In the model the stored matrix is symmetric as soon as the
    multiplication of [F] commutes, whatever its rounding. *)
Lemma dotF_comm (u : list F) :
  (forall a b, Fmul a b = Fmul b a) ->
  forall v acc,
    fold_left (fun acc '(a, b) => Fadd acc (Fmul a b)) (combine u v) acc
    = fold_left (fun acc '(a, b) => Fadd acc (Fmul a b)) (combine v u) acc.
Proof.
  intros Hcomm. induction u as [| a u IH]; intros v acc.
  - destruct v; reflexivity.
  - destruct v as [| b v]; simpl; [reflexivity |].
    rewrite (Hcomm a b). apply IH.
Qed.

Lemma cooccurrence_comm (u : list Z) : forall v,
    cooccurrence u v = cooccurrence v u.
Proof.
  unfold cooccurrence, sumZ. induction u as [| a u IH]; intros v.
  - destruct v; reflexivity.
  - destruct v as [| b v]; simpl; [reflexivity |].
    rewrite IH. lia.
Qed.

Lemma adjusted_covariance_symmetric vset P numeric_idx a b :
  (forall x y, Fmul x y = Fmul y x) ->
  (a < length numeric_idx)%nat -> (b < length numeric_idx)%nat ->
  nth b (nth a (adjusted_covariance F Fzero Fadd Fsub Fmul F_of_Z vset P
                                    numeric_idx) []) Fzero
  = nth a (nth b (adjusted_covariance F Fzero Fadd Fsub Fmul F_of_Z vset P
                                      numeric_idx) []) Fzero.
Proof.
  intros Hcomm Ha Hb. unfold adjusted_covariance.
  rewrite (nth_map_in_range _ numeric_idx a 0%nat []) by exact Ha.
  rewrite (nth_map_in_range _ numeric_idx b 0%nat []) by exact Hb.
  rewrite (nth_map_in_range _ numeric_idx b 0%nat Fzero) by exact Hb.
  rewrite (nth_map_in_range _ numeric_idx a 0%nat Fzero) by exact Ha.
  rewrite (cooccurrence_comm (nth (nth a numeric_idx 0%nat) vset [])).
  unfold dotF. rewrite (dotF_comm _ Hcomm). reflexivity.
Qed.

End EngineFacts.

(** C5, as stated, fails: for one variant carried twice by each of 16384
    subjects the engine stores -4, while the sub-block of genotype times
    genotype-transpose minus the product of the half-projection rows is
    65532. *)
Lemma cov_mat_wraps_counterexample :
  init_cov_mat Z 0 Z.add Z.sub Z.mul (fun x => x) (fun x => x) unit_svd
               wrap_example_covar wrap_example_genotypes wrap_example_mask
               (rng_of [])
  = Returned ([(1, [((501, 1000), [[[-4]]])])], rng_of [])
  /\ exact_adjusted_covariance Z 0 Z.add Z.sub Z.mul (fun x => x)
       [repeat 2 (Z.to_nat 16384)]
       (half_covar_proj_of Z 0 Z.add Z.mul (fun x => x) unit_svd
                           wrap_example_covar)
       [0%nat]
     = [[65532]].
Proof. vm_compute. split; reflexivity. Qed.

Lemma cov_mat_formula_witness :
  Forall2
    (fun chr_sets chr_covs =>
       fst chr_covs = fst chr_sets /\
       Forall2
         (fun bin_sets bin_covs =>
            fst bin_covs = fst bin_sets /\
            Forall2
              (fun numeric_idx cov_mat =>
                 exists vset,
                   In (fst chr_sets, vset) [(1, [[1; 0; 2]; [0; 1; 1]])] /\
                   cov_mat =
                   adjusted_covariance Z 0 Z.add Z.sub Z.mul (fun x => x) vset
                     (half_covar_proj_of Z 0 Z.add Z.mul (fun x => x)
                        unit_svd [[1]; [0]; [0]])
                     numeric_idx /\
                   (no_wrap vset numeric_idx ->
                    cov_mat =
                    exact_adjusted_covariance Z 0 Z.add Z.sub Z.mul
                      (fun x => x) vset
                      (half_covar_proj_of Z 0 Z.add Z.mul (fun x => x)
                         unit_svd [[1]; [0]; [0]])
                      numeric_idx))
              (snd bin_sets) (snd bin_covs))
         (snd chr_sets) (snd chr_covs))
    [(1, [((2, 2), [[0; 1]; [1]]%nat)])]
    [(1, [((2, 2), [[[4; 2]; [2; 2]]; [[2]]])])].
Proof.
  apply (cov_mat_formula Z 0 Z.add Z.sub Z.mul (fun x => x) (fun x => x)
           unit_svd [[1]; [0]; [0]]
           [(1, [[1; 0; 2]; [0; 1; 1]])]
           [(1, [((2, 2), [[0; 1]; [1]]%nat)])] (rng_of [])
           [(1, [((2, 2), [[[4; 2]; [2; 2]]; [[2]]])])] (rng_of [])).
  reflexivity.
Defined.

(** ** The aggregator *)

Lemma bin_eqb_refl (a : cmac_bin) : bin_eqb a a = true.
Proof. unfold bin_eqb. rewrite !Z.eqb_refl. reflexivity. Qed.

Lemma bin_eqb_neq (a b : cmac_bin) : a <> b -> bin_eqb a b = false.
Proof.
  intros H. destruct (bin_eqb a b) eqn:E; [| reflexivity].
  apply bin_eqb_eq in E. contradiction.
Qed.

Lemma nansum_acc bs : forall acc,
    fold_left (fun acc (b : bool) => if b then acc + 1 else acc) bs acc
    = acc + len (filter (fun b => b) bs).
Proof.
  unfold len. induction bs as [| b bs IH]; intros acc; simpl.
  - lia.
  - rewrite IH. destruct b; simpl length; lia.
Qed.

Lemma length_filter_map {A} (f : A -> bool) (l : list A) :
  length (filter (fun b => b) (map f l)) = length (filter f l).
Proof.
  induction l as [| a l IH]; simpl; [reflexivity |].
  destruct (f a); simpl; rewrite IH; reflexivity.
Qed.

(** [np.nansum(pvalues < sig_thresh)] counts the entries below the
    threshold; a NaN entry is not below it. *)
Lemma _variant_set_test__count sig_thresh pvalues :
  _variant_set_test_ sig_thresh pvalues
  = len (filter (pvalue_lt sig_thresh) pvalues).
Proof.
  unfold _variant_set_test_, nansum. rewrite nansum_acc. unfold len.
  rewrite length_filter_map. reflexivity.
Qed.

Lemma counts_of_variant_set_test sig_thresh test_pvalues chr_gene_numeric_idxs b :
  counts_of (_variant_set_test sig_thresh test_pvalues chr_gene_numeric_idxs) b
  = bin_counts sig_thresh test_pvalues chr_gene_numeric_idxs b.
Proof.
  unfold counts_of, bin_counts, _variant_set_test.
  induction chr_gene_numeric_idxs as [| [chr genes] rest IH]; simpl;
    [reflexivity |].
  rewrite IH. f_equal.
  induction genes as [| [bin sets] genes IHg]; simpl; [reflexivity |].
  rewrite IHg. f_equal. destruct (bin_eqb bin b); [| reflexivity].
  apply map_ext. intros [gene_id numeric_idx].
  apply _variant_set_test__count.
Qed.

Lemma dict_keys_map_values {K V} (h : K -> V -> V) (d : list (K * V)) :
  dict_keys (map (fun '(k, v) => (k, h k v)) d) = dict_keys d.
Proof.
  unfold dict_keys. rewrite map_map. apply map_ext. intros [k v]. reflexivity.
Qed.

Lemma dict_extend_map (d : list (cmac_bin * list Z)) b l ls :
  NoDup (dict_keys d) ->
  dict_get bin_eqb d b = Some l ->
  dict_set bin_eqb d b (l ++ ls)
  = map (fun '(b', l') => (b', l' ++ if bin_eqb b b' then ls else [])) d.
Proof.
  induction d as [| [k v] d IH]; simpl; intros Hnd Hget; [discriminate |].
  inversion Hnd as [| ? ? Hnotin Hnd']; subst.
  destruct (bin_eqb b k) eqn:E.
  - inversion Hget; subst. f_equal.
    apply bin_eqb_eq in E. subst k.
    clear IH Hnd Hnd' Hget. induction d as [| [k' v'] d IHd]; simpl; [reflexivity |].
    rewrite bin_eqb_neq.
    + rewrite app_nil_r. f_equal. apply IHd. intros Hin. apply Hnotin. right. exact Hin.
    + intros ->. apply Hnotin. left. reflexivity.
  - rewrite app_nil_r. f_equal. apply IH; assumption.
Qed.

Lemma extend_one_chr (sig_count_dict : list (cmac_bin * list Z)) :
  forall d g d' g',
    NoDup (dict_keys d) ->
    for_fold
      (fun d '(cmac_bin, sig_count_list) =>
         l <- dict_lookup bin_eqb d cmac_bin ;;
         ret (dict_set bin_eqb d cmac_bin (l ++ sig_count_list)))
      sig_count_dict d g = Returned (d', g') ->
    d' = map (fun '(b', l') =>
                (b', l' ++ flat_map (fun '(bin, sig_count_list) =>
                                       if bin_eqb bin b' then sig_count_list else [])
                                    sig_count_dict)) d.
Proof.
  induction sig_count_dict as [| [bin ls] sd IH]; intros d g d' g' Hnd H;
    simpl in H.
  - apply ret_Returned in H. destruct H as [<- _].
    simpl. rewrite <- (map_id d) at 1. apply map_ext.
    intros [b' l']. rewrite app_nil_r. reflexivity.
  - inv_bind H as d1 g1 E1. inv_bind E1 as l g2 E2. inv_ret E1.
    apply dict_lookup_Returned in E2. destruct E2 as [E2 _].
    rewrite (dict_extend_map d bin l ls Hnd E2) in H.
    apply IH in H.
    + rewrite H. rewrite map_map. apply map_ext. intros [b' l'].
      simpl. rewrite <- app_assoc. reflexivity.
    + rewrite (dict_keys_map_values (fun b' l' => l' ++ if bin_eqb bin b' then ls else [])).
      exact Hnd.
Qed.

Lemma extend_bins_spec (chr_sig_count_dict : list (Z * list (cmac_bin * list Z))) :
  forall d g d' g',
    NoDup (dict_keys d) ->
    extend_bins chr_sig_count_dict d g = Returned (d', g') ->
    d' = map (fun '(b', l') => (b', l' ++ counts_of chr_sig_count_dict b')) d.
Proof.
  unfold extend_bins, counts_of.
  induction chr_sig_count_dict as [| [chr sd] rest IH]; intros d g d' g' Hnd H;
    simpl in H.
  - apply ret_Returned in H. destruct H as [<- _].
    simpl. rewrite <- (map_id d) at 1. apply map_ext.
    intros [b' l']. rewrite app_nil_r. reflexivity.
  - inv_bind H as d1 g1 E1. apply extend_one_chr in E1; [| exact Hnd].
    subst d1. apply IH in H.
    + rewrite H. rewrite map_map. apply map_ext. intros [b' l'].
      simpl. rewrite <- app_assoc. reflexivity.
    + rewrite (dict_keys_map_values
                 (fun b' l' => l' ++ flat_map (fun '(bin, sig_count_list) =>
                                  if bin_eqb bin b' then sig_count_list else []) sd)).
      exact Hnd.
Qed.

Lemma all_bins_NoDup : NoDup (dict_keys (map (fun b : cmac_bin => (b, @nil Z)) all_bins)).
Proof.
  unfold dict_keys, all_bins. simpl.
  repeat (constructor;
          [simpl; intros H; repeat (destruct H as [H | H]; [discriminate H |]); exact H |]).
  constructor.
Qed.

Lemma dict_get_of_key (d : list (cmac_bin * list Z)) b :
  In b (dict_keys d) -> exists l, dict_get bin_eqb d b = Some l.
Proof.
  induction d as [| [k v] d IH]; simpl; intros H; [contradiction |].
  destruct (bin_eqb b k) eqn:E; [exists v; reflexivity |].
  destruct H as [H | H]; [| exact (IH H)].
  subst k. rewrite bin_eqb_refl in E. discriminate.
Qed.

Lemma extend_one_chr_returns (sig_count_dict : list (cmac_bin * list Z)) :
  forall d g,
    NoDup (dict_keys d) ->
    (forall b l, In (b, l) sig_count_dict -> In b (dict_keys d)) ->
    exists d',
      for_fold
        (fun d '(cmac_bin, sig_count_list) =>
           l <- dict_lookup bin_eqb d cmac_bin ;;
           ret (dict_set bin_eqb d cmac_bin (l ++ sig_count_list)))
        sig_count_dict d g = Returned (d', g).
Proof.
  induction sig_count_dict as [| [bin ls] sd IH]; intros d g Hnd Hkeys; simpl.
  - exists d. reflexivity.
  - destruct (dict_get_of_key d bin (Hkeys bin ls (or_introl eq_refl)))
      as (l & Hl).
    unfold bind at 1. unfold bind at 1. unfold dict_lookup. rewrite Hl.
    unfold ret at 1. unfold ret at 1.
    rewrite (dict_extend_map d bin l ls Hnd Hl).
    apply IH.
    + rewrite (dict_keys_map_values
                 (fun b' l' => l' ++ if bin_eqb bin b' then ls else [])).
      exact Hnd.
    + intros b l0 Hin.
      rewrite (dict_keys_map_values
                 (fun b' l' => l' ++ if bin_eqb bin b' then ls else [])).
      apply (Hkeys b l0). right. exact Hin.
Qed.

Lemma extend_bins_returns (chr_sig_count_dict : list (Z * list (cmac_bin * list Z))) :
  forall d g,
    NoDup (dict_keys d) ->
    (forall chr sd b l, In (chr, sd) chr_sig_count_dict -> In (b, l) sd ->
                        In b (dict_keys d)) ->
    exists d', extend_bins chr_sig_count_dict d g = Returned (d', g).
Proof.
  unfold extend_bins.
  induction chr_sig_count_dict as [| [chr sd] rest IH]; intros d g Hnd Hkeys;
    simpl.
  - exists d. reflexivity.
  - destruct (extend_one_chr_returns sd d g Hnd
                (fun b l Hin => Hkeys chr sd b l (or_introl eq_refl) Hin))
      as (d1 & E1).
    unfold bind at 1. rewrite E1.
    pose proof (extend_one_chr sd d g d1 g Hnd E1) as Hd1.
    apply IH.
    + rewrite Hd1.
      rewrite (dict_keys_map_values
                 (fun b' l' => l' ++ flat_map (fun '(bin, sig_count_list) =>
                                  if bin_eqb bin b' then sig_count_list else []) sd)).
      exact Hnd.
    + intros chr0 sd0 b l Hc Hb. rewrite Hd1.
      rewrite (dict_keys_map_values
                 (fun b' l' => l' ++ flat_map (fun '(bin, sig_count_list) =>
                                  if bin_eqb bin b' then sig_count_list else []) sd)).
      apply (Hkeys chr0 sd0 b l); [right; exact Hc | exact Hb].
Qed.

(** [run] returns as soon as every bin of the masks is one of the fixed
    bins (otherwise line 204 raises [KeyError]). *)
Lemma run_returns sig_thresh n_voxels test_pvalues chr_gene_numeric_idxs
      sample_id g :
  (forall chr gene_numeric_idxs bin sets,
      In (chr, gene_numeric_idxs) chr_gene_numeric_idxs ->
      In (bin, sets) gene_numeric_idxs -> In bin all_bins) ->
  exists row,
    run sig_thresh n_voxels test_pvalues chr_gene_numeric_idxs sample_id g
    = Returned (row, g).
Proof.
  intros Hbins. unfold run.
  destruct (extend_bins_returns
              (_variant_set_test sig_thresh test_pvalues chr_gene_numeric_idxs)
              (map (fun b : cmac_bin => (b, @nil Z)) all_bins) g all_bins_NoDup)
    as (d & E).
  - intros chr sd b l Hc Hb. unfold _variant_set_test in Hc.
    apply in_map_iff in Hc. destruct Hc as ([chr0 genes] & Heq & Hin).
    injection Heq as <- <-.
    apply in_map_iff in Hb. destruct Hb as ([bin sets] & Heq & Hin2).
    injection Heq as <- <-.
    replace (dict_keys (map (fun b0 : cmac_bin => (b0, @nil Z)) all_bins))
      with all_bins by reflexivity.
    eapply Hbins; eassumption.
  - unfold bind. rewrite E. eexists. reflexivity.
Qed.

(** The row of [run]: one column per bin, labelled ["<lo>_<hi>"], holding
    the mean of the bin's counts divided by [n_voxels]. *)
Lemma run_row sig_thresh n_voxels test_pvalues chr_gene_numeric_idxs sample_id
      g row g' :
  run sig_thresh n_voxels test_pvalues chr_gene_numeric_idxs sample_id g
  = Returned (row, g') ->
  row = (sample_id,
         map (fun b =>
                (cmac_bin_str b,
                 np_div (np_mean (bin_counts sig_thresh test_pvalues
                                             chr_gene_numeric_idxs b))
                        n_voxels))
             all_bins).
Proof.
  unfold run. intros H. inv_bind H as d g1 E. inv_ret H.
  apply extend_bins_spec in E; [| apply all_bins_NoDup].
  subst d. f_equal. rewrite map_map.
  rewrite (map_ext _ (fun b => (b, bin_counts sig_thresh test_pvalues
                                              chr_gene_numeric_idxs b)))
    by (intros b; simpl; rewrite counts_of_variant_set_test; reflexivity).
  generalize (bin_counts sig_thresh test_pvalues chr_gene_numeric_idxs).
  intros c. reflexivity.
Qed.

Lemma sumZ_bounds (l : list Z) n :
  Forall (fun c => 0 <= c <= n) l -> 0 <= sumZ l <= len l * n.
Proof.
  unfold sumZ, len. induction 1 as [| c l Hc _ IH]; simpl fold_right; simpl length.
  - lia.
  - rewrite Nat2Z.inj_succ. lia.
Qed.

Lemma rate_bounds (s k n : Z) :
  0 < k -> 0 < n -> 0 <= s <= k * n ->
  (0 <= inject_Z s / inject_Z k / inject_Z n <= 1)%Q.
Proof.
  intros Hk Hn [Hs1 Hs2].
  assert (0 < inject_Z k)%Q as Hk'
      by (change (inject_Z 0 < inject_Z k)%Q; rewrite <- Zlt_Qlt; exact Hk).
  assert (0 < inject_Z n)%Q as Hn'
      by (change (inject_Z 0 < inject_Z n)%Q; rewrite <- Zlt_Qlt; exact Hn).
  split.
  - apply Qle_shift_div_l; [exact Hn' |]. rewrite Qmult_0_l.
    apply Qle_shift_div_l; [exact Hk' |]. rewrite Qmult_0_l.
    change (inject_Z 0 <= inject_Z s)%Q. rewrite <- Zle_Qle. exact Hs1.
  - apply Qle_shift_div_r; [exact Hn' |]. rewrite Qmult_1_l.
    apply Qle_shift_div_r; [exact Hk' |].
    rewrite <- inject_Z_mult. rewrite <- Zle_Qle. lia.
Qed.

Lemma bin_counts_bounds sig_thresh n_voxels test_pvalues chr_gene_numeric_idxs b :
  (forall chr bin gene_id numeric_idx,
      len (test_pvalues chr bin gene_id numeric_idx) = n_voxels) ->
  Forall (fun c => 0 <= c <= n_voxels)
         (bin_counts sig_thresh test_pvalues chr_gene_numeric_idxs b).
Proof.
  intros Hlen. unfold bin_counts. apply Forall_forall. intros c Hc.
  apply in_flat_map in Hc. destruct Hc as ([chr genes] & _ & Hc).
  apply in_flat_map in Hc. destruct Hc as ([bin sets] & _ & Hc).
  destruct (bin_eqb bin b); [| contradiction].
  apply in_map_iff in Hc. destruct Hc as ([gene_id numeric_idx] & <- & _).
  rewrite <- (Hlen chr bin gene_id numeric_idx). unfold len.
  pose proof (filter_length_le (pvalue_lt sig_thresh)
                               (test_pvalues chr bin gene_id numeric_idx)).
  lia.
Qed.

Lemma flat_map_nil_iff {A B} (f : A -> list B) (l : list A) :
  flat_map f l = [] <-> forall x, In x l -> f x = [].
Proof.
  induction l as [| a l IH]; simpl.
  - split; [intros _ x [] | reflexivity].
  - split.
    + intros H. apply app_eq_nil in H. destruct H as [Ha Hl].
      intros x [<- | Hx]; [exact Ha | exact (proj1 IH Hl x Hx)].
    + intros H. rewrite (H a (or_introl eq_refl)).
      apply IH. intros x Hx. apply H. right. exact Hx.
Qed.

Lemma bin_counts_nil_iff sig_thresh test_pvalues chr_gene_numeric_idxs b :
  bin_counts sig_thresh test_pvalues chr_gene_numeric_idxs b = []
  <-> bin_without_sets chr_gene_numeric_idxs b.
Proof.
  unfold bin_counts, bin_without_sets. rewrite flat_map_nil_iff. split.
  - intros H chr genes sets Hc Hb. specialize (H (chr, genes) Hc).
    cbn beta iota in H. rewrite flat_map_nil_iff in H.
    specialize (H (b, sets) Hb). cbn beta iota in H.
    rewrite bin_eqb_refl in H.
    destruct sets as [| s sets]; [reflexivity | discriminate].
  - intros H [chr genes] Hc. rewrite flat_map_nil_iff.
    intros [bin sets] Hb. destruct (bin_eqb bin b) eqn:Eb; [| reflexivity].
    apply bin_eqb_eq in Eb. subst bin.
    rewrite (H chr genes sets Hc Hb). reflexivity.
Qed.

(** The comparison of line 190 is the specification's: a p-value counts
    when it is a number strictly below the threshold. *)
Lemma pvalue_lt_below_threshold sig_thresh p :
  pvalue_lt sig_thresh p = below_threshold sig_thresh p.
Proof.
  destruct p as [q |]; [| reflexivity]. simpl.
  destruct (Qlt_le_dec q sig_thresh) as [Hlt | Hle].
  - destruct (Qle_bool sig_thresh q) eqn:E; [| reflexivity].
    apply Qle_bool_iff in E. exfalso. exact (Qlt_not_le _ _ Hlt E).
  - apply Qle_bool_iff in Hle. rewrite Hle. reflexivity.
Qed.

Lemma bin_counts_significant sig_thresh test_pvalues chr_gene_numeric_idxs b :
  bin_counts sig_thresh test_pvalues chr_gene_numeric_idxs b
  = significant_counts sig_thresh test_pvalues chr_gene_numeric_idxs b.
Proof.
  unfold bin_counts, significant_counts, significant_count.
  apply flat_map_ext. intros [chr genes].
  apply flat_map_ext. intros [bin sets].
  destruct (bin_eqb bin b); [| reflexivity].
  apply map_ext. intros [gene_id numeric_idx].
  rewrite (filter_ext _ _ (pvalue_lt_below_threshold sig_thresh)).
  reflexivity.
Qed.

Lemma bin_has_set_counts sig_thresh test_pvalues chr_gene_numeric_idxs b :
  bin_has_set chr_gene_numeric_idxs b ->
  bin_counts sig_thresh test_pvalues chr_gene_numeric_idxs b <> [].
Proof.
  intros (chr & genes & sets & s & Hc & Hb & Hs) Hnil.
  apply bin_counts_nil_iff in Hnil.
  rewrite (Hnil chr genes sets Hc Hb) in Hs. exact Hs.
Qed.

(** C6, as stated, fails: a bin of the fixed list that holds no variant
    set is reported as NaN, not as a rate in [0, 1]. In this run, with
    three trait dimensions and three p-values per set, the mask holds no
    set for the bin (4, 4). *)
Lemma run_empty_bin_counterexample :
  In (4, 4) all_bins /\
  exists row,
    run example_thresh 3 example_pvalues example_sets 0 (rng_of [])
    = Returned (row, rng_of []) /\
    dict_get String.eqb (snd row) "4_4"%string = Some None.
Proof.
  split; [unfold all_bins; simpl; tauto |].
  eexists. split; [vm_compute; reflexivity | reflexivity].
Qed.

(** C6 (amended). On masks whose bins are the fixed bins, [run] returns a
    row whose column ["<lo>_<hi>"] holds, for every bin: NaN when the bin
    holds no variant set; and, when the bin holds at least one set and
    [n_voxels] is not zero, the mean, over the sets of the bin
    concatenated across the chromosomes, of the number of trait
    dimensions whose p-value is a number strictly below the threshold (a
    NaN is not counted), divided by [n_voxels]. That value lies in
    [[0, 1]] when the test gives [n_voxels] p-values per set and
    [n_voxels] is positive. *)
Theorem run_bin_rate (sig_thresh : Q) (n_voxels : Z)
        (test_pvalues : Z -> cmac_bin -> nat -> list nat -> list pvalue)
        (chr_gene_numeric_idxs : chr_bin_dict) (sample_id : Z)
        (g : rng) (lo hi : Z) :
  (forall chr gene_numeric_idxs bin sets,
      In (chr, gene_numeric_idxs) chr_gene_numeric_idxs ->
      In (bin, sets) gene_numeric_idxs -> In bin all_bins) ->
  In (lo, hi) all_bins ->
  exists row,
    run sig_thresh n_voxels test_pvalues chr_gene_numeric_idxs sample_id g
    = Returned (row, g) /\
    fst row = sample_id /\
    (bin_without_sets chr_gene_numeric_idxs (lo, hi) ->
     dict_get String.eqb (snd row) (str lo ++ "_" ++ str hi)%string
     = Some None) /\
    (bin_has_set chr_gene_numeric_idxs (lo, hi) ->
     n_voxels <> 0 ->
     dict_get String.eqb (snd row) (str lo ++ "_" ++ str hi)%string
     = Some (Some
               (inject_Z (sumZ (significant_counts sig_thresh test_pvalues
                                  chr_gene_numeric_idxs (lo, hi)))
                / inject_Z (len (significant_counts sig_thresh test_pvalues
                                   chr_gene_numeric_idxs (lo, hi)))
                / inject_Z n_voxels)%Q)) /\
    (bin_has_set chr_gene_numeric_idxs (lo, hi) ->
     (forall chr bin gene_id numeric_idx,
         len (test_pvalues chr bin gene_id numeric_idx) = n_voxels) ->
     0 < n_voxels ->
     (0 <= inject_Z (sumZ (significant_counts sig_thresh test_pvalues
                             chr_gene_numeric_idxs (lo, hi)))
           / inject_Z (len (significant_counts sig_thresh test_pvalues
                              chr_gene_numeric_idxs (lo, hi)))
           / inject_Z n_voxels <= 1)%Q).
Proof.
  intros Hbins Hbin.
  destruct (run_returns sig_thresh n_voxels test_pvalues chr_gene_numeric_idxs
                        sample_id g Hbins) as (row & Hrun).
  exists row. pose proof (run_row _ _ _ _ _ _ _ _ Hrun) as Hrow.
  rewrite Hrun. subst row. cbn [fst snd].
  split; [reflexivity |]. split; [reflexivity |].
  rewrite <- !(bin_counts_significant sig_thresh test_pvalues).
  assert (dict_get String.eqb
            (map (fun b =>
                    (cmac_bin_str b,
                     np_div (np_mean (bin_counts sig_thresh test_pvalues
                                        chr_gene_numeric_idxs b)) n_voxels))
                 all_bins)
            (str lo ++ "_" ++ str hi)%string
          = Some (np_div (np_mean (bin_counts sig_thresh test_pvalues
                                     chr_gene_numeric_idxs (lo, hi)))
                         n_voxels)) as Hg.
  { generalize (bin_counts sig_thresh test_pvalues chr_gene_numeric_idxs).
    intros c. clear - Hbin. unfold all_bins in Hbin. simpl in Hbin.
    repeat (destruct Hbin as [Hbin | Hbin];
            [injection Hbin as <- <-; reflexivity |]).
    contradiction. }
  rewrite Hg. clear Hg Hrun. split; [| split].
  - intros Hempty. apply (bin_counts_nil_iff sig_thresh test_pvalues) in Hempty.
    rewrite Hempty. reflexivity.
  - intros Hset Hn.
    apply (bin_has_set_counts sig_thresh test_pvalues) in Hset.
    unfold np_div, np_mean.
    destruct (bin_counts sig_thresh test_pvalues chr_gene_numeric_idxs (lo, hi))
      as [| x l]; [contradiction |].
    destruct (Z.eqb_spec n_voxels 0); [contradiction | reflexivity].
  - intros Hset Hlen Hn.
    apply (bin_has_set_counts sig_thresh test_pvalues) in Hset.
    pose proof (bin_counts_bounds sig_thresh n_voxels test_pvalues
                                  chr_gene_numeric_idxs (lo, hi) Hlen) as Hb.
    apply sumZ_bounds in Hb.
    apply rate_bounds; [| exact Hn | exact Hb].
    unfold len.
    destruct (bin_counts sig_thresh test_pvalues chr_gene_numeric_idxs (lo, hi));
      [contradiction | simpl length; lia].
Qed.

Lemma run_bin_rate_witness :
  exists row,
    run example_thresh 3 example_pvalues example_sets 0 (rng_of [])
    = Returned (row, rng_of []) /\
    fst row = 0 /\
    (bin_without_sets example_sets (2, 2) ->
     dict_get String.eqb (snd row) (str 2 ++ "_" ++ str 2)%string
     = Some None) /\
    (bin_has_set example_sets (2, 2) ->
     3 <> 0 ->
     dict_get String.eqb (snd row) (str 2 ++ "_" ++ str 2)%string
     = Some (Some
               (inject_Z (sumZ (significant_counts example_thresh
                                  example_pvalues example_sets (2%Z, 2%Z)))
                / inject_Z (len (significant_counts example_thresh
                                   example_pvalues example_sets (2%Z, 2%Z)))
                / inject_Z 3%Z)%Q)) /\
    (bin_has_set example_sets (2, 2) ->
     (forall chr bin gene_id numeric_idx,
         len (example_pvalues chr bin gene_id numeric_idx) = 3) ->
     0 < 3 ->
     (0 <= inject_Z (sumZ (significant_counts example_thresh example_pvalues
                             example_sets (2%Z, 2%Z)))
           / inject_Z (len (significant_counts example_thresh example_pvalues
                              example_sets (2%Z, 2%Z)))
           / inject_Z 3%Z <= 1)%Q).
Proof.
  apply (run_bin_rate example_thresh 3 example_pvalues example_sets 0
                      (rng_of []) 2 2).
  - intros chr genes bin sets Hc Hb. unfold example_sets in Hc. simpl in Hc.
    destruct Hc as [Hc | [Hc | []]]; injection Hc as <- <-; simpl in Hb;
      repeat (destruct Hb as [Hb | Hb];
              [injection Hb as <- <-; unfold all_bins; simpl; tauto |]);
      contradiction.
  - left. reflexivity.
Defined.

(* ===================================================================== *)
(** * Further properties of the code                                       *)
(* ===================================================================== *)

(** ** The variant selector: draws, termination, membership *)

Lemma random_choice_cursor {A} (a : list A) g x g' :
  random_choice a g = Returned (x, g') ->
  g' = mkRng (tape g) (S (cursor g)).
Proof.
  destruct a as [| y a']; [discriminate |].
  unfold random_choice, bind, draw, ret. intros H. inversion H. reflexivity.
Qed.

Lemma random_choice_nonempty {A} (a : list A) g :
  a <> [] -> exists x, random_choice a g = Returned (x, mkRng (tape g) (S (cursor g))).
Proof.
  destruct a as [| y a']; [contradiction |]. intros _.
  unfold random_choice, bind, draw, ret. eexists. reflexivity.
Qed.

Lemma filter_all {A} (f : A -> bool) (l : list A) :
  Forall (fun x => f x = true) l -> filter f l = l.
Proof.
  induction 1 as [| x l Hx _ IH]; simpl; [reflexivity |].
  rewrite Hx, IH. reflexivity.
Qed.

(** Every candidate of the eligible set passes the test of line 351. *)
Lemma select_combo_draws fuel cmac :
  forall macs combo current g combo' g',
    Forall (fun m => m <= cmac - current) macs ->
    select_combo fuel cmac macs combo current g = Returned (combo', g') ->
    tape g' = tape g /\
    (cursor g' + length combo = cursor g + length combo')%nat.
Proof.
  induction fuel as [| fuel IH]; intros macs combo current g combo' g' Hel H;
    simpl in H; destruct (current <? cmac) eqn:E.
  - discriminate.
  - inv_ret H. split; [reflexivity | lia].
  - inv_bind H as a g1 E1.
    pose proof (random_choice_In _ _ _ _ E1) as Hin.
    apply random_choice_cursor in E1. subst g1.
    rewrite Forall_forall in Hel. pose proof (Hel a Hin) as Ha.
    destruct (current + a <=? cmac) eqn:E2; [| apply Z.leb_gt in E2; lia].
    apply IH in H.
    + destruct H as [Ht Hc]. simpl in Ht, Hc. split; [exact Ht |].
      rewrite length_app in Hc. simpl in Hc. lia.
    + apply Forall_forall. intros m Hm. apply filter_In in Hm.
      destruct Hm as [_ Hm]. apply Z.leb_le in Hm. exact Hm.
  - inv_ret H. split; [reflexivity | lia].
Qed.

Lemma pick_variant_cursor mp m g v g' :
  pick_variant mp m g = Returned (v, g') ->
  g' = mkRng (tape g) (S (S (cursor g))).
Proof.
  unfold pick_variant. intros H. inv_bind H as x g1 E1.
  unfold random_uniform01, bind, draw, ret in E1. inversion E1; subst.
  apply random_choice_cursor in H. exact H.
Qed.

Lemma for_each_pick_cursor mp combo :
  forall g vs g',
    for_each (pick_variant mp) combo g = Returned (vs, g') ->
    tape g' = tape g /\ length vs = length combo /\
    cursor g' = (cursor g + 2 * length combo)%nat.
Proof.
  induction combo as [| m combo IH]; intros g vs g' H; simpl in H.
  - inv_ret H. repeat split. simpl. lia.
  - inv_bind H as v g1 E1. inv_bind H as vs' g2 E2. inv_ret H.
    apply pick_variant_cursor in E1. subst g1.
    apply IH in E2. destruct E2 as (Ht & Hl & Hc). simpl in Ht, Hc.
    repeat split; [exact Ht | simpl; lia | simpl; lia].
Qed.

(** X1. Whenever the selector returns, it has read exactly three random
    draws per returned variant (one for the MAC value, two for the
    position): the test of line 351 never rejects a candidate, because the
    eligible set is kept below the remaining target. *)
Theorem select_variants_for_cmac_draws
        (loop_fuel : nat) (mp : mac_map) (cmac : Z) (g : rng)
        (vs : list nat) (g' : rng) :
  select_variants_for_cmac loop_fuel mp cmac g = Returned (vs, g') ->
  tape g' = tape g /\ cursor g' = (cursor g + 3 * length vs)%nat.
Proof.
  unfold select_variants_for_cmac. intros H. inv_bind H as combo g1 E.
  apply select_combo_draws in E.
  - destruct E as [Ht Hc]. simpl in Hc.
    apply for_each_pick_cursor in H. destruct H as (Ht' & Hl & Hc').
    split; [congruence | lia].
  - apply Forall_forall. intros m Hm. apply filter_In in Hm.
    destruct Hm as [_ Hm]. apply Z.leb_le in Hm. lia.
Qed.

Lemma select_variants_for_cmac_draws_witness :
  tape (mkRng (tape selector_example_rng) 6) = tape selector_example_rng /\
  cursor (mkRng (tape selector_example_rng) 6)
  = (cursor selector_example_rng + 3 * length [2; 3]%nat)%nat.
Proof.
  apply (select_variants_for_cmac_draws 20 selector_example_map 3
           selector_example_rng [2; 3]%nat
           (mkRng (tape selector_example_rng) 6)).
  reflexivity.
Defined.

Lemma uniform_offset_range (n r : Z) :
  0 < n ->
  0 <= Qfloor (inject_Z n * Qmake (r mod 2 ^ 53) (2 ^ 53)%positive) < n.
Proof.
  intros Hn.
  assert (Qfloor (inject_Z n * Qmake (r mod 2 ^ 53) (2 ^ 53)%positive)
          = (n * (r mod 2 ^ 53)) / 2 ^ 53) as -> by reflexivity.
  pose proof (Z.mod_pos_bound r (2 ^ 53) ltac:(lia)) as Hk.
  split.
  - apply Z.div_pos; [nia | lia].
  - apply Z.div_lt_upper_bound; [lia | nia].
Qed.

Lemma slice_window_nonempty {A} (l : list A) (i : Z) :
  0 <= i < len l -> slice l i (Z.min (i + 20) (len l)) <> [].
Proof.
  unfold len, slice. intros Hi Hnil.
  apply (f_equal (@length A)) in Hnil.
  rewrite length_firstn, length_skipn in Hnil. simpl in Hnil. lia.
Qed.

Lemma pick_variant_returns (mp : mac_map) (m : Z) (g : rng) :
  defaultdict_get Z.eqb mp m <> [] ->
  exists v, pick_variant mp m g = Returned (v, mkRng (tape g) (S (S (cursor g)))).
Proof.
  intros Hne. unfold pick_variant.
  set (positions := defaultdict_get Z.eqb mp m) in *.
  assert (0 < len positions) as Hlen
      by (unfold len; destruct positions; [contradiction | simpl length; lia]).
  pose proof (uniform_offset_range (len positions) (tape g (cursor g)) Hlen) as Hi.
  pose proof (slice_window_nonempty positions _ Hi) as Hs.
  destruct (random_choice_nonempty _ (mkRng (tape g) (S (cursor g))) Hs) as (v & Hv).
  exists v. unfold bind at 1. unfold random_uniform01, bind, draw, ret.
  exact Hv.
Qed.

Lemma for_each_returns {A B} (f : A -> M B) (l : list A) :
  (forall x g, In x l -> exists y g', f x g = Returned (y, g')) ->
  forall g, exists ys g', for_each f l g = Returned (ys, g').
Proof.
  induction l as [| x l IH]; intros Hf g; simpl.
  - exists [], g. reflexivity.
  - destruct (Hf x g (or_introl eq_refl)) as (y & g1 & E1).
    destruct (IH (fun x0 g0 Hin => Hf x0 g0 (or_intror Hin)) g1) as (ys & g2 & E2).
    exists (y :: ys), g2. unfold bind. rewrite E1, E2. reflexivity.
Qed.

(** With MAC values of at least 1, every accepted value moves the running
    sum forward, so [cmac - current_cmac] iterations are enough: the loop
    returns or raises. *)
Lemma select_combo_ends fuel cmac :
  forall macs combo current g,
    Forall (fun m => 1 <= m <= cmac - current) macs ->
    cmac - current <= Z.of_nat fuel ->
    select_combo fuel cmac macs combo current g <> Diverged.
Proof.
  induction fuel as [| fuel IH]; intros macs combo current g Hel Hfuel;
    simpl; destruct (current <? cmac) eqn:E;
    try (apply Z.ltb_lt in E; simpl in Hfuel; lia);
    try discriminate.
  apply Z.ltb_lt in E.
  destruct macs as [| m0 macs'] eqn:Em; [discriminate |]. rewrite <- Em in *.
  assert (macs <> []) as Hne by (rewrite Em; discriminate).
  destruct (random_choice_nonempty macs g Hne) as (a & Ea).
  pose proof (random_choice_In _ _ _ _ Ea) as Hin.
  unfold bind. rewrite Ea.
  rewrite Forall_forall in Hel. pose proof (Hel a Hin) as Ha.
  destruct (current + a <=? cmac) eqn:E2; [| apply Z.leb_gt in E2; lia].
  apply IH.
  - apply Forall_forall. intros m Hm. apply filter_In in Hm.
    destruct Hm as [Hm1 Hm2]. apply Z.leb_le in Hm2.
    pose proof (Hel m Hm1). lia.
  - lia.
Qed.

(** If moreover the value 1 is eligible whenever something is left to
    reach, the eligible set never runs empty and the loop returns. *)
Lemma select_combo_returns fuel cmac :
  forall macs combo current g,
    Forall (fun m => 1 <= m <= cmac - current) macs ->
    (current < cmac -> In 1 macs) ->
    cmac - current <= Z.of_nat fuel ->
    exists combo' g', select_combo fuel cmac macs combo current g
                      = Returned (combo', g').
Proof.
  induction fuel as [| fuel IH]; intros macs combo current g Hel H1 Hfuel;
    simpl; destruct (current <? cmac) eqn:E;
    try (apply Z.ltb_lt in E; simpl in Hfuel; lia);
    try (exists combo, g; reflexivity).
  apply Z.ltb_lt in E.
  assert (macs <> []) as Hne by (intros ->; exact (H1 E)).
  destruct (random_choice_nonempty macs g Hne) as (a & Ea).
  pose proof (random_choice_In _ _ _ _ Ea) as Hin.
  unfold bind. rewrite Ea.
  rewrite Forall_forall in Hel. pose proof (Hel a Hin) as Ha.
  destruct (current + a <=? cmac) eqn:E2; [| apply Z.leb_gt in E2; lia].
  apply IH.
  - apply Forall_forall. intros m Hm. apply filter_In in Hm.
    destruct Hm as [Hm1 Hm2]. apply Z.leb_le in Hm2.
    pose proof (Hel m Hm1). lia.
  - intros Hlt. apply filter_In. split; [apply H1; exact E |].
    apply Z.leb_le. lia.
  - lia.
Qed.

(** X2. On a pool whose MAC values are at least 1, whose value 1 is
    present and whose position lists are not empty, the selector returns
    for every target up to the loop bound and every random source: the
    eligible set never runs empty, and at most [cmac] iterations are
    needed. *)
Theorem select_variants_for_cmac_returns
        (loop_fuel : nat) (mp : mac_map) (cmac : Z) (g : rng) :
  (forall m, In m (dict_keys mp) -> 1 <= m) ->
  In 1 (dict_keys mp) ->
  (forall m, In m (dict_keys mp) -> defaultdict_get Z.eqb mp m <> []) ->
  cmac <= Z.of_nat loop_fuel ->
  exists vs g', select_variants_for_cmac loop_fuel mp cmac g = Returned (vs, g').
Proof.
  intros Hpos H1 Hne Hfuel. unfold select_variants_for_cmac.
  destruct (select_combo_returns loop_fuel cmac
              (filter (fun m => m <=? cmac) (dict_keys mp)) [] 0 g)
    as (combo & g1 & E).
  - apply Forall_forall. intros m Hm. apply filter_In in Hm.
    destruct Hm as [Hm1 Hm2]. apply Z.leb_le in Hm2.
    pose proof (Hpos m Hm1). lia.
  - intros Hlt. apply filter_In. split; [exact H1 | apply Z.leb_le; lia].
  - lia.
  - destruct (for_each_returns (pick_variant mp) combo) with (g := g1)
      as (vs & g2 & E2).
    + intros m g0 Hm.
      destruct (select_combo_members _ _ _ _ _ _ _ _ E m Hm) as [[] | Hk].
      apply filter_In in Hk. destruct Hk as [Hk _].
      destruct (pick_variant_returns mp m g0 (Hne m Hk)) as (v & Hv).
      exists v. eexists. exact Hv.
    + exists vs, g2. unfold bind. rewrite E. exact E2.
Qed.

Lemma select_variants_for_cmac_returns_witness :
  exists vs g',
    select_variants_for_cmac 20 selector_example_map 7 selector_example_rng
    = Returned (vs, g').
Proof.
  apply (select_variants_for_cmac_returns 20 selector_example_map 7
                                          selector_example_rng).
  - simpl. intros m Hm. repeat (destruct Hm as [Hm | Hm]; [subst; lia |]).
    contradiction.
  - simpl. left. reflexivity.
  - simpl. intros m Hm.
    repeat (destruct Hm as [Hm | Hm]; [subst; vm_compute; discriminate |]).
    contradiction.
  - simpl. lia.
Defined.

(** X3. On a pool whose MAC values are at least 1, the selection loop
    cannot outlast its target: with a loop bound of at least [cmac] the
    selector returns or raises, it never runs out of iterations. *)
Theorem select_variants_for_cmac_ends
        (loop_fuel : nat) (mp : mac_map) (cmac : Z) (g : rng) :
  (forall m, In m (dict_keys mp) -> 1 <= m) ->
  cmac <= Z.of_nat loop_fuel ->
  select_variants_for_cmac loop_fuel mp cmac g <> Diverged.
Proof.
  intros Hpos Hfuel. unfold select_variants_for_cmac, bind.
  pose proof (select_combo_ends loop_fuel cmac
                (filter (fun m => m <=? cmac) (dict_keys mp)) [] 0 g) as Hends.
  destruct (select_combo loop_fuel cmac
              (filter (fun m => m <=? cmac) (dict_keys mp)) [] 0 g)
    as [[combo g1] | e |] eqn:E.
  - clear Hends E. revert g1.
    induction combo as [| m combo IH]; intros g1; simpl; [discriminate |].
    unfold bind at 1.
    destruct (pick_variant mp m g1) as [[v g2] | e |] eqn:Ep;
      [| discriminate |].
    + unfold bind. specialize (IH g2).
      destruct (for_each (pick_variant mp) combo g2) as [[vs g3] | e |];
        [discriminate | discriminate | contradiction].
    + exfalso. unfold pick_variant, random_uniform01, bind, draw, ret in Ep.
      unfold random_choice in Ep.
      destruct (slice _ _ _) in Ep; [discriminate |].
      unfold bind, draw, ret in Ep. discriminate.
  - discriminate.
  - exfalso. apply Hends; [| lia | reflexivity].
    apply Forall_forall. intros m Hm. apply filter_In in Hm.
    destruct Hm as [Hm1 Hm2]. apply Z.leb_le in Hm2.
    pose proof (Hpos m Hm1). lia.
Qed.

Lemma select_variants_for_cmac_ends_witness :
  select_variants_for_cmac 5 [(2, [0%nat])] 3 (rng_of [0; 0]) <> Diverged.
Proof.
  apply (select_variants_for_cmac_ends 5 [(2, [0%nat])] 3 (rng_of [0; 0])).
  - simpl. intros m [Hm | []]. subst. lia.
  - simpl. lia.
Defined.

Lemma select_combo_zero_diverges fuel cmac macs :
  macs <> [] ->
  Forall (fun m => m = 0) macs ->
  forall combo current g,
    current < cmac ->
    select_combo fuel cmac macs combo current g = Diverged.
Proof.
  intros Hne Hz. induction fuel as [| fuel IH]; intros combo current g Hlt;
    simpl; apply Z.ltb_lt in Hlt; rewrite Hlt; [reflexivity |].
  apply Z.ltb_lt in Hlt.
  destruct (random_choice_nonempty macs g Hne) as (a & Ea).
  pose proof (random_choice_In _ _ _ _ Ea) as Hin.
  unfold bind. rewrite Ea.
  rewrite Forall_forall in Hz. pose proof (Hz a Hin) as Ha. subst a.
  rewrite Z.add_0_r.
  destruct (current <=? cmac) eqn:E2; [| apply Z.leb_gt in E2; lia].
  rewrite filter_all.
  - apply IH. exact Hlt.
  - apply Forall_forall. intros m Hm. rewrite (Hz m Hm). apply Z.leb_le. lia.
Qed.

(** X4. When MAC 0 is the only MAC value of the pool not above a positive
    target, the selection loop never ends: every draw is accepted and adds
    nothing, whatever the number of iterations allowed. *)
Theorem select_variants_for_cmac_zero_mac_diverges
        (loop_fuel : nat) (mp : mac_map) (cmac : Z) (g : rng) :
  0 < cmac ->
  In 0 (dict_keys mp) ->
  (forall m, In m (dict_keys mp) -> m <= cmac -> m = 0) ->
  select_variants_for_cmac loop_fuel mp cmac g = Diverged.
Proof.
  intros Hpos H0 Hall. unfold select_variants_for_cmac, bind.
  rewrite select_combo_zero_diverges; [reflexivity | | | exact Hpos].
  - intros Hnil.
    assert (In 0 (filter (fun m => m <=? cmac) (dict_keys mp))) as Hin
        by (apply filter_In; split; [exact H0 | apply Z.leb_le; lia]).
    rewrite Hnil in Hin. exact Hin.
  - apply Forall_forall. intros m Hm. apply filter_In in Hm.
    destruct Hm as [Hm1 Hm2]. apply Z.leb_le in Hm2. apply Hall; assumption.
Qed.

Lemma select_variants_for_cmac_zero_mac_diverges_witness :
  select_variants_for_cmac 1000 [(0, [0%nat]); (5, [1%nat])] 3 (rng_of [])
  = Diverged.
Proof.
  apply (select_variants_for_cmac_zero_mac_diverges
           1000 [(0, [0%nat]); (5, [1%nat])] 3 (rng_of [])).
  - lia.
  - simpl. left. reflexivity.
  - simpl. intros m [Hm | [Hm | []]] Hle; subst; [reflexivity | lia].
Defined.

(** X5. Whenever the selector returns, every returned index is a position
    that the map lists under a MAC value not above the target, and the
    selector returns one index per accepted MAC value: on a pool whose MAC
    values are at least 1 it returns at most [cmac] indices. *)
Theorem select_variants_for_cmac_members
        (loop_fuel : nat) (mp : mac_map) (cmac : Z) (g : rng)
        (vs : list nat) (g' : rng) :
  select_variants_for_cmac loop_fuel mp cmac g = Returned (vs, g') ->
  (forall v, In v vs ->
             exists m ps, In (m, ps) mp /\ In v ps /\ m <= cmac) /\
  ((forall m, In m (dict_keys mp) -> 1 <= m) ->
   len vs <= Z.max cmac 0).
Proof.
  unfold select_variants_for_cmac. intros H. inv_bind H as combo g1 E.
  assert (Forall2 (fun m v => In v (defaultdict_get Z.eqb mp m)) combo vs) as Hall.
  { eapply for_each_Forall2; [| exact H].
    intros m v ga gb _ Hp. apply pick_variant_In in Hp. exact Hp. }
  assert (forall m, In m combo ->
                    In m (dict_keys mp) /\ m <= cmac) as Hcombo.
  { intros m Hm.
    destruct (select_combo_members _ _ _ _ _ _ _ _ E m Hm) as [[] | Hk].
    apply filter_In in Hk. destruct Hk as [Hk1 Hk2]. apply Z.leb_le in Hk2.
    split; assumption. }
  split.
  - intros v Hv. clear E H.
    induction Hall as [| m v0 combo vs Hmv _ IH]; [contradiction |].
    destruct Hv as [-> | Hv].
    + apply defaultdict_get_In in Hmv. destruct Hmv as (ps & Hin & Hps).
      exists m, ps. repeat split; try assumption.
      apply (Hcombo m). left. reflexivity.
    + apply IH; [| exact Hv]. intros m0 Hm0. apply Hcombo. right. exact Hm0.
  - intros Hpos.
    assert (len vs = len combo) as ->
        by (unfold len; f_equal; symmetry; eapply Forall2_length; exact Hall).
    assert (len combo <= sumZ combo) as Hlen.
    { clear - Hcombo Hpos. unfold len, sumZ.
      induction combo as [| m combo IH]; simpl fold_right; simpl length; [lia |].
      rewrite Nat2Z.inj_succ.
      pose proof (Hpos m (proj1 (Hcombo m (or_introl eq_refl)))).
      specialize (IH (fun m0 Hm0 => Hcombo m0 (or_intror Hm0))). lia. }
    destruct (Z.le_gt_cases 0 cmac) as [Hc | Hc].
    + rewrite (select_combo_sum _ _ _ [] 0 _ _ _ Hc eq_refl E) in Hlen. lia.
    + destruct loop_fuel; simpl in E;
        (destruct (0 <? cmac) eqn:E0; [apply Z.ltb_lt in E0; lia |]);
        inv_ret E; unfold len; simpl; lia.
Qed.

Lemma select_variants_for_cmac_members_witness :
  (forall v, In v [2; 3]%nat ->
             exists m ps, In (m, ps) selector_example_map /\ In v ps /\ m <= 3) /\
  ((forall m, In m (dict_keys selector_example_map) -> 1 <= m) ->
   len [2; 3]%nat <= Z.max 3 0).
Proof.
  apply (select_variants_for_cmac_members 20 selector_example_map 3
           selector_example_rng [2; 3]%nat
           (mkRng (tape selector_example_rng) 6)).
  reflexivity.
Defined.

(** ** The null mask builder: permutations, windows, quota *)

Lemma nth_error_enumerate_map {A B} (h : nat * A -> B) (l : list A) :
  forall s n,
    nth_error (map h (combine (seq s (length l)) l)) n
    = option_map (fun x => h ((s + n)%nat, x)) (nth_error l n).
Proof.
  induction l as [| y l IH]; intros s n; simpl.
  - destruct n; reflexivity.
  - destruct n as [| n]; simpl.
    + rewrite Nat.add_0_r. reflexivity.
    + rewrite IH. replace (S s + n)%nat with (s + S n)%nat by lia. reflexivity.
Qed.

Lemma swap_nth_error (l : list nat) (i j n : nat) :
  (i < length l)%nat -> (j < length l)%nat ->
  nth_error (swap l i j) n
  = nth_error l (if Nat.eqb n i then j else if Nat.eqb n j then i else n).
Proof.
  intros Hi Hj. unfold swap. rewrite nth_error_enumerate_map. simpl.
  destruct (Nat.eqb_spec n i) as [-> | Hni].
  - rewrite (nth_error_nth' l 0%nat Hi), (nth_error_nth' l 0%nat Hj). reflexivity.
  - destruct (Nat.eqb_spec n j) as [-> | Hnj].
    + rewrite (nth_error_nth' l 0%nat Hi), (nth_error_nth' l 0%nat Hj). reflexivity.
    + destruct (nth_error l n); reflexivity.
Qed.

Lemma swap_length (l : list nat) (i j : nat) : length (swap l i j) = length l.
Proof.
  unfold swap. rewrite length_map, length_combine, length_seq.
  apply Nat.min_id.
Qed.

Lemma swap_Permutation (l : list nat) (i j : nat) :
  (i < length l)%nat -> (j < length l)%nat -> Permutation l (swap l i j).
Proof.
  intros Hi Hj. apply Permutation_nth_error. split.
  - symmetry. apply swap_length.
  - exists (fun n => if Nat.eqb n i then j else if Nat.eqb n j then i else n).
    split.
    + intros x y.
      destruct (Nat.eqb_spec x i), (Nat.eqb_spec y i),
               (Nat.eqb_spec x j), (Nat.eqb_spec y j); lia.
    + intros n. apply swap_nth_error; assumption.
Qed.

Lemma shuffle_Permutation (i : nat) :
  forall l g l' g',
    (i < length l)%nat \/ i = 0%nat ->
    shuffle i l g = Returned (l', g') -> Permutation l l'.
Proof.
  induction i as [| i IH]; intros l g l' g' Hi H; simpl in H.
  - inv_ret H. apply Permutation_refl.
  - inv_bind H as r g1 E1.
    destruct Hi as [Hi | Hi]; [| discriminate].
    assert (Z.to_nat (r mod Z.of_nat (S (S i))) < length l)%nat as Hj.
    { pose proof (Z.mod_pos_bound r (Z.of_nat (S (S i))) ltac:(lia)). lia. }
    apply IH in H.
    + eapply Permutation_trans; [| exact H].
      apply swap_Permutation; assumption.
    + left. rewrite swap_length. lia.
Qed.

(** [np.random.permutation(n)] returns a permutation of [0 .. n-1]. *)
Lemma random_permutation_Permutation n g perm g' :
  random_permutation n g = Returned (perm, g') -> Permutation (seq 0 n) perm.
Proof.
  unfold random_permutation. apply shuffle_Permutation.
  rewrite length_seq. lia.
Qed.

Lemma permuted_idxs_spec n perm :
  Permutation (seq 0 n) perm ->
  map (fun p => nth p (seq 0 n) 0%nat) perm = perm /\
  NoDup perm /\ length perm = n /\ Forall (fun v => (v < n)%nat) perm.
Proof.
  intros Hp.
  assert (Forall (fun v => (v < n)%nat) perm) as Hr.
  { apply Forall_forall. intros v Hv.
    apply (Permutation_in _ (Permutation_sym Hp)) in Hv.
    apply in_seq in Hv. lia. }
  repeat split.
  - rewrite <- (map_id perm) at 2. apply map_ext_in. intros p Hin.
    rewrite Forall_forall in Hr. rewrite seq_nth by (apply Hr; exact Hin).
    reflexivity.
  - eapply Permutation_NoDup; [exact Hp | apply seq_NoDup].
  - rewrite <- (Permutation_length Hp). apply length_seq.
  - exact Hr.
Qed.

Lemma NoDup_slice {A} (l : list A) i j : NoDup l -> NoDup (slice l i j).
Proof.
  intros H. unfold slice.
  rewrite <- (firstn_skipn (Z.to_nat i) l) in H.
  apply NoDup_app_remove_l in H.
  rewrite <- (firstn_skipn (Z.to_nat (j - i)) (skipn (Z.to_nat i) l)) in H.
  apply NoDup_app_remove_r in H. exact H.
Qed.

Lemma slice_length {A} (l : list A) (start w : Z) :
  0 <= start -> 0 <= w -> start + w <= len l ->
  len (slice l start (start + w)) = w.
Proof.
  unfold len, slice. intros Hs Hw Hle.
  rewrite length_firstn, length_skipn. lia.
Qed.

Lemma scan_windows_windows mac bin n_genes (n : nat) permuted w skip fuel :
  NoDup permuted -> length permuted = n ->
  Forall (fun v => (v < n)%nat) permuted ->
  0 <= w -> 0 <= skip ->
  forall (Q : list nat -> Prop),
    (forall s, len s = w -> NoDup s -> Forall (fun v => (v < n)%nat) s -> Q s) ->
    forall start output g output' g',
      0 <= start ->
      Forall Q output ->
      scan_windows fuel mac bin n_genes (Z.of_nat n) permuted w skip start
                   output g = Returned (output', g') ->
      Forall Q output'.
Proof.
  intros Hnd Hlen Hr Hw Hskip Q HQ.
  induction fuel as [| fuel IH]; intros start output g output' g' Hs Hout H;
    simpl in H; destruct (start + w <? Z.of_nat n) eqn:E.
  - discriminate.
  - inv_ret H. exact Hout.
  - apply Z.ltb_lt in E.
    assert (Q (slice permuted start (start + w))) as Hq.
    { apply HQ.
      - apply slice_length; [exact Hs | exact Hw | unfold len; lia].
      - apply NoDup_slice. exact Hnd.
      - apply Forall_forall. intros v Hv. apply In_slice in Hv.
        rewrite Forall_forall in Hr. apply Hr. exact Hv. }
    destruct ((fst bin <=? cmac_of mac (slice permuted start (start + w)))
              && (cmac_of mac (slice permuted start (start + w)) <=? snd bin)).
    + assert (Forall Q (output ++ [slice permuted start (start + w)])) as Hout'
          by (apply Forall_app; split; [exact Hout | constructor; [exact Hq | constructor]]).
      destruct (n_genes <=? len (output ++ [slice permuted start (start + w)])).
      * inv_ret H. exact Hout'.
      * eapply IH; [| exact Hout' | exact H]. lia.
    + eapply IH; [| exact Hout | exact H]. lia.
  - inv_ret H. exact Hout.
Qed.

Lemma null_bin_loop_windows loop_fuel mac bin n_genes (n : nat) wlo whi fuel :
  0 <= wlo ->
  forall output g output' g',
    Forall (window_ok n wlo whi) output ->
    null_bin_loop loop_fuel fuel mac bin n_genes n (seq 0 n) (wlo, whi)
                  output g = Returned (output', g') ->
    Forall (window_ok n wlo whi) output'.
Proof.
  intros Hwlo.
  induction fuel as [| fuel IH]; intros output g output' g' Hout H;
    cbn [null_bin_loop] in H.
  - discriminate.
  - inv_bind H as perm g1 E1. inv_bind H as w g2 E2.
    inv_bind H as out1 g3 E3.
    apply random_permutation_Permutation in E1.
    destruct (permuted_idxs_spec n perm E1) as (Hmap & Hnd & Hlen & Hr).
    rewrite Hmap in E3.
    apply random_randint_range in E2. cbn [fst snd] in E2.
    assert (Forall (window_ok n wlo whi) out1) as Hout1.
    { eapply (scan_windows_windows mac bin n_genes n perm w
                (Z.quot (w * 4) 5 + 1) loop_fuel Hnd Hlen Hr);
        [ lia | | | | exact Hout | exact E3 ].
      - pose proof (Z.quot_pos (w * 4) 5 ltac:(lia) ltac:(lia)). lia.
      - intros s Hs Hn Hf. split; [lia | split; assumption].
      - lia. }
    destruct (n_genes <=? len out1).
    + inv_ret H. exact Hout1.
    + eapply IH; eassumption.
Qed.

Lemma In_enumerate_nth_error {A} (l : list A) : forall s i x,
    In (i, x) (combine (seq s (length l)) l) ->
    (s <= i)%nat /\ nth_error l (i - s) = Some x.
Proof.
  induction l as [| y l IH]; intros s i x H; simpl in H; [contradiction |].
  destruct H as [H | H].
  - inversion H; subst. rewrite Nat.sub_diag. split; [lia | reflexivity].
  - apply IH in H. destruct H as [Hle Hn]. split; [lia |].
    replace (i - s)%nat with (S (i - S s)) by lia. exact Hn.
Qed.

Lemma dict_get_NoDup_Z {V} (d : list (Z * V)) k v :
  NoDup (dict_keys d) -> In (k, v) d -> dict_get Z.eqb d k = Some v.
Proof.
  induction d as [| [c w] d IH]; simpl; intros Hnd Hin; [contradiction |].
  inversion Hnd as [| ? ? Hnotin Hnd']; subst.
  destruct Hin as [Hin | Hin].
  - inversion Hin; subst. rewrite Z.eqb_refl. reflexivity.
  - destruct (Z.eqb_spec k c) as [-> | Hne].
    + exfalso. apply Hnotin. apply (in_map fst) in Hin. exact Hin.
    + apply IH; assumption.
Qed.

(** In a dictionary, the item at position [i] is the one found under its
    key. *)
Lemma dict_item_at (mac_dict : list (Z * list Z)) i chr mac n :
  NoDup (dict_keys mac_dict) ->
  nth_error (dict_keys mac_dict) i = Some chr ->
  dict_get Z.eqb mac_dict chr = Some mac ->
  nth_error (map (fun '(_, mac) => length mac) mac_dict) i = Some n ->
  n = length mac.
Proof.
  intros Hnd Hk Hget Hn. unfold dict_keys in Hk.
  rewrite nth_error_map in Hk, Hn.
  destruct (nth_error mac_dict i) as [[c m] |] eqn:E; [| discriminate].
  simpl in Hk, Hn. inversion Hk; subst c. inversion Hn; subst n.
  apply nth_error_In in E.
  rewrite (dict_get_NoDup_Z mac_dict chr m Hnd E) in Hget.
  inversion Hget. reflexivity.
Qed.

(** Every entry of the mask of the null builder comes from one run of the
    per-bin loop, on the MAC vector and the quota of its chromosome. *)
Lemma creating_mask_null_entries
      (loop_fuel : nat) (genes_quota : list nat -> Z -> list Z)
      (mac_dict : list (Z * list Z)) (cmac_bins_count : Z)
      (P : list Z -> nat -> Z -> cmac_bin -> list (list nat) -> Prop) :
  (forall mac n_variants n_genes bin g output g',
      In bin cmac_bins ->
      null_bin loop_fuel mac n_genes n_variants (seq 0 n_variants) bin g
      = Returned (output, g') ->
      P mac n_variants n_genes bin output) ->
  forall g out g',
    creating_mask_null loop_fuel genes_quota mac_dict cmac_bins_count g
    = Returned (out, g') ->
    forall chr gene_numeric_idxs bin sets,
      In (chr, gene_numeric_idxs) out ->
      In (bin, sets) gene_numeric_idxs ->
      exists i mac n_variants n_genes,
        nth_error (dict_keys mac_dict) i = Some chr /\
        dict_get Z.eqb mac_dict chr = Some mac /\
        nth_error (map (fun '(_, mac) => length mac) mac_dict) i
        = Some n_variants /\
        nth_error (genes_quota (map (fun '(_, mac) => length mac) mac_dict)
                               cmac_bins_count) i = Some n_genes /\
        In bin cmac_bins /\
        P mac n_variants n_genes bin sets.
Proof.
  intros HP g out g'. unfold creating_mask_null.
  apply (for_fold_inv _
    (fun d : chr_bin_dict =>
       forall chr gene_numeric_idxs bin sets,
         In (chr, gene_numeric_idxs) d ->
         In (bin, sets) gene_numeric_idxs ->
         exists i mac n_variants n_genes,
           nth_error (dict_keys mac_dict) i = Some chr /\
           dict_get Z.eqb mac_dict chr = Some mac /\
           nth_error (map (fun '(_, mac) => length mac) mac_dict) i
           = Some n_variants /\
           nth_error (genes_quota (map (fun '(_, mac) => length mac) mac_dict)
                                  cmac_bins_count) i = Some n_genes /\
           In bin cmac_bins /\
           P mac n_variants n_genes bin sets)).
  - intros chr gd bin sets [].
  - intros d [i chr] d' g1 g2 Hi IH H.
    inv_bind H as mac g3 Emac. inv_bind H as n_variants g4 En.
    inv_bind H as n_genes g5 Eg. inv_bind H as gd g6 Egd. inv_ret H.
    apply dict_lookup_Returned in Emac. destruct Emac as [Emac _].
    apply index_Returned in En. destruct En as [En _].
    apply index_Returned in Eg. destruct Eg as [Eg _].
    apply In_enumerate_nth_error in Hi. destruct Hi as [_ Hi].
    rewrite Nat.sub_0_r in Hi.
    intros chr0 gd0 bin sets Hin Hbin.
    apply dict_set_In in Hin. destruct Hin as [Hin | [-> Hk]].
    + eapply IH; eassumption.
    + assert (chr0 = chr) as -> by
          (destruct Hk as [Hk | Hk]; [exact Hk | apply Z.eqb_eq in Hk; symmetry; exact Hk]).
      exists i, mac, n_variants, n_genes.
      repeat (split; [assumption |]).
      revert bin sets Hbin. revert Egd.
      apply (for_fold_inv _
        (fun gd : bin_dict =>
           forall bin sets, In (bin, sets) gd ->
                            In bin cmac_bins /\
                            P mac n_variants n_genes bin sets)).
      * intros bin sets [].
      * intros gd1 b gd2 ga gb Hb IHb Hstep.
        inv_bind Hstep as output gc Eo. inv_ret Hstep.
        intros bin sets Hbin.
        apply dict_set_In in Hbin. destruct Hbin as [Hbin | [-> Hk2]].
        -- eapply IHb; eassumption.
        -- assert (bin = b) as -> by
               (destruct Hk2 as [Hk2 | Hk2]; [exact Hk2 | apply bin_eqb_eq in Hk2; symmetry; exact Hk2]).
           split; [exact Hb | eapply HP; eassumption].
Qed.

(** X6. In null mode, whenever the builder returns on a dictionary of MAC
    vectors, every stored set of a bin [(lo, hi)] is a window of a
    permutation: it has between 2 and [hi] members, no member twice, and
    every member is a position of the chromosome's MAC vector. *)
Theorem creating_mask_null_windows
        (loop_fuel : nat) (genes_quota : list nat -> Z -> list Z)
        (mac_dict : list (Z * list Z)) (cmac_bins_count : Z)
        (g : rng) (out : chr_bin_dict) (g' : rng) :
  NoDup (dict_keys mac_dict) ->
  creating_mask_null loop_fuel genes_quota mac_dict cmac_bins_count g
  = Returned (out, g') ->
  forall chr gene_numeric_idxs lo hi sets selected_variants,
    In (chr, gene_numeric_idxs) out ->
    In ((lo, hi), sets) gene_numeric_idxs ->
    In selected_variants sets ->
    exists mac,
      dict_get Z.eqb mac_dict chr = Some mac /\
      2 <= len selected_variants <= hi /\
      NoDup selected_variants /\
      Forall (fun v => (v < length mac)%nat) selected_variants.
Proof.
  intros Hnd Hrun chr genes lo hi sets s Hc Hb Hs.
  destruct (creating_mask_null_entries loop_fuel genes_quota mac_dict
              cmac_bins_count
              (fun mac n_variants n_genes bin output =>
                 Forall (window_ok n_variants (Z.max 2 (Z.quot (fst bin) 10))
                                   (snd bin + 1)) output))
    with (g := g) (out := out) (g' := g') (chr := chr)
         (gene_numeric_idxs := genes) (bin := (lo, hi)) (sets := sets)
    as (i & mac & n & n_genes & Hk & Hget & Hn & _ & _ & Hall);
    try assumption.
  - intros mac n n_genes bin g0 output g0' _ H. unfold null_bin in H.
    eapply null_bin_loop_windows; [| constructor | exact H]. lia.
  - exists mac. split; [exact Hget |].
    rewrite Forall_forall in Hall. destruct (Hall s Hs) as (Hlen & Hnd' & Hr).
    cbn [fst snd] in Hlen.
    rewrite (dict_item_at mac_dict i chr mac n Hnd Hk Hget Hn) in Hr.
    repeat split; [lia | lia | exact Hnd' | exact Hr].
Qed.

Lemma creating_mask_null_windows_witness :
  exists mac,
    dict_get Z.eqb [(2, [1; 1; 2; 1; 3; 1; 4; 2]); (4, [2; 3; 5; 1; 1; 2])] 2
    = Some mac /\
    2 <= len [7; 3; 6]%nat <= 7 /\
    NoDup [7; 3; 6]%nat /\
    Forall (fun v => (v < length mac)%nat) [7; 3; 6]%nat.
Proof.
  apply (creating_mask_null_windows 40 genes_quota_exact
           [(2, [1; 1; 2; 1; 3; 1; 4; 2]); (4, [2; 3; 5; 1; 1; 2])] 0
           (rng_of null_example_draws) null_example_out
           (mkRng (tape (rng_of null_example_draws)) 196)
           ltac:(simpl; repeat constructor; simpl; intuition discriminate)
           ltac:(vm_compute; reflexivity)
           2 (snd (nth 0 null_example_out (0, []))) 6 7
           [[7; 3; 6]%nat] [7; 3; 6]%nat).
  - left. reflexivity.
  - simpl. do 4 right. left. reflexivity.
  - left. reflexivity.
Defined.

Lemma scan_windows_count mac bin n_genes n_variants permuted w skip fuel :
  forall start output g output' g',
    len output < Z.max n_genes 1 ->
    scan_windows fuel mac bin n_genes n_variants permuted w skip start
                 output g = Returned (output', g') ->
    len output' <= Z.max n_genes 1.
Proof.
  induction fuel as [| fuel IH]; intros start output g output' g' Hlen H;
    simpl in H; destruct (start + w <? n_variants).
  - discriminate.
  - inv_ret H. lia.
  - destruct ((fst bin <=? cmac_of mac (slice permuted start (start + w)))
              && (cmac_of mac (slice permuted start (start + w)) <=? snd bin)).
    + assert (len (output ++ [slice permuted start (start + w)]) = len output + 1)
        as Hl by (unfold len; rewrite length_app; simpl; lia).
      destruct (n_genes <=? len (output ++ [slice permuted start (start + w)]))
               eqn:E.
      * inv_ret H. lia.
      * apply Z.leb_gt in E. eapply IH; [| exact H]. lia.
    + eapply IH; eassumption.
  - inv_ret H. lia.
Qed.

Lemma null_bin_loop_count loop_fuel mac bin n_genes n variant_idxs range fuel :
  forall output g output' g',
    len output < Z.max n_genes 1 ->
    null_bin_loop loop_fuel fuel mac bin n_genes n variant_idxs range
                  output g = Returned (output', g') ->
    n_genes <= len output' <= Z.max n_genes 1.
Proof.
  induction fuel as [| fuel IH]; intros output g output' g' Hlen H;
    cbn [null_bin_loop] in H.
  - discriminate.
  - inv_bind H as perm g1 E1. inv_bind H as w g2 E2.
    inv_bind H as out1 g3 E3.
    apply scan_windows_count in E3; [| exact Hlen].
    destruct (n_genes <=? len out1) eqn:E.
    + inv_ret H. apply Z.leb_le in E. lia.
    + apply Z.leb_gt in E. eapply IH; [| exact H]. lia.
Qed.

(** X7. In null mode, whenever the builder returns, the number of sets
    stored for a chromosome and a bin is the quota of the chromosome when
    that quota is at least 1, and at most one when the quota is 0 or
    less: the scan stops at the set that fills the quota. *)
Theorem creating_mask_null_quota
        (loop_fuel : nat) (genes_quota : list nat -> Z -> list Z)
        (mac_dict : list (Z * list Z)) (cmac_bins_count : Z)
        (g : rng) (out : chr_bin_dict) (g' : rng) :
  creating_mask_null loop_fuel genes_quota mac_dict cmac_bins_count g
  = Returned (out, g') ->
  forall chr gene_numeric_idxs bin sets,
    In (chr, gene_numeric_idxs) out ->
    In (bin, sets) gene_numeric_idxs ->
    exists i n_genes,
      nth_error (dict_keys mac_dict) i = Some chr /\
      nth_error (genes_quota (map (fun '(_, mac) => length mac) mac_dict)
                             cmac_bins_count) i = Some n_genes /\
      n_genes <= len sets <= Z.max n_genes 1.
Proof.
  intros Hrun chr genes bin sets Hc Hb.
  destruct (creating_mask_null_entries loop_fuel genes_quota mac_dict
              cmac_bins_count
              (fun mac n_variants n_genes bin output =>
                 n_genes <= len output <= Z.max n_genes 1))
    with (g := g) (out := out) (g' := g') (chr := chr)
         (gene_numeric_idxs := genes) (bin := bin) (sets := sets)
    as (i & mac & n & n_genes & Hk & _ & _ & Hq & _ & Hcount);
    try assumption.
  - intros mac n n_genes b g0 output g0' _ H. unfold null_bin in H.
    eapply null_bin_loop_count; [| exact H]. unfold len. simpl. lia.
  - exists i, n_genes. repeat split; try assumption; lia.
Qed.

Lemma creating_mask_null_quota_witness :
  exists i n_genes,
    nth_error (dict_keys [(2, [1; 1; 2; 1; 3; 1; 4; 2]); (4, [2; 3; 5; 1; 1; 2])]) i
    = Some 2 /\
    nth_error (genes_quota_exact
                 (map (fun '(_, mac) => length mac)
                      [(2, [1; 1; 2; 1; 3; 1; 4; 2]); (4, [2; 3; 5; 1; 1; 2])])
                 0) i = Some n_genes /\
    n_genes <= len [[7; 3; 6]%nat] <= Z.max n_genes 1.
Proof.
  apply (creating_mask_null_quota 40 genes_quota_exact
           [(2, [1; 1; 2; 1; 3; 1; 4; 2]); (4, [2; 3; 5; 1; 1; 2])] 0
           (rng_of null_example_draws) null_example_out
           (mkRng (tape (rng_of null_example_draws)) 196)
           ltac:(vm_compute; reflexivity)
           2 (snd (nth 0 null_example_out (0, []))) (6, 7) [[7; 3; 6]%nat]).
  - left. reflexivity.
  - simpl. do 4 right. left. reflexivity.
Defined.

Lemma shuffle_returns (i : nat) :
  forall l g, exists l' g', shuffle i l g = Returned (l', g').
Proof.
  induction i as [| i IH]; intros l g; simpl.
  - exists l, g. reflexivity.
  - unfold bind, draw. apply IH.
Qed.

Lemma scan_windows_no_window fuel mac bin n_genes n_variants permuted w skip
      start output g :
  n_variants <= start + w ->
  scan_windows fuel mac bin n_genes n_variants permuted w skip start output g
  = Returned (output, g).
Proof.
  intros H. apply Z.ltb_ge in H. destruct fuel; simpl; rewrite H; reflexivity.
Qed.

(** X8. A chromosome with no more variants than the smallest window of a
    bin can never yield a set for that bin: with a quota of at least 1 the
    per-bin loop of the null builder never ends, whatever the random draws
    and the number of iterations allowed. *)
Theorem null_bin_small_chromosome_diverges
        (loop_fuel : nat) (mac : list Z) (n_genes : Z) (n_variants : nat)
        (variant_idxs : list nat) (bin : cmac_bin) (g : rng) :
  Z.of_nat n_variants <= Z.max 2 (Z.quot (fst bin) 10) ->
  Z.max 2 (Z.quot (fst bin) 10) <= snd bin ->
  1 <= n_genes ->
  null_bin loop_fuel mac n_genes n_variants variant_idxs bin g = Diverged.
Proof.
  intros Hsmall Hrange Hq. unfold null_bin.
  generalize loop_fuel at 2. intros fuel. revert g.
  induction fuel as [| fuel IH]; intros g; cbn [null_bin_loop]; [reflexivity |].
  destruct (shuffle_returns (n_variants - 1) (seq 0 n_variants) g)
    as (perm & g1 & Ep).
  unfold bind at 1. unfold random_permutation. rewrite Ep.
  unfold bind at 1. cbn [fst snd]. unfold random_randint.
  destruct (snd bin + 1 <=? Z.max 2 (Z.quot (fst bin) 10)) eqn:E;
    [apply Z.leb_le in E; lia |].
  unfold bind at 1. unfold draw, ret.
  set (w := Z.max 2 (Z.quot (fst bin) 10)
            + tape g1 (cursor g1) mod (snd bin + 1 - Z.max 2 (Z.quot (fst bin) 10))).
  assert (Z.max 2 (Z.quot (fst bin) 10) <= w) as Hw.
  { pose proof (Z.mod_pos_bound (tape g1 (cursor g1))
                  (snd bin + 1 - Z.max 2 (Z.quot (fst bin) 10)) ltac:(lia)).
    unfold w. lia. }
  unfold bind at 1.
  assert (forall g2, scan_windows loop_fuel mac bin n_genes (Z.of_nat n_variants)
            (map (fun p => nth p variant_idxs 0%nat) perm) w
            (Z.quot (w * 4) 5 + 1) 0 [] g2 = Returned ([], g2)) as Hscan
      by (intros g2; apply scan_windows_no_window; lia).
  rewrite Hscan.
  destruct (n_genes <=? len (@nil (list nat))) eqn:E3;
    [apply Z.leb_le in E3; unfold len in E3; simpl in E3; lia |].
  apply IH.
Qed.

Lemma null_bin_small_chromosome_diverges_witness :
  null_bin 1000 [1; 1] 1 2 [0; 1]%nat (2, 2) (rng_of []) = Diverged.
Proof.
  apply (null_bin_small_chromosome_diverges 1000 [1; 1] 1 2 [0; 1]%nat (2, 2)
                                            (rng_of [])).
  - vm_compute. discriminate.
  - vm_compute. discriminate.
  - lia.
Defined.

(** ** The causal mask builder: parts of a set, quota, requirements *)

Lemma for_fold_steps {A S} (f : S -> A -> M S) (l : list A) :
  forall s g s' g',
    for_fold f l s g = Returned (s', g') ->
    forall x, In x l -> exists s1 g1 s2 g2, f s1 x g1 = Returned (s2, g2).
Proof.
  induction l as [| y l IH]; intros s g s' g' H x Hx; simpl in H;
    [contradiction |].
  inv_bind H as s1 g1 E1. destruct Hx as [-> | Hx].
  - exists s, g, s1, g1. exact E1.
  - eapply IH; eassumption.
Qed.

Lemma build_causal_mac_positions_in_range mac causal_idxs g cmp g' :
  build_causal_mac_positions mac causal_idxs g = Returned (cmp, g') ->
  Forall (fun v => (v < length mac)%nat) causal_idxs.
Proof.
  unfold build_causal_mac_positions. intros H.
  apply Forall_forall. intros idx Hidx.
  destruct (for_fold_steps _ _ _ _ _ _ H idx Hidx) as (d1 & g1 & d2 & g2 & E).
  inv_bind E as x g3 Ex. apply index_Returned in Ex. destruct Ex as [Ex _].
  apply nth_error_Some. rewrite Ex. discriminate.
Qed.

Lemma build_mac_positions_in_range mac :
  mac_map_within (build_mac_positions mac) (seq 0 (length mac)).
Proof.
  unfold build_mac_positions.
  apply (fold_left_inv _ (fun d => mac_map_within d (seq 0 (length mac)))).
  - intros m ps v [].
  - intros d [i x] Hin IH m ps v Hm Hv.
    destruct (dict_append_member _ _ _ _ _ _ Hm Hv) as [(ps0 & H0 & Hv0) | [-> ->]].
    + eapply IH; eassumption.
    + apply In_enumerate_nth_error in Hin. destruct Hin as [_ Hn].
      rewrite Nat.sub_0_r in Hn. apply in_seq. split; [lia |].
      simpl. apply nth_error_Some. rewrite Hn. discriminate.
Qed.

Lemma selected_within (mp : mac_map) (pool : list nat) combo vs :
  mac_map_within mp pool ->
  Forall2 (fun m v => exists ps, In (m, ps) mp /\ In v ps) combo vs ->
  Forall (fun v => In v pool) vs.
Proof.
  intros Hw H. induction H as [| m v combo vs (ps & H1 & H2) _ IH];
    constructor; [eapply Hw; eassumption | exact IH].
Qed.

Section CausalParts.
Variable loop_fuel : nat.
Variable mac : list Z.
Variable causal_idxs : list nat.
Variable causal_mac_positions : mac_map.
Hypothesis causal_ok : mac_map_consistent mac causal_mac_positions.
Hypothesis causal_within : mac_map_within causal_mac_positions causal_idxs.
Hypothesis causal_in_range : Forall (fun v => (v < length mac)%nat) causal_idxs.

Lemma add_non_causal_parts bin n_genes c causal_variants todo :
  forall output g output' g',
    1 <= c < Z.max (Z.quot ((fst bin + snd bin) / 2) 2) 2 ->
    Forall (fun v => In v causal_idxs) causal_variants ->
    cmac_of mac causal_variants = c ->
    Forall (causal_parts_ok mac causal_idxs bin) output ->
    add_non_causal loop_fuel todo (build_mac_positions mac) bin n_genes c
                   causal_variants output g = Returned (output', g') ->
    Forall (causal_parts_ok mac causal_idxs bin) output'.
Proof.
  induction todo as [| todo IH]; intros output g output' g' Hc Hin Hcv Hout H;
    simpl in H.
  - inv_ret H. exact Hout.
  - inv_bind H as n g1 E1. inv_bind H as nc g2 E2.
    apply random_randint_range in E1.
    assert (0 <= n) as Hn by lia.
    destruct (select_variants_for_cmac_shape _ _ _ _ _ _ Hn E2)
      as (combo & Hsum & _ & Hall).
    pose proof (cmac_of_combo _ _ _ _ (build_mac_positions_consistent mac) Hall)
      as Hnc.
    pose proof (selected_within _ _ _ _ (build_mac_positions_in_range mac) Hall)
      as Hr.
    assert (Forall (causal_parts_ok mac causal_idxs bin)
                   (output ++ [nc ++ causal_variants])) as Hout'.
    { apply Forall_app. split; [exact Hout |]. constructor; [| constructor].
      exists nc, causal_variants. rewrite Hcv.
      split; [reflexivity |]. split; [exact Hc |]. split; [lia |].
      split; [exact Hin |].
      apply Forall_app. split.
      - apply Forall_forall. intros v Hv. rewrite Forall_forall in Hr.
        specialize (Hr v Hv). apply in_seq in Hr. lia.
      - apply Forall_forall. intros v Hv.
        rewrite Forall_forall in Hin, causal_in_range.
        apply causal_in_range. apply Hin. exact Hv. }
    destruct (n_genes <=? len (output ++ [nc ++ causal_variants])).
    + inv_ret H. exact Hout'.
    + eapply IH; [exact Hc | exact Hin | exact Hcv | exact Hout' | exact H].
Qed.

Lemma causal_bin_loop_parts bin n_genes fuel :
  forall output g output' g',
    Forall (causal_parts_ok mac causal_idxs bin) output ->
    causal_bin_loop loop_fuel fuel (build_mac_positions mac)
                    causal_mac_positions bin n_genes output g
    = Returned (output', g') ->
    Forall (causal_parts_ok mac causal_idxs bin) output'.
Proof.
  induction fuel as [| fuel IH]; intros output g output' g' Hout H;
    cbn [causal_bin_loop] in H.
  - discriminate.
  - inv_bind H as c g1 E1. inv_bind H as cv g2 E2. inv_bind H as out1 g3 E3.
    apply random_randint_range in E1.
    assert (0 <= c) as Hc by lia.
    destruct (select_variants_for_cmac_shape _ _ _ _ _ _ Hc E2)
      as (combo & Hsum & _ & Hall).
    assert (Forall (causal_parts_ok mac causal_idxs bin) out1) as Hout1.
    { eapply add_non_causal_parts; [exact E1 | | | exact Hout | exact E3].
      - eapply selected_within; eassumption.
      - rewrite (cmac_of_combo _ _ _ _ causal_ok Hall). exact Hsum. }
    destruct (n_genes <=? len out1).
    + inv_ret H. exact Hout1.
    + eapply IH; eassumption.
Qed.

End CausalParts.

Lemma add_non_causal_count loop_fuel mp bin n_genes c cv todo :
  forall output g output' g',
    len output < Z.max n_genes 1 ->
    add_non_causal loop_fuel todo mp bin n_genes c cv output g
    = Returned (output', g') ->
    len output' <= Z.max n_genes 1.
Proof.
  induction todo as [| todo IH]; intros output g output' g' Hlen H; simpl in H.
  - inv_ret H. lia.
  - inv_bind H as n g1 E1. inv_bind H as nc g2 E2.
    assert (len (output ++ [nc ++ cv]) = len output + 1) as Hl
        by (unfold len; rewrite length_app; simpl; lia).
    destruct (n_genes <=? len (output ++ [nc ++ cv])) eqn:E.
    + inv_ret H. rewrite Hl. lia.
    + apply Z.leb_gt in E. rewrite Hl in E.
      apply IH in H; [exact H | rewrite Hl; lia].
Qed.

Lemma add_non_causal_grows loop_fuel mp bin n_genes c cv todo :
  forall output g output' g',
    add_non_causal loop_fuel (S todo) mp bin n_genes c cv output g
    = Returned (output', g') ->
    len output < len output'.
Proof.
  induction todo as [| todo IH]; intros output g output' g' H;
    cbn [add_non_causal] in H;
    inv_bind H as n g1 E1; inv_bind H as nc g2 E2;
    assert (len (output ++ [nc ++ cv]) = len output + 1) as Hl
        by (unfold len; rewrite length_app; simpl; lia);
    destruct (n_genes <=? len (output ++ [nc ++ cv])).
  - inv_ret H. rewrite Hl. lia.
  - inv_ret H. rewrite Hl. lia.
  - inv_ret H. rewrite Hl. lia.
  - apply IH in H. rewrite Hl in H. lia.
Qed.

Lemma causal_bin_loop_count loop_fuel mp cmp bin n_genes fuel :
  forall output g output' g',
    len output < Z.max n_genes 1 ->
    causal_bin_loop loop_fuel fuel mp cmp bin n_genes output g
    = Returned (output', g') ->
    len output' = Z.max n_genes 1.
Proof.
  induction fuel as [| fuel IH]; intros output g output' g' Hlen H;
    cbn [causal_bin_loop] in H.
  - discriminate.
  - inv_bind H as c g1 E1. inv_bind H as cv g2 E2. inv_bind H as out1 g3 E3.
    pose proof (add_non_causal_grows _ _ _ _ _ _ _ _ _ _ _ E3) as Hgrow.
    apply add_non_causal_count in E3; [| exact Hlen].
    assert (0 <= len output) by (unfold len; lia).
    destruct (n_genes <=? len out1) eqn:E.
    + inv_ret H. apply Z.leb_le in E. lia.
    + apply Z.leb_gt in E. eapply IH; [| exact H]. lia.
Qed.

(** Every entry of the mask of the causal builder comes from one run of
    the per-bin loop, on the maps and the quota of its chromosome. *)
Lemma creating_mask_causal_entries
      (loop_fuel : nat) (genes_quota : list nat -> Z -> list Z)
      (mac_dict : list (Z * list Z)) (causal_idx_dict : list (Z * list nat))
      (cmac_bins_count : Z)
      (P : list Z -> list nat -> Z -> cmac_bin -> list (list nat) -> Prop) :
  (forall mac causal_idxs cmp n_genes bin g output g',
      In bin cmac_bins ->
      mac_map_consistent mac cmp ->
      mac_map_within cmp causal_idxs ->
      Forall (fun v => (v < length mac)%nat) causal_idxs ->
      causal_bin loop_fuel (build_mac_positions mac) cmp n_genes bin g
      = Returned (output, g') ->
      P mac causal_idxs n_genes bin output) ->
  forall g out g',
    creating_mask_causal loop_fuel genes_quota mac_dict causal_idx_dict
                         cmac_bins_count g = Returned (out, g') ->
    forall chr gene_numeric_idxs bin sets,
      In (chr, gene_numeric_idxs) out ->
      In (bin, sets) gene_numeric_idxs ->
      exists i mac causal_idxs n_genes,
        nth_error (dict_keys mac_dict) i = Some chr /\
        dict_get Z.eqb mac_dict chr = Some mac /\
        dict_get Z.eqb causal_idx_dict chr = Some causal_idxs /\
        nth_error (genes_quota (map (fun '(_, mac) => length mac) mac_dict)
                               cmac_bins_count) i = Some n_genes /\
        In bin cmac_bins /\
        P mac causal_idxs n_genes bin sets.
Proof.
  intros HP g out g'. unfold creating_mask_causal.
  apply (for_fold_inv _
    (fun d : chr_bin_dict =>
       forall chr gene_numeric_idxs bin sets,
         In (chr, gene_numeric_idxs) d ->
         In (bin, sets) gene_numeric_idxs ->
         exists i mac causal_idxs n_genes,
           nth_error (dict_keys mac_dict) i = Some chr /\
           dict_get Z.eqb mac_dict chr = Some mac /\
           dict_get Z.eqb causal_idx_dict chr = Some causal_idxs /\
           nth_error (genes_quota (map (fun '(_, mac) => length mac) mac_dict)
                                  cmac_bins_count) i = Some n_genes /\
           In bin cmac_bins /\
           P mac causal_idxs n_genes bin sets)).
  - intros chr gd bin sets [].
  - intros d [i chr] d' g1 g2 Hi IH H.
    inv_bind H as mac g3 Emac. inv_bind H as n_variants g4 En.
    inv_bind H as n_genes g5 Eg. inv_bind H as causal_idxs g6 Ec.
    inv_bind H as cmp g7 Ecmp. inv_bind H as gd g8 Egd. inv_ret H.
    apply dict_lookup_Returned in Emac. destruct Emac as [Emac _].
    apply dict_lookup_Returned in Ec. destruct Ec as [Ec _].
    apply index_Returned in Eg. destruct Eg as [Eg _].
    pose proof (build_causal_mac_positions_in_range _ _ _ _ _ Ecmp) as Hr.
    apply build_causal_mac_positions_spec in Ecmp. destruct Ecmp as [Hc Hw].
    apply In_enumerate_nth_error in Hi. destruct Hi as [_ Hi].
    rewrite Nat.sub_0_r in Hi.
    intros chr0 gd0 bin sets Hin Hbin.
    apply dict_set_In in Hin. destruct Hin as [Hin | [-> Hk]].
    + eapply IH; eassumption.
    + assert (chr0 = chr) as -> by
          (destruct Hk as [Hk | Hk]; [exact Hk | apply Z.eqb_eq in Hk; symmetry; exact Hk]).
      exists i, mac, causal_idxs, n_genes.
      repeat (split; [assumption |]).
      revert bin sets Hbin. revert Egd.
      apply (for_fold_inv _
        (fun gd : bin_dict =>
           forall bin sets, In (bin, sets) gd ->
                            In bin cmac_bins /\
                            P mac causal_idxs n_genes bin sets)).
      * intros bin sets [].
      * intros gd1 b gd2 ga gb Hb IHb Hstep.
        inv_bind Hstep as output gc Eo. inv_ret Hstep.
        intros bin sets Hbin.
        apply dict_set_In in Hbin. destruct Hbin as [Hbin | [-> Hk2]].
        -- eapply IHb; eassumption.
        -- assert (bin = b) as -> by
               (destruct Hk2 as [Hk2 | Hk2]; [exact Hk2 | apply bin_eqb_eq in Hk2; symmetry; exact Hk2]).
           split; [exact Hb | eapply HP; eassumption].
Qed.

(** X9. In causal mode, whenever the builder returns, every stored set of
    a bin is filler followed by a causal part such that: the causal part
    is drawn from the chromosome's causal indices and its cMAC is at least
    1 and below [max(int(((lo + hi) // 2) * 0.5), 2)]; the filler has a
    cMAC of at least 1; and every member is a position of the chromosome's
    MAC vector. *)
Theorem creating_mask_causal_parts
        (loop_fuel : nat) (genes_quota : list nat -> Z -> list Z)
        (mac_dict : list (Z * list Z)) (causal_idx_dict : list (Z * list nat))
        (cmac_bins_count : Z) (g : rng) (out : chr_bin_dict) (g' : rng) :
  creating_mask_causal loop_fuel genes_quota mac_dict causal_idx_dict
                       cmac_bins_count g = Returned (out, g') ->
  forall chr gene_numeric_idxs bin sets selected_variants,
    In (chr, gene_numeric_idxs) out ->
    In (bin, sets) gene_numeric_idxs ->
    In selected_variants sets ->
    exists mac causal_idxs,
      dict_get Z.eqb mac_dict chr = Some mac /\
      dict_get Z.eqb causal_idx_dict chr = Some causal_idxs /\
      causal_parts_ok mac causal_idxs bin selected_variants.
Proof.
  intros Hrun chr genes bin sets s Hc Hb Hs.
  destruct (creating_mask_causal_entries loop_fuel genes_quota mac_dict
              causal_idx_dict cmac_bins_count
              (fun mac causal_idxs n_genes bin output =>
                 Forall (causal_parts_ok mac causal_idxs bin) output))
    with (g := g) (out := out) (g' := g') (chr := chr)
         (gene_numeric_idxs := genes) (bin := bin) (sets := sets)
    as (i & mac & causal_idxs & n_genes & _ & Hget & Hgetc & _ & _ & Hall);
    try assumption.
  - intros mac causal_idxs cmp n_genes b g0 output g0' _ Hcons Hw Hr H.
    unfold causal_bin in H.
    eapply causal_bin_loop_parts; [exact Hcons | exact Hw | exact Hr | constructor | exact H].
  - exists mac, causal_idxs. split; [exact Hget | split; [exact Hgetc |]].
    rewrite Forall_forall in Hall. apply Hall. exact Hs.
Qed.

Lemma creating_mask_causal_parts_witness :
  exists mac causal_idxs,
    dict_get Z.eqb [(1, [400; 50; 20; 5; 1; 1])] 1 = Some mac /\
    dict_get Z.eqb [(1, [4%nat])] 1 = Some causal_idxs /\
    causal_parts_ok mac causal_idxs (12, 14) [3; 3; 4; 4]%nat.
Proof.
  apply (creating_mask_causal_parts 40 genes_quota_exact
           [(1, [400; 50; 20; 5; 1; 1])] [(1, [4%nat])] 1 (rng_of [])
           causal_example_out (mkRng (tape (rng_of [])) 190)
           ltac:(vm_compute; reflexivity)
           1 (snd (nth 0 causal_example_out (0, []))) (12, 14)
           [[3; 3; 4; 4]%nat] [3; 3; 4; 4]%nat).
  - left. reflexivity.
  - simpl. do 7 right. left. reflexivity.
  - left. reflexivity.
Defined.

(** X10. In causal mode, whenever the builder returns, the number of sets
    stored for a chromosome and a bin is exactly the quota of the
    chromosome, or exactly one when that quota is 0 or less: a set is
    stored before the quota is first looked at. *)
Theorem creating_mask_causal_quota
        (loop_fuel : nat) (genes_quota : list nat -> Z -> list Z)
        (mac_dict : list (Z * list Z)) (causal_idx_dict : list (Z * list nat))
        (cmac_bins_count : Z) (g : rng) (out : chr_bin_dict) (g' : rng) :
  creating_mask_causal loop_fuel genes_quota mac_dict causal_idx_dict
                       cmac_bins_count g = Returned (out, g') ->
  forall chr gene_numeric_idxs bin sets,
    In (chr, gene_numeric_idxs) out ->
    In (bin, sets) gene_numeric_idxs ->
    exists i n_genes,
      nth_error (dict_keys mac_dict) i = Some chr /\
      nth_error (genes_quota (map (fun '(_, mac) => length mac) mac_dict)
                             cmac_bins_count) i = Some n_genes /\
      len sets = Z.max n_genes 1.
Proof.
  intros Hrun chr genes bin sets Hc Hb.
  destruct (creating_mask_causal_entries loop_fuel genes_quota mac_dict
              causal_idx_dict cmac_bins_count
              (fun mac causal_idxs n_genes bin output =>
                 len output = Z.max n_genes 1))
    with (g := g) (out := out) (g' := g') (chr := chr)
         (gene_numeric_idxs := genes) (bin := bin) (sets := sets)
    as (i & mac & causal_idxs & n_genes & Hk & _ & _ & Hq & _ & Hcount);
    try assumption.
  - intros mac causal_idxs cmp n_genes b g0 output g0' _ _ _ _ H.
    unfold causal_bin in H.
    eapply causal_bin_loop_count; [| exact H]. unfold len. simpl. lia.
  - exists i, n_genes. repeat split; assumption.
Qed.

Lemma creating_mask_causal_quota_witness :
  exists i n_genes,
    nth_error (dict_keys [(1, [400; 50; 20; 5; 1; 1])]) i = Some 1 /\
    nth_error (genes_quota_exact
                 (map (fun '(_, mac) => length mac)
                      [(1, [400; 50; 20; 5; 1; 1])]) 1) i = Some n_genes /\
    len [[3; 3; 4; 4]%nat] = Z.max n_genes 1.
Proof.
  apply (creating_mask_causal_quota 40 genes_quota_exact
           [(1, [400; 50; 20; 5; 1; 1])] [(1, [4%nat])] 1 (rng_of [])
           causal_example_out (mkRng (tape (rng_of [])) 190)
           ltac:(vm_compute; reflexivity)
           1 (snd (nth 0 causal_example_out (0, []))) (12, 14)
           [[3; 3; 4; 4]%nat]).
  - left. reflexivity.
  - simpl. do 7 right. left. reflexivity.
Defined.

Lemma causal_bin_loop_first loop_fuel mp cmp bin n_genes fuel output g output' g' :
  causal_bin_loop loop_fuel fuel mp cmp bin n_genes output g
  = Returned (output', g') ->
  exists c cv g1 g2,
    1 <= c < Z.max (Z.quot ((fst bin + snd bin) / 2) 2) 2 /\
    select_variants_for_cmac loop_fuel cmp c g1 = Returned (cv, g2).
Proof.
  destruct fuel as [| fuel]; cbn [causal_bin_loop]; intros H; [discriminate |].
  inv_bind H as c g1 E1. inv_bind H as cv g2 E2.
  apply random_randint_range in E1.
  exists c, cv, g1, g2. split; assumption.
Qed.

Lemma Forall2_In_left {A B} (R : A -> B -> Prop) l l' x :
  Forall2 R l l' -> In x l -> exists y, In y l' /\ R x y.
Proof.
  induction 1 as [| a b l l' Hab _ IH]; intros Hx; [contradiction |].
  destruct Hx as [-> | Hx].
  - exists b. split; [left; reflexivity | exact Hab].
  - destruct (IH Hx) as (y & Hy & Hr). exists y. split; [right; exact Hy | exact Hr].
Qed.

Lemma sum_one_has_one (l : list Z) :
  Forall (fun m => 0 <= m) l -> sumZ l = 1 -> In 1 l.
Proof.
  unfold sumZ. induction 1 as [| m l Hm Hl IH]; simpl; intros Hs; [lia |].
  assert (0 <= fold_right Z.add 0 l) as Hnn
      by (clear - Hl; induction Hl; simpl; lia).
  destruct (Z.eq_dec m 1) as [-> | Hne]; [left; reflexivity |].
  right. apply IH. lia.
Qed.

Lemma mac_at_nonneg (mac : list Z) v :
  Forall (fun x => 0 <= x) mac -> 0 <= mac_at mac v.
Proof.
  intros H. unfold mac_at. destruct (Nat.lt_ge_cases v (length mac)) as [Hv | Hv].
  - rewrite Forall_forall in H. apply H. apply nth_In. exact Hv.
  - rewrite nth_overflow by exact Hv. lia.
Qed.

(** X11. The causal builder can return only if every chromosome of the
    MAC dictionary has an entry in the causal-index dictionary, that entry
    is not empty and holds valid positions only, and (MACs being counts)
    one of the causal variants has a MAC of exactly 1: the bin (2, 2)
    always asks the selector for a causal contribution of 1. *)
Theorem creating_mask_causal_requires
        (loop_fuel : nat) (genes_quota : list nat -> Z -> list Z)
        (mac_dict : list (Z * list Z)) (causal_idx_dict : list (Z * list nat))
        (cmac_bins_count : Z) (g : rng) (out : chr_bin_dict) (g' : rng) :
  creating_mask_causal loop_fuel genes_quota mac_dict causal_idx_dict
                       cmac_bins_count g = Returned (out, g') ->
  forall chr,
    In chr (dict_keys mac_dict) ->
    exists mac causal_idxs,
      dict_get Z.eqb mac_dict chr = Some mac /\
      dict_get Z.eqb causal_idx_dict chr = Some causal_idxs /\
      Forall (fun v => (v < length mac)%nat) causal_idxs /\
      causal_idxs <> [] /\
      (Forall (fun x => 0 <= x) mac ->
       exists v, In v causal_idxs /\ mac_at mac v = 1).
Proof.
  unfold creating_mask_causal. intros Hrun chr Hchr.
  destruct (In_nth _ _ 0 Hchr) as (i & Hi & Hnth).
  pose proof (enumerate_In (dict_keys mac_dict) 0 0%nat i Hi) as Hen.
  simpl in Hen. rewrite Hnth in Hen.
  destruct (for_fold_steps _ _ _ _ _ _ Hrun (i, chr) Hen)
    as (d1 & g1 & d2 & g2 & H).
  inv_bind H as mac g3 Emac. inv_bind H as n_variants g4 En.
  inv_bind H as n_genes g5 Eg. inv_bind H as causal_idxs g6 Ec.
  inv_bind H as cmp g7 Ecmp. inv_bind H as gd g8 Egd.
  apply dict_lookup_Returned in Emac. destruct Emac as [Emac _].
  apply dict_lookup_Returned in Ec. destruct Ec as [Ec _].
  pose proof (build_causal_mac_positions_in_range _ _ _ _ _ Ecmp) as Hr.
  apply build_causal_mac_positions_spec in Ecmp. destruct Ecmp as [Hcons Hw].
  exists mac, causal_idxs.
  split; [exact Emac | split; [exact Ec | split; [exact Hr |]]].
  destruct (for_fold_steps _ _ _ _ _ _ Egd (2, 2) ltac:(left; reflexivity))
    as (gd1 & ga & gd2 & gb & Hstep).
  inv_bind Hstep as output gc Eo. unfold causal_bin in Eo.
  apply causal_bin_loop_first in Eo.
  destruct Eo as (c & cv & gs & gs' & Hc & Hsel).
  assert (c = 1) as -> by (cbn in Hc; lia).
  destruct (select_variants_for_cmac_shape _ _ 1 _ _ _ ltac:(lia) Hsel)
    as (combo & Hsum & Hne & Hall).
  split.
  - intros ->. destruct combo as [| m combo]; [apply Hne; [lia | reflexivity] |].
    inversion Hall as [| ? v ? ? (ps & H1 & H2) ? ]; subst.
    exact (Hw m ps v H1 H2).
  - intros Hnn.
    assert (Forall (fun m => 0 <= m) combo) as Hcnn.
    { apply Forall_forall. intros m Hm.
      destruct (Forall2_In_left _ _ _ _ Hall Hm) as (v & _ & ps & H1 & H2).
      rewrite <- (Hcons m ps v H1 H2). apply mac_at_nonneg. exact Hnn. }
    pose proof (sum_one_has_one combo Hcnn Hsum) as H1in.
    destruct (Forall2_In_left _ _ _ _ Hall H1in) as (v & _ & ps & H1 & H2).
    exists v. split; [exact (Hw 1 ps v H1 H2) | exact (Hcons 1 ps v H1 H2)].
Qed.

Lemma creating_mask_causal_requires_witness :
  exists mac causal_idxs,
    dict_get Z.eqb [(1, [400; 50; 20; 5; 1; 1])] 1 = Some mac /\
    dict_get Z.eqb [(1, [4%nat])] 1 = Some causal_idxs /\
    Forall (fun v => (v < length mac)%nat) causal_idxs /\
    causal_idxs <> [] /\
    (Forall (fun x => 0 <= x) mac ->
     exists v, In v causal_idxs /\ mac_at mac v = 1).
Proof.
  apply (creating_mask_causal_requires 40 genes_quota_exact
           [(1, [400; 50; 20; 5; 1; 1])] [(1, [4%nat])] 1 (rng_of [])
           causal_example_out (mkRng (tape (rng_of [])) 190)
           ltac:(vm_compute; reflexivity) 1).
  simpl. left. reflexivity.
Defined.

(** ** The shape of a mask, and the aggregator on it *)

Lemma dict_set_keys_new {K V} (eqb : K -> K -> bool) (d : list (K * V)) k v :
  (forall a b, eqb a b = true -> a = b) ->
  ~ In k (dict_keys d) ->
  dict_keys (dict_set eqb d k v) = dict_keys d ++ [k].
Proof.
  intros Hsound. induction d as [| [c w] d IH]; simpl; intros Hnotin.
  - reflexivity.
  - destruct (eqb k c) eqn:E.
    + exfalso. apply Hnotin. left. symmetry. apply Hsound. exact E.
    + simpl. f_equal. apply IH. intros Hin. apply Hnotin. right. exact Hin.
Qed.

Lemma for_fold_dict_set_keys {A K V} (eqb : K -> K -> bool) (key : A -> K)
      (f : list (K * V) -> A -> M (list (K * V))) :
  (forall a b, eqb a b = true -> a = b) ->
  (forall d x g d' g', f d x g = Returned (d', g') ->
                       exists v, d' = dict_set eqb d (key x) v) ->
  forall l d0 g d g',
    NoDup (map key l) ->
    (forall x, In x l -> ~ In (key x) (dict_keys d0)) ->
    for_fold f l d0 g = Returned (d, g') ->
    dict_keys d = dict_keys d0 ++ map key l.
Proof.
  intros Hsound Hstep. induction l as [| x l IH]; intros d0 g d g' Hnd Hfresh H;
    simpl in H.
  - inv_ret H. simpl. rewrite app_nil_r. reflexivity.
  - inv_bind H as d1 g1 E1. destruct (Hstep _ _ _ _ _ E1) as (v & ->).
    inversion Hnd as [| ? ? Hx Hnd']; subst.
    apply IH in H; [| exact Hnd' |].
    + rewrite H. rewrite dict_set_keys_new;
        [| exact Hsound | apply Hfresh; left; reflexivity].
      simpl. rewrite <- app_assoc. reflexivity.
    + intros y Hy. rewrite dict_set_keys_new;
        [| exact Hsound | apply Hfresh; left; reflexivity].
      intros Hin. apply in_app_or in Hin. destruct Hin as [Hin | [Hin | []]].
      * apply (Hfresh y (or_intror Hy)). exact Hin.
      * apply Hx. rewrite Hin. apply in_map. exact Hy.
Qed.

Lemma map_snd_enumerate {A} (l : list A) : forall s,
    map snd (combine (seq s (length l)) l) = l.
Proof.
  induction l as [| x l IH]; intros s; simpl; [reflexivity |].
  rewrite IH. reflexivity.
Qed.

Lemma cmac_bins_NoDup : NoDup cmac_bins.
Proof.
  unfold cmac_bins.
  repeat (constructor;
          [simpl; intros H; repeat (destruct H as [H | H]; [discriminate H |]); exact H |]).
  constructor.
Qed.

Lemma Zeqb_sound (a b : Z) : (a =? b) = true -> a = b.
Proof. apply Z.eqb_eq. Qed.

(** X12. Whenever the null builder returns on a dictionary of MAC vectors,
    the mask has the chromosomes of that dictionary as its keys, in the
    same order, and the entry of every chromosome has the fourteen bins as
    its keys, in their fixed order. *)
Theorem creating_mask_null_keys
        (loop_fuel : nat) (genes_quota : list nat -> Z -> list Z)
        (mac_dict : list (Z * list Z)) (cmac_bins_count : Z)
        (g : rng) (out : chr_bin_dict) (g' : rng) :
  NoDup (dict_keys mac_dict) ->
  creating_mask_null loop_fuel genes_quota mac_dict cmac_bins_count g
  = Returned (out, g') ->
  dict_keys out = dict_keys mac_dict /\
  forall chr gene_numeric_idxs,
    In (chr, gene_numeric_idxs) out -> dict_keys gene_numeric_idxs = cmac_bins.
Proof.
  intros Hnd Hrun. unfold creating_mask_null in Hrun. split.
  - apply (for_fold_dict_set_keys Z.eqb snd) in Hrun.
    + rewrite Hrun. simpl. apply map_snd_enumerate.
    + exact Zeqb_sound.
    + intros d [i chr] g1 d' g2 H.
      inv_bind H as mac g3 Emac. inv_bind H as n_variants g4 En.
      inv_bind H as n_genes g5 Eg. inv_bind H as gd g6 Egd. inv_ret H.
      eexists. reflexivity.
    + rewrite map_snd_enumerate. exact Hnd.
    + intros x _ [].
  - revert Hrun.
    apply (for_fold_inv _
      (fun d : chr_bin_dict =>
         forall chr genes, In (chr, genes) d -> dict_keys genes = cmac_bins)).
    + intros chr genes [].
    + intros d [i chr] d' g1 g2 _ IH H.
      inv_bind H as mac g3 Emac. inv_bind H as n_variants g4 En.
      inv_bind H as n_genes g5 Eg. inv_bind H as gd g6 Egd. inv_ret H.
      intros chr0 genes Hin. apply dict_set_In in Hin.
      destruct Hin as [Hin | [-> _]]; [eapply IH; exact Hin |].
      apply (for_fold_dict_set_keys bin_eqb (fun b => b)) in Egd.
      * rewrite Egd. reflexivity.
      * exact bin_eqb_eq.
      * intros gd0 b ga gd' gb Hb. inv_bind Hb as output gc Eo. inv_ret Hb.
        eexists. reflexivity.
      * rewrite map_id. exact cmac_bins_NoDup.
      * intros x _ [].
Qed.

Lemma creating_mask_null_keys_witness :
  dict_keys null_example_out
  = dict_keys [(2, [1; 1; 2; 1; 3; 1; 4; 2]); (4, [2; 3; 5; 1; 1; 2])] /\
  forall chr gene_numeric_idxs,
    In (chr, gene_numeric_idxs) null_example_out ->
    dict_keys gene_numeric_idxs = cmac_bins.
Proof.
  apply (creating_mask_null_keys 40 genes_quota_exact
           [(2, [1; 1; 2; 1; 3; 1; 4; 2]); (4, [2; 3; 5; 1; 1; 2])] 0
           (rng_of null_example_draws) null_example_out
           (mkRng (tape (rng_of null_example_draws)) 196)).
  - simpl. repeat constructor; simpl; intuition discriminate.
  - vm_compute. reflexivity.
Defined.

(** X13. Whenever the causal builder returns on a dictionary of MAC
    vectors, the mask has the chromosomes of that dictionary as its keys,
    in the same order, and the entry of every chromosome has the fourteen
    bins as its keys, in their fixed order. *)
Theorem creating_mask_causal_keys
        (loop_fuel : nat) (genes_quota : list nat -> Z -> list Z)
        (mac_dict : list (Z * list Z)) (causal_idx_dict : list (Z * list nat))
        (cmac_bins_count : Z) (g : rng) (out : chr_bin_dict) (g' : rng) :
  NoDup (dict_keys mac_dict) ->
  creating_mask_causal loop_fuel genes_quota mac_dict causal_idx_dict
                       cmac_bins_count g = Returned (out, g') ->
  dict_keys out = dict_keys mac_dict /\
  forall chr gene_numeric_idxs,
    In (chr, gene_numeric_idxs) out -> dict_keys gene_numeric_idxs = cmac_bins.
Proof.
  intros Hnd Hrun. unfold creating_mask_causal in Hrun. split.
  - apply (for_fold_dict_set_keys Z.eqb snd) in Hrun.
    + rewrite Hrun. simpl. apply map_snd_enumerate.
    + exact Zeqb_sound.
    + intros d [i chr] g1 d' g2 H.
      inv_bind H as mac g3 Emac. inv_bind H as n_variants g4 En.
      inv_bind H as n_genes g5 Eg. inv_bind H as causal_idxs g6 Ec.
      inv_bind H as cmp g7 Ecmp. inv_bind H as gd g8 Egd. inv_ret H.
      eexists. reflexivity.
    + rewrite map_snd_enumerate. exact Hnd.
    + intros x _ [].
  - revert Hrun.
    apply (for_fold_inv _
      (fun d : chr_bin_dict =>
         forall chr genes, In (chr, genes) d -> dict_keys genes = cmac_bins)).
    + intros chr genes [].
    + intros d [i chr] d' g1 g2 _ IH H.
      inv_bind H as mac g3 Emac. inv_bind H as n_variants g4 En.
      inv_bind H as n_genes g5 Eg. inv_bind H as causal_idxs g6 Ec.
      inv_bind H as cmp g7 Ecmp. inv_bind H as gd g8 Egd. inv_ret H.
      intros chr0 genes Hin. apply dict_set_In in Hin.
      destruct Hin as [Hin | [-> _]]; [eapply IH; exact Hin |].
      apply (for_fold_dict_set_keys bin_eqb (fun b => b)) in Egd.
      * rewrite Egd. reflexivity.
      * exact bin_eqb_eq.
      * intros gd0 b ga gd' gb Hb. inv_bind Hb as output gc Eo. inv_ret Hb.
        eexists. reflexivity.
      * rewrite map_id. exact cmac_bins_NoDup.
      * intros x _ [].
Qed.

Lemma creating_mask_causal_keys_witness :
  dict_keys causal_example_out = dict_keys [(1, [400; 50; 20; 5; 1; 1])] /\
  forall chr gene_numeric_idxs,
    In (chr, gene_numeric_idxs) causal_example_out ->
    dict_keys gene_numeric_idxs = cmac_bins.
Proof.
  apply (creating_mask_causal_keys 40 genes_quota_exact
           [(1, [400; 50; 20; 5; 1; 1])] [(1, [4%nat])] 1 (rng_of [])
           causal_example_out (mkRng (tape (rng_of [])) 190)).
  - simpl. repeat constructor; simpl; intuition discriminate.
  - vm_compute. reflexivity.
Defined.

(** X14. The aggregator accepts every mask a builder returns: on the mask
    of the null builder or of the causal builder, [run] returns a row, the
    lookup of line 204 never raising [KeyError], because the bins of the
    builders are the bins of the aggregator. *)
Theorem run_returns_on_masks
        (loop_fuel : nat) (genes_quota : list nat -> Z -> list Z)
        (mac_dict : list (Z * list Z)) (causal_idx_dict : list (Z * list nat))
        (cmac_bins_count : Z) (g : rng) (out : chr_bin_dict) (g' : rng)
        (sig_thresh : Q) (n_voxels : Z)
        (test_pvalues : Z -> cmac_bin -> nat -> list nat -> list pvalue)
        (sample_id : Z) (g2 : rng) :
  creating_mask_null loop_fuel genes_quota mac_dict cmac_bins_count g
  = Returned (out, g') \/
  creating_mask_causal loop_fuel genes_quota mac_dict causal_idx_dict
                       cmac_bins_count g = Returned (out, g') ->
  exists row,
    run sig_thresh n_voxels test_pvalues out sample_id g2 = Returned (row, g2).
Proof.
  intros Hrun. apply run_returns. intros chr genes bin sets Hc Hb.
  change all_bins with cmac_bins.
  destruct Hrun as [Hrun | Hrun].
  - destruct (creating_mask_null_entries loop_fuel genes_quota mac_dict
                cmac_bins_count (fun _ _ _ _ _ => True)
                ltac:(intros; exact I) g out g' Hrun chr genes bin sets Hc Hb)
      as (_ & _ & _ & _ & _ & _ & _ & _ & Hin & _).
    exact Hin.
  - destruct (creating_mask_causal_entries loop_fuel genes_quota mac_dict
                causal_idx_dict cmac_bins_count (fun _ _ _ _ _ => True)
                ltac:(intros; exact I) g out g' Hrun chr genes bin sets Hc Hb)
      as (_ & _ & _ & _ & _ & _ & _ & _ & Hin & _).
    exact Hin.
Qed.

Lemma run_returns_on_masks_witness :
  exists row,
    run example_thresh 3 example_pvalues causal_example_out 0 (rng_of [])
    = Returned (row, rng_of []).
Proof.
  apply (run_returns_on_masks 40 genes_quota_exact
           [(1, [400; 50; 20; 5; 1; 1])] [(1, [4%nat])] 1 (rng_of [])
           causal_example_out (mkRng (tape (rng_of [])) 190)
           example_thresh 3 example_pvalues 0 (rng_of [])).
  right. vm_compute. reflexivity.
Defined.

(** ** The linkage matrix: shape, symmetry, exact entries *)

Lemma linkage_shape (vset : list (list Z)) :
  length (matmul_T_u16 (astype_uint16 vset) (astype_uint16 vset)) = length vset /\
  Forall (fun row => length row = length vset)
         (matmul_T_u16 (astype_uint16 vset) (astype_uint16 vset)).
Proof.
  unfold matmul_T_u16, astype_uint16. split.
  - rewrite !length_map. reflexivity.
  - apply Forall_forall. intros row Hrow. apply in_map_iff in Hrow.
    destruct Hrow as (ra & <- & _). rewrite !length_map. reflexivity.
Qed.

(** X15. The linkage matrix of a chromosome is square, one row and one
    column per variant, and symmetric: the entry of variants [i] and [j]
    is the entry of [j] and [i], wrap-around included. *)
Theorem ld_matrix_square_symmetric
        (sparse_genotype_dict : list (Z * list (list Z)))
        (chr : Z) (vset_ld : list (list Z)) :
  In (chr, vset_ld) (_get_ld_matrix sparse_genotype_dict) ->
  exists vset,
    In (chr, vset) sparse_genotype_dict /\
    length vset_ld = length vset /\
    Forall (fun row => length row = length vset) vset_ld /\
    forall i j,
      (i < length vset)%nat -> (j < length vset)%nat ->
      nth j (nth i vset_ld []) 0 = nth i (nth j vset_ld []) 0.
Proof.
  intros H. apply _get_ld_matrix_entries in H. destruct H as (vset & Hin & ->).
  exists vset. destruct (linkage_shape vset) as [Hlen Hrows].
  split; [exact Hin | split; [exact Hlen | split; [exact Hrows |]]].
  intros i j Hi Hj.
  rewrite (ld_entry vset i j Hi Hj), (ld_entry vset j i Hj Hi).
  rewrite cooccurrence_comm. reflexivity.
Qed.

Lemma ld_matrix_square_symmetric_witness :
  exists vset,
    In (1, vset) [(1, [[1; 0; 2]; [0; 1; 1]])] /\
    length [[5; 2]; [2; 2]] = length vset /\
    Forall (fun row => length row = length vset) [[5; 2]; [2; 2]] /\
    forall i j,
      (i < length vset)%nat -> (j < length vset)%nat ->
      nth j (nth i [[5; 2]; [2; 2]] []) 0 = nth i (nth j [[5; 2]; [2; 2]] []) 0.
Proof.
  apply (ld_matrix_square_symmetric [(1, [[1; 0; 2]; [0; 1; 1]])] 1
                                    [[5; 2]; [2; 2]]).
  vm_compute. left. reflexivity.
Defined.

Lemma cooccurrence_bounds (u : list Z) : forall v,
    Forall (fun a => 0 <= a) u ->
    Forall (fun b => 0 <= b <= 2) v ->
    0 <= cooccurrence u v <= 2 * sumZ u.
Proof.
  unfold cooccurrence, sumZ.
  induction u as [| a u IH]; intros v Hu Hv; cbn [combine map fold_right].
  - lia.
  - inversion Hu as [| ? ? Ha Hu']; subst.
    assert (0 <= fold_right Z.add 0 u) as Hnn
        by (clear - Hu'; induction Hu'; cbn [fold_right]; lia).
    destruct v as [| b v]; cbn [combine map fold_right]; [lia |].
    inversion Hv as [| ? ? Hb Hv']; subst.
    specialize (IH v Hu' Hv'). nia.
Qed.

(** X16. For genotypes with dosages 0, 1 or 2, the linkage entry of two
    variants is their exact co-occurrence count whenever twice the smaller
    of their two MACs is at most 65535: the unsigned 16-bit product cannot
    wrap for variants that rare. *)
Theorem ld_matrix_exact_for_rare_variants
        (sparse_genotype_dict : list (Z * list (list Z)))
        (chr : Z) (vset_ld : list (list Z)) :
  In (chr, vset_ld) (_get_ld_matrix sparse_genotype_dict) ->
  exists vset,
    In (chr, vset) sparse_genotype_dict /\
    (Forall (Forall (fun x => 0 <= x <= 2)) vset ->
     forall i j,
       (i < length vset)%nat -> (j < length vset)%nat ->
       2 * Z.min (mac_at (mac_of_genotype vset) i)
                 (mac_at (mac_of_genotype vset) j) <= uint16_max ->
       nth j (nth i vset_ld []) 0
       = cooccurrence (nth i vset []) (nth j vset [])).
Proof.
  intros H. apply _get_ld_matrix_entries in H. destruct H as (vset & Hin & ->).
  exists vset. split; [exact Hin |].
  intros Hdos i j Hi Hj Hmac.
  rewrite (ld_entry vset i j Hi Hj). unfold wrap16.
  unfold mac_at, mac_of_genotype in Hmac.
  rewrite !(nth_map_in_range sumZ vset _ [] 0) in Hmac by assumption.
  rewrite Forall_forall in Hdos.
  assert (forall k, (k < length vset)%nat ->
                    Forall (fun x => 0 <= x <= 2) (nth k vset [])) as Hrow
      by (intros k Hk; apply Hdos; apply nth_In; exact Hk).
  assert (forall k, (k < length vset)%nat ->
                    Forall (fun x => 0 <= x) (nth k vset [])) as Hrow0.
  { intros k Hk. specialize (Hrow k Hk). rewrite Forall_forall in Hrow.
    apply Forall_forall. intros x Hx. specialize (Hrow x Hx). lia. }
  pose proof (cooccurrence_bounds _ _ (Hrow0 i Hi) (Hrow j Hj)) as B1.
  pose proof (cooccurrence_bounds _ _ (Hrow0 j Hj) (Hrow i Hi)) as B2.
  rewrite (cooccurrence_comm (nth j vset [])) in B2.
  unfold uint16_max in Hmac. apply Z.mod_small. lia.
Qed.

Lemma ld_matrix_exact_for_rare_variants_witness :
  exists vset,
    In (1, vset) [(1, [[1; 0; 2]; [0; 1; 1]])] /\
    (Forall (Forall (fun x => 0 <= x <= 2)) vset ->
     forall i j,
       (i < length vset)%nat -> (j < length vset)%nat ->
       2 * Z.min (mac_at (mac_of_genotype vset) i)
                 (mac_at (mac_of_genotype vset) j) <= uint16_max ->
       nth j (nth i [[5; 2]; [2; 2]] []) 0
       = cooccurrence (nth i vset []) (nth j vset [])).
Proof.
  apply (ld_matrix_exact_for_rare_variants [(1, [[1; 0; 2]; [0; 1; 1]])] 1
                                           [[5; 2]; [2; 2]]).
  vm_compute. left. reflexivity.
Defined.

(** ** The builders and the engine together *)

Lemma dict_get_map_values {V W} (h : V -> W) (d : list (Z * V)) k :
  dict_get Z.eqb (map (fun '(c, v) => (c, h v)) d) k
  = option_map h (dict_get Z.eqb d k).
Proof.
  induction d as [| [c v] d IH]; simpl; [reflexivity |].
  destruct (k =? c); [reflexivity | exact IH].
Qed.

Lemma assoc_last_dict_get {V} (d : list (Z * V)) k v :
  NoDup (dict_keys d) -> dict_get Z.eqb d k = Some v -> assoc_last d k = Some v.
Proof.
  induction d as [| [c w] d IH]; simpl; intros Hnd H; [discriminate |].
  inversion Hnd as [| ? ? Hnotin Hnd']; subst.
  destruct (Z.eqb_spec k c) as [-> | Hne].
  - inversion H; subst.
    destruct (assoc_last d c) as [w' |] eqn:E; [| reflexivity].
    exfalso. apply Hnotin. apply assoc_last_In in E.
    apply (in_map fst) in E. exact E.
  - rewrite (IH Hnd' H). reflexivity.
Qed.

Lemma _get_ld_matrix_lookup sparse_genotype_dict chr vset :
  NoDup (dict_keys sparse_genotype_dict) ->
  dict_get Z.eqb sparse_genotype_dict chr = Some vset ->
  dict_get Z.eqb (_get_ld_matrix sparse_genotype_dict) chr
  = Some (matmul_T_u16 (astype_uint16 vset) (astype_uint16 vset)).
Proof.
  intros Hnd Hget. unfold _get_ld_matrix.
  rewrite (fold_dict_set_get
             (fun vset => matmul_T_u16 (astype_uint16 vset) (astype_uint16 vset)))
    by (intros; reflexivity).
  rewrite (assoc_last_dict_get _ _ _ Hnd Hget). reflexivity.
Qed.

Lemma mac_at_le_cmac (mac : list Z) (s : list nat) v :
  Forall (fun x => 0 <= x) mac -> In v s -> mac_at mac v <= cmac_of mac s.
Proof.
  intros Hnn. unfold cmac_of. induction s as [| u s IH]; intros Hv;
    [contradiction |].
  cbn [map fold_right].
  assert (0 <= fold_right Z.add 0 (map (mac_at mac) s)) as Hs.
  { clear - Hnn. induction s as [| w s IHs]; cbn [map fold_right]; [lia |].
    pose proof (mac_at_nonneg mac w Hnn). lia. }
  pose proof (mac_at_nonneg mac u Hnn).
  destruct Hv as [-> | Hv]; [lia | specialize (IH Hv); lia].
Qed.

Lemma mac_of_genotype_nonneg (vset : list (list Z)) :
  Forall (Forall (fun x => 0 <= x <= 2)) vset ->
  Forall (fun x => 0 <= x) (mac_of_genotype vset).
Proof.
  unfold mac_of_genotype, sumZ. intros H. apply Forall_forall. intros x Hx.
  apply in_map_iff in Hx. destruct Hx as (row & <- & Hrow).
  rewrite Forall_forall in H. specialize (H row Hrow).
  clear - H. induction H as [| a row Ha _ IH]; cbn [fold_right]; lia.
Qed.

Lemma cmac_bins_upper (bin : cmac_bin) : In bin cmac_bins -> snd bin <= 1000.
Proof.
  unfold cmac_bins. simpl. intros H.
  repeat (destruct H as [H | H]; [subst; simpl; lia |]). contradiction.
Qed.

(** A set whose cMAC is at most 1000 reads exact linkage entries. *)
Lemma stored_set_linkage_exact (vset : list (list Z)) (s : list nat) a b :
  Forall (Forall (fun x => 0 <= x <= 2)) vset ->
  cmac_of (mac_of_genotype vset) s <= 1000 ->
  Forall (fun v => (v < length vset)%nat) s ->
  In a s -> In b s ->
  nth b (nth a (matmul_T_u16 (astype_uint16 vset) (astype_uint16 vset)) []) 0
  = cooccurrence (nth a vset []) (nth b vset []).
Proof.
  intros Hdos Hc Hr Ha Hb.
  rewrite Forall_forall in Hr.
  pose proof (Hr a Ha) as Hia. pose proof (Hr b Hb) as Hib.
  rewrite (ld_entry vset a b Hia Hib). unfold wrap16.
  pose proof (mac_at_le_cmac _ s a (mac_of_genotype_nonneg vset Hdos) Ha) as Hma.
  unfold mac_at, mac_of_genotype in Hma.
  rewrite (nth_map_in_range sumZ vset a [] 0) in Hma by exact Hia.
  fold (mac_of_genotype vset) in Hma.
  rewrite Forall_forall in Hdos.
  assert (Forall (fun x => 0 <= x) (nth a vset [])) as Hra.
  { apply Forall_forall. intros x Hx.
    pose proof (Hdos (nth a vset []) (nth_In _ _ Hia)) as Hrow.
    rewrite Forall_forall in Hrow. specialize (Hrow x Hx). lia. }
  pose proof (cooccurrence_bounds _ _ Hra (Hdos _ (nth_In _ [] Hib))) as B.
  apply Z.mod_small. lia.
Qed.

(** Every set stored by either builder has a cMAC of at most 1000 and
    holds positions of its chromosome's MAC vector only. *)
Lemma builder_sets_bounded
      (loop_fuel : nat) (genes_quota : list nat -> Z -> list Z)
      (sparse_genotype_dict : list (Z * list (list Z)))
      (causal_idx_dict : list (Z * list nat))
      (cmac_bins_count : Z) (g : rng) (out : chr_bin_dict) (g' : rng) :
  NoDup (dict_keys sparse_genotype_dict) ->
  creating_mask_null loop_fuel genes_quota (mac_dict_of sparse_genotype_dict)
                     cmac_bins_count g = Returned (out, g') \/
  creating_mask_causal loop_fuel genes_quota (mac_dict_of sparse_genotype_dict)
                       causal_idx_dict cmac_bins_count g = Returned (out, g') ->
  forall chr genes bin sets s,
    In (chr, genes) out -> In (bin, sets) genes -> In s sets ->
    exists mac,
      dict_get Z.eqb (mac_dict_of sparse_genotype_dict) chr = Some mac /\
      cmac_of mac s <= 1000 /\
      Forall (fun v => (v < length mac)%nat) s.
Proof.
  intros Hnd Hrun chr genes bin sets s Hc Hb Hs.
  destruct Hrun as [Hrun | Hrun].
  - destruct (creating_mask_null_entries loop_fuel genes_quota
                (mac_dict_of sparse_genotype_dict) cmac_bins_count
                (fun mac n_variants n_genes bin output =>
                   Forall (in_bin mac bin) output /\
                   Forall (window_ok n_variants
                             (Z.max 2 (Z.quot (fst bin) 10)) (snd bin + 1))
                          output))
      with (g := g) (out := out) (g' := g') (chr := chr)
           (gene_numeric_idxs := genes) (bin := bin) (sets := sets)
      as (i & mac & n & n_genes & Hk & Hget & Hn & _ & Hbin & Hin & Hw);
      try assumption.
    + intros mac n n_genes b0 g0 output g0' _ H. unfold null_bin in H. split.
      * eapply null_bin_loop_ok; [constructor | exact H].
      * eapply null_bin_loop_windows; [| constructor | exact H]. lia.
    + exists mac. split; [exact Hget |].
      rewrite Forall_forall in Hin, Hw.
      destruct (Hin s Hs) as [_ Hhi]. destruct (Hw s Hs) as (_ & _ & Hrange).
      pose proof (cmac_bins_upper bin Hbin). split; [lia |].
      assert (NoDup (dict_keys (mac_dict_of sparse_genotype_dict))) as Hnd'.
      { unfold mac_dict_of, dict_keys. rewrite map_map.
        erewrite map_ext; [exact Hnd |]. intros [c v]. reflexivity. }
      rewrite (dict_item_at _ i chr mac n Hnd' Hk Hget Hn) in Hrange.
      exact Hrange.
  - destruct (creating_mask_causal_entries loop_fuel genes_quota
                (mac_dict_of sparse_genotype_dict) causal_idx_dict
                cmac_bins_count
                (fun mac causal_idxs n_genes bin output =>
                   Forall (causal_set_ok mac causal_idxs bin) output /\
                   Forall (causal_parts_ok mac causal_idxs bin) output))
      with (g := g) (out := out) (g' := g') (chr := chr)
           (gene_numeric_idxs := genes) (bin := bin) (sets := sets)
      as (i & mac & causal_idxs & n_genes & _ & Hget & _ & _ & Hbin & Hin & Hp);
      try assumption.
    + intros mac causal_idxs cmp n_genes b0 g0 output g0' _ Hcons Hw Hr H.
      unfold causal_bin in H. split.
      * eapply causal_bin_loop_ok;
          [apply build_mac_positions_consistent | exact Hcons | exact Hw
           | constructor | exact H].
      * eapply causal_bin_loop_parts;
          [exact Hcons | exact Hw | exact Hr | constructor | exact H].
    + exists mac. split; [exact Hget |].
      rewrite Forall_forall in Hin, Hp.
      destruct (Hin s Hs) as [_ [_ Hhi]].
      destruct (Hp s Hs) as (nc & cv & _ & _ & _ & _ & Hrange).
      pose proof (cmac_bins_upper bin Hbin). split; [lia | exact Hrange].
Qed.

(** X17. On the mask of either builder, made from the MACs of genotypes
    with dosages 0, 1 or 2, every linkage entry between two members of a
    stored set is the exact co-occurrence count: a stored set has a cMAC of
    at most 1000, so the unsigned 16-bit wrap-around never reaches the
    entries the engine reads. *)
Theorem masks_read_exact_linkage
        (loop_fuel : nat) (genes_quota : list nat -> Z -> list Z)
        (sparse_genotype_dict : list (Z * list (list Z)))
        (causal_idx_dict : list (Z * list nat))
        (cmac_bins_count : Z) (g : rng) (out : chr_bin_dict) (g' : rng) :
  NoDup (dict_keys sparse_genotype_dict) ->
  (forall chr vset, In (chr, vset) sparse_genotype_dict ->
                    Forall (Forall (fun x => 0 <= x <= 2)) vset) ->
  creating_mask_null loop_fuel genes_quota (mac_dict_of sparse_genotype_dict)
                     cmac_bins_count g = Returned (out, g') \/
  creating_mask_causal loop_fuel genes_quota (mac_dict_of sparse_genotype_dict)
                       causal_idx_dict cmac_bins_count g = Returned (out, g') ->
  forall chr gene_numeric_idxs bin sets selected_variants a b,
    In (chr, gene_numeric_idxs) out ->
    In (bin, sets) gene_numeric_idxs ->
    In selected_variants sets ->
    In a selected_variants -> In b selected_variants ->
    exists vset vset_ld,
      dict_get Z.eqb sparse_genotype_dict chr = Some vset /\
      dict_get Z.eqb (_get_ld_matrix sparse_genotype_dict) chr = Some vset_ld /\
      nth b (nth a vset_ld []) 0
      = cooccurrence (nth a vset []) (nth b vset []).
Proof.
  intros Hnd Hdos Hrun chr genes bin sets s a b Hc Hb Hs Ha Hbb.
  destruct (builder_sets_bounded loop_fuel genes_quota sparse_genotype_dict
              causal_idx_dict cmac_bins_count g out g' Hnd Hrun
              chr genes bin sets s Hc Hb Hs) as (mac & Hget & Hcm & Hr).
  unfold mac_dict_of in Hget. rewrite dict_get_map_values in Hget.
  destruct (dict_get Z.eqb sparse_genotype_dict chr) as [vset |] eqn:Ev;
    [| discriminate].
  simpl in Hget. inversion Hget; subst mac.
  exists vset, (matmul_T_u16 (astype_uint16 vset) (astype_uint16 vset)).
  split; [reflexivity |].
  split; [apply _get_ld_matrix_lookup; assumption |].
  apply dict_get_In in Ev. destruct Ev as (k' & Ek & Hin).
  apply Z.eqb_eq in Ek. subst k'.
  apply (stored_set_linkage_exact vset s a b); try assumption.
  - eapply Hdos. exact Hin.
  - unfold mac_of_genotype in Hr. rewrite length_map in Hr. exact Hr.
Qed.

Lemma masks_read_exact_linkage_witness :
  exists vset vset_ld,
    dict_get Z.eqb example_genotypes 2 = Some vset /\
    dict_get Z.eqb (_get_ld_matrix example_genotypes) 2 = Some vset_ld /\
    nth 6%nat (nth 7%nat vset_ld []) 0
    = cooccurrence (nth 7%nat vset []) (nth 6%nat vset []).
Proof.
  apply (masks_read_exact_linkage 40 genes_quota_exact example_genotypes [] 0
           (rng_of null_example_draws) null_example_out
           (mkRng (tape (rng_of null_example_draws)) 196)
           ltac:(simpl; repeat constructor; simpl; intuition discriminate)
           ltac:(intros chr vset H; simpl in H;
                 destruct H as [H | [H | []]]; inversion H; subst;
                 repeat constructor; lia)
           ltac:(left; vm_compute; reflexivity)
           2 (snd (nth 0 null_example_out (0, []))) (6, 7)
           [[7; 3; 6]%nat] [7; 3; 6]%nat 7%nat 6%nat).
  - left. reflexivity.
  - simpl. do 4 right. left. reflexivity.
  - left. reflexivity.
  - left. reflexivity.
  - right. right. left. reflexivity.
Defined.

(** ** When the engine's matrices can be built *)

(** A loop whose body, on each element, either returns without drawing or
    raises an exception of a given kind: the loop returns when every
    element is accepted, and raises such an exception otherwise. *)
Lemma for_each_decide {A B} (E : exn -> Prop) (ok : A -> Prop)
      (f : A -> M B) (l : list A) :
  (forall x g, In x l ->
               (ok x /\ exists y, f x g = Returned (y, g)) \/
               (~ ok x /\ exists e, E e /\ f x g = Raised e)) ->
  forall g,
    (Forall ok l /\ exists ys, for_each f l g = Returned (ys, g)) \/
    (~ Forall ok l /\ exists e, E e /\ for_each f l g = Raised e).
Proof.
  induction l as [| x l IH]; intros Hf g.
  - left. split; [constructor | exists []; reflexivity].
  - cbn [for_each]. unfold bind.
    destruct (Hf x g (or_introl eq_refl))
      as [(Hx & y & Ey) | (Hx & e & He & Ee)].
    + rewrite Ey.
      destruct (IH (fun x0 g0 Hin => Hf x0 g0 (or_intror Hin)) g)
        as [(Hl & ys & Eys) | (Hl & e & He & Ee)].
      * left. split; [constructor; assumption |].
        exists (y :: ys). rewrite Eys. reflexivity.
      * right. split; [intros Hall; inversion Hall; contradiction |].
        exists e. split; [exact He |]. rewrite Ee. reflexivity.
    + rewrite Ee. right.
      split; [intros Hall; inversion Hall; contradiction |].
      exists e. split; [exact He | reflexivity].
Qed.

Lemma take_rows_decide {A} (d : A) (m : list A) (numeric_idx : list nat) g :
  (Forall (fun i => (i < length m)%nat) numeric_idx /\
   take_rows m numeric_idx g
   = Returned (map (fun i => nth i m d) numeric_idx, g)) \/
  (~ Forall (fun i => (i < length m)%nat) numeric_idx /\
   take_rows m numeric_idx g = Raised IndexError).
Proof.
  unfold take_rows.
  destruct (for_each_decide (fun e => e = IndexError)
              (fun i => (i < length m)%nat) (index m) numeric_idx) with (g := g)
    as [(Hall & ys & E) | (Hn & e & -> & E)].
  - intros i g0 _. unfold index.
    destruct (nth_error m i) as [x |] eqn:En.
    + left. split; [| exists x; reflexivity].
      apply nth_error_Some. rewrite En. discriminate.
    + right. split; [| exists IndexError; split; reflexivity].
      apply nth_error_None in En. lia.
  - left. split; [exact Hall |]. rewrite E.
    apply (take_rows_map d) in E. destruct E as (-> & _ & _). reflexivity.
  - right. split; assumption.
Qed.

Lemma take_cols_returns {A} (d : A) (m : list (list A)) (numeric_idx : list nat)
      (n : nat) g :
  Forall (fun row => length row = n) m ->
  Forall (fun i => (i < n)%nat) numeric_idx ->
  exists cols, take_cols m numeric_idx g = Returned (cols, g).
Proof.
  intros Hm Hidx. unfold take_cols.
  destruct (for_each_decide (fun e => e = IndexError)
              (fun row : list A => length row = n)
              (fun row => take_rows row numeric_idx) m) with (g := g)
    as [(_ & ys & E) | (Hn & _)].
  - intros row g0 Hrow. left. rewrite Forall_forall in Hm.
    split; [exact (Hm row Hrow) |].
    destruct (take_rows_decide d row numeric_idx g0) as [(_ & E) | (Hn & _)].
    + eexists. exact E.
    + exfalso. apply Hn. rewrite (Hm row Hrow). exact Hidx.
  - exists ys. exact E.
  - contradiction.
Qed.

Lemma bind_returned {A B} (m : M A) (k : A -> M B) g a g' :
  m g = Returned (a, g') -> bind m k g = k a g'.
Proof. intros E. unfold bind. rewrite E. reflexivity. Qed.

Lemma bind_raised {A B} (m : M A) (k : A -> M B) g e :
  m g = Raised e -> bind m k g = Raised e.
Proof. intros E. unfold bind. rewrite E. reflexivity. Qed.

Lemma dict_get_None_not_In {V} (d : list (Z * V)) k v :
  dict_get Z.eqb d k = None -> ~ In (k, v) d.
Proof.
  induction d as [| [c w] d IH]; simpl; intros Hg Hin; [exact Hin |].
  destruct (Z.eqb_spec k c) as [Heq | Hne]; [discriminate |].
  destruct Hin as [Hin | Hin]; [| exact (IH Hg Hin)].
  inversion Hin. apply Hne. symmetry. assumption.
Qed.

Section EngineRuns.
Variable F : Type.
Variable Fzero : F.
Variables Fadd Fsub Fmul : F -> F -> F.
Variable F_of_Z : Z -> F.
Variable astype_float32 : F -> F.
Variable svd : list (list F) -> list (list F) * list F * list (list F).

Lemma _get_vset_half_covar_proj_lookup covar sparse_genotype_dict chr :
  NoDup (dict_keys sparse_genotype_dict) ->
  dict_get Z.eqb
           (_get_vset_half_covar_proj F Fzero Fadd Fmul F_of_Z astype_float32
                                      svd covar sparse_genotype_dict) chr
  = option_map
      (fun vset =>
         matmul F Fzero Fadd Fmul (map (map F_of_Z) vset)
                (half_covar_proj_of F Fzero Fadd Fmul astype_float32 svd covar))
      (dict_get Z.eqb sparse_genotype_dict chr).
Proof.
  intros Hnd. unfold _get_vset_half_covar_proj, half_covar_proj_of.
  destruct (svd covar) as [[covar_U s] covar_Vt].
  rewrite (fold_dict_set_get
             (fun vset =>
                matmul F Fzero Fadd Fmul (map (map F_of_Z) vset)
                       (map (map astype_float32)
                            (matmul F Fzero Fadd Fmul covar_U covar_Vt))))
    by (intros; reflexivity).
  destruct (dict_get Z.eqb sparse_genotype_dict chr) as [vset |] eqn:Eg.
  - rewrite (assoc_last_dict_get _ _ _ Hnd Eg). reflexivity.
  - destruct (assoc_last sparse_genotype_dict chr) as [vset |] eqn:Ea;
      [| reflexivity].
    exfalso. apply assoc_last_In in Ea.
    exact (dict_get_None_not_In _ _ _ Eg Ea).
Qed.

Lemma _get_ld_matrix_lookup_none sparse_genotype_dict chr :
  dict_get Z.eqb sparse_genotype_dict chr = None ->
  dict_get Z.eqb (_get_ld_matrix sparse_genotype_dict) chr = None.
Proof.
  intros Eg. unfold _get_ld_matrix.
  rewrite (fold_dict_set_get
             (fun vset => matmul_T_u16 (astype_uint16 vset) (astype_uint16 vset)))
    by (intros; reflexivity).
  destruct (assoc_last sparse_genotype_dict chr) as [vset |] eqn:Ea;
    [| reflexivity].
  exfalso. apply assoc_last_In in Ea.
  exact (dict_get_None_not_In _ _ _ Eg Ea).
Qed.

(** One variant set: the matrix is built when the set points into the
    genotypes; a chromosome without genotypes gives [KeyError], a position
    past the last variant [IndexError]. *)
Lemma cov_mat_of_decide covar sparse_genotype_dict chr numeric_idx g :
  NoDup (dict_keys sparse_genotype_dict) ->
  (set_addressable sparse_genotype_dict chr numeric_idx /\
   exists cov_mat,
     cov_mat_of F Fzero Fadd Fsub Fmul F_of_Z
                (_get_ld_matrix sparse_genotype_dict)
                (_get_vset_half_covar_proj F Fzero Fadd Fmul F_of_Z
                   astype_float32 svd covar sparse_genotype_dict)
                chr numeric_idx g = Returned (cov_mat, g)) \/
  (~ set_addressable sparse_genotype_dict chr numeric_idx /\
   exists e,
     (e = KeyError \/ e = IndexError) /\
     cov_mat_of F Fzero Fadd Fsub Fmul F_of_Z
                (_get_ld_matrix sparse_genotype_dict)
                (_get_vset_half_covar_proj F Fzero Fadd Fmul F_of_Z
                   astype_float32 svd covar sparse_genotype_dict)
                chr numeric_idx g = Raised e).
Proof.
  intros Hnd. unfold set_addressable.
  destruct (dict_get Z.eqb sparse_genotype_dict chr) as [vset |] eqn:Eg.
  - pose (P := matmul F Fzero Fadd Fmul (map (map F_of_Z) vset)
                      (half_covar_proj_of F Fzero Fadd Fmul astype_float32
                                          svd covar)).
    assert (length P = length vset) as HP
        by (unfold P, matmul; rewrite !length_map; reflexivity).
    assert (dict_lookup Z.eqb
              (_get_vset_half_covar_proj F Fzero Fadd Fmul F_of_Z
                 astype_float32 svd covar sparse_genotype_dict) chr g
            = Returned (P, g)) as L1.
    { unfold dict_lookup.
      rewrite (_get_vset_half_covar_proj_lookup covar _ chr Hnd), Eg.
      reflexivity. }
    assert (dict_lookup Z.eqb (_get_ld_matrix sparse_genotype_dict) chr g
            = Returned (matmul_T_u16 (astype_uint16 vset) (astype_uint16 vset),
                        g)) as L2.
    { unfold dict_lookup. rewrite (_get_ld_matrix_lookup _ _ _ Hnd Eg).
      reflexivity. }
    destruct (take_rows_decide [] P numeric_idx g) as [(Hall & E1) | (Hn & E1)].
    + left. rewrite HP in Hall.
      split; [exists vset; split; [reflexivity | exact Hall] |].
      destruct (linkage_shape vset) as [Hlen Hrows].
      destruct (take_rows_decide []
                  (matmul_T_u16 (astype_uint16 vset) (astype_uint16 vset))
                  numeric_idx g) as [(_ & E2) | (Hn & _)];
        [| exfalso; apply Hn; rewrite Hlen; exact Hall].
      destruct (take_cols_returns 0
                  (map (fun i => nth i (matmul_T_u16 (astype_uint16 vset)
                                                     (astype_uint16 vset)) [])
                       numeric_idx)
                  numeric_idx (length vset) g) as (cols & E3).
      * apply Forall_forall. intros row Hrow. apply in_map_iff in Hrow.
        destruct Hrow as (i & <- & Hi).
        rewrite Forall_forall in Hrows, Hall. apply Hrows. apply nth_In.
        rewrite Hlen. exact (Hall i Hi).
      * exact Hall.
      * unfold cov_mat_of, bind. rewrite L1, E1, L2, E2, E3.
        eexists. reflexivity.
    + right. split.
      * intros (vset' & Hv & Hall). inversion Hv; subst vset'.
        apply Hn. rewrite HP. exact Hall.
      * exists IndexError. split; [right; reflexivity |].
        unfold cov_mat_of, bind. rewrite L1, E1. reflexivity.
  - right. split.
    + intros (vset & Hv & _). discriminate.
    + exists KeyError. split; [left; reflexivity |].
      unfold cov_mat_of, bind, dict_lookup.
      rewrite (_get_vset_half_covar_proj_lookup covar _ chr Hnd), Eg.
      reflexivity.
Qed.

Lemma init_cov_mat_decide covar sparse_genotype_dict chr_gene_numeric_idxs g :
  NoDup (dict_keys sparse_genotype_dict) ->
  (sets_addressable sparse_genotype_dict chr_gene_numeric_idxs /\
   exists chr_cov_mat_dict,
     init_cov_mat F Fzero Fadd Fsub Fmul F_of_Z astype_float32 svd covar
                  sparse_genotype_dict chr_gene_numeric_idxs g
     = Returned (chr_cov_mat_dict, g)) \/
  (~ sets_addressable sparse_genotype_dict chr_gene_numeric_idxs /\
   (init_cov_mat F Fzero Fadd Fsub Fmul F_of_Z astype_float32 svd covar
                 sparse_genotype_dict chr_gene_numeric_idxs g
    = Raised KeyError \/
    init_cov_mat F Fzero Fadd Fsub Fmul F_of_Z astype_float32 svd covar
                 sparse_genotype_dict chr_gene_numeric_idxs g
    = Raised IndexError)).
Proof.
  intros Hnd. unfold init_cov_mat, _get_cov_mat.
  match goal with
  | |- context [for_each ?f chr_gene_numeric_idxs g] =>
      destruct (for_each_decide (fun e => e = KeyError \/ e = IndexError)
                  (fun chr_sets : Z * list (cmac_bin * list (list nat)) =>
                     Forall (fun bin_sets : cmac_bin * list (list nat) =>
                               Forall (set_addressable sparse_genotype_dict
                                                       (fst chr_sets))
                                      (snd bin_sets))
                            (snd chr_sets))
                  f chr_gene_numeric_idxs) with (g := g)
        as [(Hall & ys & E) | (Hn & e & He & E)]
  end.
  - intros [chr genes] g0 _. cbn [fst snd].
    match goal with
    | |- context [for_each ?f genes] =>
        destruct (for_each_decide (fun e => e = KeyError \/ e = IndexError)
                    (fun bin_sets : cmac_bin * list (list nat) =>
                       Forall (set_addressable sparse_genotype_dict chr)
                              (snd bin_sets))
                    f genes) with (g := g0)
          as [(Hall & ys & E) | (Hn & e & He & E)]
    end.
    + intros [bin sets] g1 _. cbn [snd].
      match goal with
      | |- context [for_each ?f sets] =>
          destruct (for_each_decide (fun e => e = KeyError \/ e = IndexError)
                      (set_addressable sparse_genotype_dict chr)
                      f sets) with (g := g1)
            as [(Hall & ys & E) | (Hn & e & He & E)]
      end.
      * intros s g2 _.
        destruct (cov_mat_of_decide covar sparse_genotype_dict chr s g2 Hnd)
          as [(Hs & y & Ey) | (Hs & e & He & Ee)].
        -- left. split; [exact Hs | exists y; exact Ey].
        -- right. split; [exact Hs | exists e; split; assumption].
      * left. split; [exact Hall |]. rewrite (bind_returned _ _ _ _ _ E).
        eexists. reflexivity.
      * right. split; [exact Hn |]. exists e. split; [exact He |].
        rewrite (bind_raised _ _ _ _ E). reflexivity.
    + left. split; [exact Hall |]. rewrite (bind_returned _ _ _ _ _ E).
      eexists. reflexivity.
    + right. split; [exact Hn |]. exists e. split; [exact He |].
      rewrite (bind_raised _ _ _ _ E). reflexivity.
  - left. split; [| exists ys; exact E].
    intros chr genes bin sets s Hc Hb Hs.
    rewrite Forall_forall in Hall. specialize (Hall _ Hc). cbn [fst snd] in Hall.
    rewrite Forall_forall in Hall. specialize (Hall _ Hb). cbn [snd] in Hall.
    rewrite Forall_forall in Hall. exact (Hall s Hs).
  - right. split.
    + intros Hadd. apply Hn. apply Forall_forall. intros [chr genes] Hc.
      apply Forall_forall. intros [bin sets] Hb.
      apply Forall_forall. intros s Hs. cbn [fst snd] in *.
      exact (Hadd chr genes bin sets s Hc Hb Hs).
    + destruct He as [-> | ->]; [left | right]; exact E.
Qed.

(** X18. With the genotypes in a dictionary, the engine's matrices can be
    built only for a mask whose every variant set names a chromosome that
    has genotypes and holds only positions that are rows of its genotype
    matrix: on any other mask a lookup of lines 125-126 fails. *)
Theorem init_cov_mat_requires_addressable
        (covar : list (list F))
        (sparse_genotype_dict : list (Z * list (list Z)))
        (chr_gene_numeric_idxs : chr_bin_dict) (g : rng)
        (chr_cov_mat_dict : list (Z * list (cmac_bin * list (list (list F)))))
        (g' : rng) :
  NoDup (dict_keys sparse_genotype_dict) ->
  init_cov_mat F Fzero Fadd Fsub Fmul F_of_Z astype_float32 svd covar
               sparse_genotype_dict chr_gene_numeric_idxs g
  = Returned (chr_cov_mat_dict, g') ->
  sets_addressable sparse_genotype_dict chr_gene_numeric_idxs.
Proof.
  intros Hnd Hrun.
  destruct (init_cov_mat_decide covar sparse_genotype_dict
              chr_gene_numeric_idxs g Hnd) as [(Hok & _) | (_ & Hr)].
  - exact Hok.
  - destruct Hr as [Hr | Hr]; rewrite Hr in Hrun; discriminate.
Qed.

(** X19. The masks of either builder, made from the MACs of the genotypes,
    are masks the engine accepts: its matrices are built for every stored
    set, with no [KeyError] and no [IndexError]. *)
Theorem init_cov_mat_returns_on_masks
        (loop_fuel : nat) (genes_quota : list nat -> Z -> list Z)
        (covar : list (list F))
        (sparse_genotype_dict : list (Z * list (list Z)))
        (causal_idx_dict : list (Z * list nat))
        (cmac_bins_count : Z) (g : rng) (out : chr_bin_dict) (g' g2 : rng) :
  NoDup (dict_keys sparse_genotype_dict) ->
  creating_mask_null loop_fuel genes_quota (mac_dict_of sparse_genotype_dict)
                     cmac_bins_count g = Returned (out, g') \/
  creating_mask_causal loop_fuel genes_quota (mac_dict_of sparse_genotype_dict)
                       causal_idx_dict cmac_bins_count g = Returned (out, g') ->
  exists chr_cov_mat_dict,
    init_cov_mat F Fzero Fadd Fsub Fmul F_of_Z astype_float32 svd covar
                 sparse_genotype_dict out g2
    = Returned (chr_cov_mat_dict, g2).
Proof.
  intros Hnd Hrun.
  destruct (init_cov_mat_decide covar sparse_genotype_dict out g2 Hnd)
    as [(_ & Hret) | (Hno & _)]; [exact Hret |].
  exfalso. apply Hno. intros chr genes bin sets s Hc Hb Hs.
  destruct (builder_sets_bounded loop_fuel genes_quota sparse_genotype_dict
              causal_idx_dict cmac_bins_count g out g' Hnd Hrun
              chr genes bin sets s Hc Hb Hs) as (mac & Hget & _ & Hr).
  unfold mac_dict_of in Hget. rewrite dict_get_map_values in Hget.
  destruct (dict_get Z.eqb sparse_genotype_dict chr) as [vset |] eqn:Ev;
    [| discriminate].
  simpl in Hget. inversion Hget; subst mac.
  exists vset. split; [exact Ev |].
  unfold mac_of_genotype in Hr. rewrite length_map in Hr. exact Hr.
Qed.

End EngineRuns.

Lemma init_cov_mat_requires_addressable_witness :
  sets_addressable [(1, [[1; 0; 2]; [0; 1; 1]])]
                   [(1, [((2, 2), [[0; 1]; [1]]%nat)])].
Proof.
  apply (init_cov_mat_requires_addressable Z 0 Z.add Z.sub Z.mul (fun x => x)
           (fun x => x) unit_svd [[1]; [0]; [0]]
           [(1, [[1; 0; 2]; [0; 1; 1]])]
           [(1, [((2, 2), [[0; 1]; [1]]%nat)])] (rng_of [])
           [(1, [((2, 2), [[[4; 2]; [2; 2]]; [[2]]])])] (rng_of [])).
  - simpl. repeat constructor. simpl. intuition.
  - reflexivity.
Defined.

Lemma init_cov_mat_returns_on_masks_witness :
  exists chr_cov_mat_dict,
    init_cov_mat Z 0 Z.add Z.sub Z.mul (fun x => x) (fun x => x)
                 (fun covar => (covar, [], [[1]])) [[1]; [1]; [1]; [1]]
                 example_genotypes null_example_out (rng_of [])
    = Returned (chr_cov_mat_dict, rng_of []).
Proof.
  apply (init_cov_mat_returns_on_masks Z 0 Z.add Z.sub Z.mul (fun x => x)
           (fun x => x) (fun covar => (covar, [], [[1]]))
           40 genes_quota_exact [[1]; [1]; [1]; [1]] example_genotypes [] 0
           (rng_of null_example_draws) null_example_out
           (mkRng (tape (rng_of null_example_draws)) 196) (rng_of [])).
  - simpl. repeat constructor; simpl; intuition discriminate.
  - left. vm_compute. reflexivity.
Defined.

(** ** The aggregator on bins it does not know, and on bins without sets *)

(** A fold whose body, on each element and on every state of an
    invariant, either returns a state of the invariant without drawing or
    raises an exception of a given kind. *)
Lemma for_fold_decide {A S} (E : exn -> Prop) (Inv : S -> Prop)
      (ok : A -> Prop) (f : S -> A -> M S) (l : list A) :
  (forall s x g, In x l -> Inv s ->
                 (ok x /\ exists s', f s x g = Returned (s', g) /\ Inv s') \/
                 (~ ok x /\ exists e, E e /\ f s x g = Raised e)) ->
  forall s g,
    Inv s ->
    (Forall ok l /\ exists s', for_fold f l s g = Returned (s', g) /\ Inv s') \/
    (~ Forall ok l /\ exists e, E e /\ for_fold f l s g = Raised e).
Proof.
  induction l as [| x l IH]; intros Hf s g Hs.
  - left. split; [constructor | exists s; split; [reflexivity | exact Hs]].
  - cbn [for_fold].
    destruct (Hf s x g (or_introl eq_refl) Hs)
      as [(Hx & s1 & E1 & Hs1) | (Hx & e & He & Ee)].
    + rewrite (bind_returned _ _ _ _ _ E1).
      destruct (IH (fun s0 x0 g0 Hin => Hf s0 x0 g0 (or_intror Hin)) s1 g Hs1)
        as [(Hl & s2 & E2 & Hs2) | (Hl & e & He & Ee)].
      * left. split; [constructor; assumption |].
        exists s2. split; assumption.
      * right. split; [intros Hall; inversion Hall; contradiction |].
        exists e. split; assumption.
    + rewrite (bind_raised _ _ _ _ Ee). right.
      split; [intros Hall; inversion Hall; contradiction |].
      exists e. split; [exact He | reflexivity].
Qed.

Lemma dict_set_keys_same {K V} (eqb : K -> K -> bool) (d : list (K * V)) k v v' :
  dict_get eqb d k = Some v ->
  dict_keys (dict_set eqb d k v') = dict_keys d.
Proof.
  induction d as [| [c w] d IH]; simpl; intros H; [discriminate |].
  destruct (eqb k c); [reflexivity |].
  simpl. f_equal. exact (IH H).
Qed.

Lemma extend_bins_decide (keys : list cmac_bin)
      (chr_sig_count_dict : list (Z * list (cmac_bin * list Z))) :
  forall d g,
    dict_keys d = keys ->
    (Forall (fun chr_counts : Z * list (cmac_bin * list Z) =>
               Forall (fun bin_counts : cmac_bin * list Z =>
                         In (fst bin_counts) keys)
                      (snd chr_counts))
            chr_sig_count_dict /\
     exists d', extend_bins chr_sig_count_dict d g = Returned (d', g) /\
                dict_keys d' = keys) \/
    (~ Forall (fun chr_counts : Z * list (cmac_bin * list Z) =>
                 Forall (fun bin_counts : cmac_bin * list Z =>
                           In (fst bin_counts) keys)
                        (snd chr_counts))
              chr_sig_count_dict /\
     extend_bins chr_sig_count_dict d g = Raised KeyError).
Proof.
  intros d g Hd. unfold extend_bins.
  match goal with
  | |- context [for_fold ?f chr_sig_count_dict d g] =>
      destruct (for_fold_decide (fun e => e = KeyError)
                  (fun d : list (cmac_bin * list Z) => dict_keys d = keys)
                  (fun chr_counts : Z * list (cmac_bin * list Z) =>
                     Forall (fun bin_counts : cmac_bin * list Z =>
                               In (fst bin_counts) keys)
                            (snd chr_counts))
                  f chr_sig_count_dict) with (s := d) (g := g)
        as [(Hall & d' & E & Hd') | (Hn & e & -> & E)]
  end.
  - intros d0 [chr sd] g0 _ Hd0. cbn [snd].
    match goal with
    | |- context [for_fold ?f sd d0 g0] =>
        destruct (for_fold_decide (fun e => e = KeyError)
                    (fun d : list (cmac_bin * list Z) => dict_keys d = keys)
                    (fun bin_counts : cmac_bin * list Z =>
                       In (fst bin_counts) keys)
                    f sd) with (s := d0) (g := g0)
          as [(Hall & d' & E & Hd') | (Hn & e & -> & E)]
    end.
    + intros d1 [b l] g1 _ Hd1. cbn [fst]. unfold dict_lookup.
      destruct (dict_get bin_eqb d1 b) as [l0 |] eqn:Eg.
      * left. split.
        -- apply dict_get_In in Eg. destruct Eg as (k' & Ek & Hin).
           apply bin_eqb_eq in Ek. subst k'. rewrite <- Hd1.
           apply (in_map fst) in Hin. exact Hin.
        -- eexists. split; [reflexivity |].
           rewrite (dict_set_keys_same _ _ _ _ _ Eg). exact Hd1.
      * right. split.
        -- intros Hin. rewrite <- Hd1 in Hin.
           destruct (dict_get_of_key d1 b Hin) as (l0 & El).
           rewrite El in Eg. discriminate.
        -- exists KeyError. split; reflexivity.
    + exact Hd0.
    + left. split; [exact Hall |]. exists d'. split; assumption.
    + right. split; [exact Hn |]. exists KeyError. split; [reflexivity | exact E].
  - exact Hd.
  - left. split; [exact Hall |]. exists d'. split; assumption.
  - right. split; assumption.
Qed.

(** X20. A mask that lists a bin outside the fourteen fixed bins makes the
    aggregator raise [KeyError], even when the bin holds no variant set:
    the per-bin lists are looked up in a plain dictionary. *)
Theorem run_unknown_bin_raises (sig_thresh : Q) (n_voxels : Z)
        (test_pvalues : Z -> cmac_bin -> nat -> list nat -> list pvalue)
        (chr_gene_numeric_idxs : chr_bin_dict) (sample_id : Z) (g : rng)
        (chr : Z) (gene_numeric_idxs : list (cmac_bin * list (list nat)))
        (bin : cmac_bin) (sets : list (list nat)) :
  In (chr, gene_numeric_idxs) chr_gene_numeric_idxs ->
  In (bin, sets) gene_numeric_idxs ->
  ~ In bin all_bins ->
  run sig_thresh n_voxels test_pvalues chr_gene_numeric_idxs sample_id g
  = Raised KeyError.
Proof.
  intros Hc Hb Hnot. unfold run.
  destruct (extend_bins_decide all_bins
              (_variant_set_test sig_thresh test_pvalues chr_gene_numeric_idxs)
              (map (fun b : cmac_bin => (b, @nil Z)) all_bins) g eq_refl)
    as [(Hall & _) | (_ & E)].
  - exfalso. apply Hnot. rewrite Forall_forall in Hall.
    assert (In (chr,
                map (fun '(bin, gene_numeric_idx) =>
                       (bin,
                        map (fun '(gene_id, numeric_idx) =>
                               _variant_set_test_ sig_thresh
                                 (test_pvalues chr bin gene_id numeric_idx))
                            (combine (seq 0 (length gene_numeric_idx))
                                     gene_numeric_idx)))
                    gene_numeric_idxs)
               (_variant_set_test sig_thresh test_pvalues
                                  chr_gene_numeric_idxs)) as Hin.
    { unfold _variant_set_test. apply in_map_iff.
      exists (chr, gene_numeric_idxs). split; [reflexivity | exact Hc]. }
    specialize (Hall _ Hin). cbn [snd] in Hall.
    rewrite Forall_forall in Hall.
    refine (Hall (bin, _) _).
    apply in_map_iff. exists (bin, sets). split; [reflexivity | exact Hb].
  - rewrite (bind_raised _ _ _ _ E). reflexivity.
Qed.

Lemma run_unknown_bin_raises_witness :
  run example_thresh 3 example_pvalues [(1, [((1, 1), [])])] 0 (rng_of [])
  = Raised KeyError.
Proof.
  apply (run_unknown_bin_raises example_thresh 3 example_pvalues
           [(1, [((1, 1), [])])] 0 (rng_of []) 1 [((1, 1), [])] (1, 1) []).
  - left. reflexivity.
  - left. reflexivity.
  - unfold all_bins. simpl. intuition discriminate.
Defined.

(** X21. Whatever the mask, a returned row has the fourteen bin columns
    in the fixed order; with a non-zero number of trait dimensions, the
    value of a bin is NaN exactly when the mask holds no variant set in
    that bin on any chromosome ([np.mean] of an empty list). *)
Theorem run_row_columns (sig_thresh : Q) (n_voxels : Z)
        (test_pvalues : Z -> cmac_bin -> nat -> list nat -> list pvalue)
        (chr_gene_numeric_idxs : chr_bin_dict) (sample_id : Z)
        (g : rng) (row : Z * list (string * option Q)) (g' : rng) :
  n_voxels <> 0 ->
  run sig_thresh n_voxels test_pvalues chr_gene_numeric_idxs sample_id g
  = Returned (row, g') ->
  map fst (snd row) = map cmac_bin_str all_bins /\
  forall b,
    In b all_bins ->
    (dict_get String.eqb (snd row) (cmac_bin_str b) = Some None
     <-> bin_without_sets chr_gene_numeric_idxs b).
Proof.
  intros Hn Hrun. apply run_row in Hrun. subst row. cbn [fst snd]. split.
  - rewrite map_map. reflexivity.
  - intros b Hb. rewrite <- (bin_counts_nil_iff sig_thresh test_pvalues).
    assert (np_div (np_mean (bin_counts sig_thresh test_pvalues
                                        chr_gene_numeric_idxs b)) n_voxels
            = None
            <-> bin_counts sig_thresh test_pvalues chr_gene_numeric_idxs b = [])
      as Hv.
    { unfold np_div, np_mean.
      destruct (bin_counts sig_thresh test_pvalues chr_gene_numeric_idxs b);
        [split; reflexivity |].
      destruct (Z.eqb_spec n_voxels 0); [contradiction |].
      split; discriminate. }
    rewrite <- Hv. clear Hv.
    generalize (bin_counts sig_thresh test_pvalues chr_gene_numeric_idxs).
    intros c.
    assert (dict_get String.eqb
              (map (fun b0 => (cmac_bin_str b0,
                               np_div (np_mean (c b0)) n_voxels)) all_bins)
              (cmac_bin_str b)
            = Some (np_div (np_mean (c b)) n_voxels)) as Hg.
    { unfold all_bins in Hb. simpl in Hb.
      repeat (destruct Hb as [Hb | Hb]; [subst b; reflexivity |]).
      contradiction. }
    rewrite Hg. split; [intros H; inversion H; reflexivity | intros ->; reflexivity].
Qed.

Lemma run_row_columns_witness :
  map fst (snd (0, map (fun b =>
                          (cmac_bin_str b,
                           np_div (np_mean (bin_counts example_thresh
                                              example_pvalues example_sets b))
                                  3))
                       all_bins))
  = map cmac_bin_str all_bins /\
  forall b,
    In b all_bins ->
    (dict_get String.eqb
              (snd (0, map (fun b =>
                              (cmac_bin_str b,
                               np_div (np_mean (bin_counts example_thresh
                                                  example_pvalues example_sets b))
                                      3))
                           all_bins))
              (cmac_bin_str b) = Some None
     <-> bin_without_sets example_sets b).
Proof.
  apply (run_row_columns example_thresh 3 example_pvalues example_sets 0
           (rng_of []) _ (rng_of [])).
  - lia.
  - vm_compute. reflexivity.
Defined.

Lemma filter_length_mono {A} (p q : A -> bool) (l : list A) :
  (forall x, p x = true -> q x = true) ->
  (length (filter p l) <= length (filter q l))%nat.
Proof.
  intros H. induction l as [| a l IH]; simpl; [lia |].
  destruct (p a) eqn:Ep.
  - rewrite (H a Ep). simpl. lia.
  - destruct (q a); simpl; lia.
Qed.

(** X22. The significance count of one variant set lies between 0 and the
    number of its p-values that are numbers: a NaN p-value is never
    counted. Raising the threshold never lowers the count. *)
Theorem variant_set_test_count_bounds (sig_thresh sig_thresh' : Q)
        (pvalues : list pvalue) :
  (sig_thresh <= sig_thresh')%Q ->
  0 <= _variant_set_test_ sig_thresh pvalues
  <= len (filter is_number pvalues) /\
  _variant_set_test_ sig_thresh pvalues
  <= _variant_set_test_ sig_thresh' pvalues.
Proof.
  intros Hle. rewrite !_variant_set_test__count. unfold len. split.
  - split; [lia |]. apply Nat2Z.inj_le. apply filter_length_mono.
    intros [q |]; simpl; [reflexivity | discriminate].
  - apply Nat2Z.inj_le. apply filter_length_mono.
    intros [q |]; simpl; [| discriminate].
    intros H. apply negb_true_iff in H. apply negb_true_iff.
    destruct (Qle_bool sig_thresh' q) eqn:E; [| reflexivity].
    apply Qle_bool_iff in E.
    assert (Qle_bool sig_thresh q = true) as C
        by (apply Qle_bool_iff; eapply Qle_trans; eassumption).
    rewrite C in H. discriminate.
Qed.

Lemma variant_set_test_count_bounds_witness :
  0 <= _variant_set_test_ example_thresh (example_pvalues 1 (2, 2) 0 [])
  <= len (filter is_number (example_pvalues 1 (2, 2) 0 [])) /\
  _variant_set_test_ example_thresh (example_pvalues 1 (2, 2) 0 [])
  <= _variant_set_test_ 1 (example_pvalues 1 (2, 2) 0 []).
Proof.
  apply (variant_set_test_count_bounds example_thresh 1
           (example_pvalues 1 (2, 2) 0 [])).
  vm_compute. discriminate.
Defined.

(** ** The stored matrix in exact arithmetic: symmetric, positive
    semi-definite *)

Section PositiveSemidefinite.
Variable F : Type.
Variables Fzero Fone : F.
Variables Fadd Fsub Fmul : F -> F -> F.
Variable Fopp : F -> F.
Variable F_of_Z : Z -> F.
Variable Fle : F -> F -> Prop.
Variable astype_float32 : F -> F.
Variable svd : list (list F) -> list (list F) * list F * list (list F).

(** Exact arithmetic: an ordered commutative ring into which the integers
    embed. *)
Hypothesis Fring : ring_theory Fzero Fone Fadd Fmul Fsub Fopp eq.
Hypothesis F_of_Z_0 : F_of_Z 0 = Fzero.
Hypothesis F_of_Z_add : forall a b, F_of_Z (a + b) = Fadd (F_of_Z a) (F_of_Z b).
Hypothesis F_of_Z_mul : forall a b, F_of_Z (a * b) = Fmul (F_of_Z a) (F_of_Z b).
Hypothesis Fle_square : forall a, Fle Fzero (Fmul a a).
Hypothesis Fle_add :
  forall a b, Fle Fzero a -> Fle Fzero b -> Fle Fzero (Fadd a b).

Add Ring Fring_ring : Fring.

Local Notation "u '.*' v" := (dotF F Fzero Fadd Fmul u v) (at level 39).
Local Notation "u '+v' w" := (vadd F Fadd u w) (at level 50).
Local Notation "x '*v' u" := (scale F Fmul x u) (at level 40).

Lemma fold_dot_acc (l : list (F * F)) : forall acc,
    fold_left (fun acc '(a, b) => Fadd acc (Fmul a b)) l acc
    = Fadd acc (fold_left (fun acc '(a, b) => Fadd acc (Fmul a b)) l Fzero).
Proof.
  induction l as [| [a b] l IH]; intros acc; simpl.
  - ring.
  - rewrite IH. rewrite (IH (Fadd Fzero (Fmul a b))). ring.
Qed.

Lemma dotF_cons a u b v : (a :: u) .* (b :: v) = Fadd (Fmul a b) (u .* v).
Proof. unfold dotF. simpl. rewrite fold_dot_acc. ring. Qed.

Lemma dotF_nil_r u : u .* [] = Fzero.
Proof. destruct u; reflexivity. Qed.

Lemma dotF_sym u : forall v, u .* v = v .* u.
Proof.
  induction u as [| a u IH]; intros [| b v]; try reflexivity.
  rewrite !dotF_cons, IH. ring.
Qed.

Lemma dotF_vadd_l v : forall w u,
    length v = length w -> (v +v w) .* u = Fadd (v .* u) (w .* u).
Proof.
  induction v as [| a v IH]; intros [| b w] [| c u] Hl;
    try discriminate; unfold vadd; simpl; rewrite ?dotF_nil_r;
    try (unfold dotF; simpl; ring).
  fold (vadd F Fadd v w). rewrite !dotF_cons, IH by (simpl in Hl; lia). ring.
Qed.

Lemma dotF_scale_l x v : forall u, (x *v v) .* u = Fmul x (v .* u).
Proof.
  induction v as [| a v IH]; intros [| c u]; unfold scale; simpl;
    rewrite ?dotF_nil_r; try (unfold dotF; simpl; ring).
  fold (scale F Fmul x v). rewrite !dotF_cons, IH. ring.
Qed.

Lemma dotF_zero_l n : forall u, repeat Fzero n .* u = Fzero.
Proof.
  induction n as [| n IH]; intros [| c u]; simpl; try reflexivity.
  rewrite dotF_cons, IH. ring.
Qed.

Lemma dotF_self_nonneg u : Fle Fzero (u .* u).
Proof.
  induction u as [| a u IH].
  - unfold dotF. simpl. replace Fzero with (Fmul Fzero Fzero) at 2 by ring.
    apply Fle_square.
  - rewrite dotF_cons. apply Fle_add; [apply Fle_square | exact IH].
Qed.

Lemma dotF_map_same {A} (f h : A -> F) (l : list A) :
  map f l .* map h l = sum_over F Fzero Fadd (fun a => Fmul (f a) (h a)) l.
Proof.
  induction l as [| a l IH]; simpl; [reflexivity |].
  rewrite dotF_cons, IH. reflexivity.
Qed.

Lemma vadd_length u w : length (u +v w) = Nat.min (length u) (length w).
Proof. unfold vadd. rewrite length_map, length_combine. reflexivity. Qed.

Lemma scale_length x u : length (x *v u) = length u.
Proof. unfold scale. apply length_map. Qed.

Lemma lincomb_length n gs :
  Forall (fun g => length g = n) gs ->
  forall xs, length (lincomb F Fzero Fadd Fmul n xs gs) = n.
Proof.
  induction 1 as [| g gs Hg _ IH]; intros [| x xs]; simpl;
    try apply repeat_length.
  rewrite vadd_length, scale_length, Hg, IH. apply Nat.min_id.
Qed.

(** *** The residual product is symmetric and linear *)

Local Notation "'res' cols" :=
  (residual_dot F Fzero Fadd Fsub Fmul cols) (at level 10, cols at level 9).

Lemma residual_dot_nil u v : res [] u v = u .* v.
Proof. unfold residual_dot, sum_over. simpl. ring. Qed.

Lemma residual_dot_cons c cols u v :
  res (c :: cols) u v = Fsub (res cols u v) (Fmul (u .* c) (v .* c)).
Proof. unfold residual_dot, sum_over. simpl. ring. Qed.

Lemma residual_dot_sym cols u v : res cols u v = res cols v u.
Proof.
  induction cols as [| c cols IH].
  - rewrite !residual_dot_nil. apply dotF_sym.
  - rewrite !residual_dot_cons, IH. ring.
Qed.

Lemma residual_dot_vadd_l cols v w u :
  length v = length w ->
  res cols (v +v w) u = Fadd (res cols v u) (res cols w u).
Proof.
  intros Hl. induction cols as [| c cols IH].
  - rewrite !residual_dot_nil. apply dotF_vadd_l. exact Hl.
  - rewrite !residual_dot_cons, IH, (dotF_vadd_l v w c Hl). ring.
Qed.

Lemma residual_dot_scale_l cols x v u :
  res cols (x *v v) u = Fmul x (res cols v u).
Proof.
  induction cols as [| c cols IH].
  - rewrite !residual_dot_nil. apply dotF_scale_l.
  - rewrite !residual_dot_cons, IH, dotF_scale_l. ring.
Qed.

Lemma residual_dot_zero_l cols n u : res cols (repeat Fzero n) u = Fzero.
Proof.
  induction cols as [| c cols IH].
  - rewrite residual_dot_nil. apply dotF_zero_l.
  - rewrite residual_dot_cons, IH, dotF_zero_l. ring.
Qed.

(** A row of residual products against a vector of coefficients is the
    residual product with the combination. *)
Lemma residual_dot_row cols n u gs :
  Forall (fun g => length g = n) gs ->
  forall xs,
    map (fun g => res cols g u) gs .* xs
    = res cols (lincomb F Fzero Fadd Fmul n xs gs) u.
Proof.
  induction 1 as [| g gs Hg Hgs IH]; intros [| x xs]; simpl;
    rewrite ?residual_dot_zero_l; try reflexivity.
  rewrite dotF_cons, IH.
  rewrite residual_dot_vadd_l
    by (rewrite scale_length, Hg; symmetry; apply lincomb_length; exact Hgs).
  rewrite residual_dot_scale_l. ring.
Qed.

Lemma quadratic_form_residual cols n gs xs :
  Forall (fun g => length g = n) gs ->
  quadratic_form F Fzero Fadd Fmul
                 (map (fun u => map (fun v => res cols u v) gs) gs) xs
  = res cols (lincomb F Fzero Fadd Fmul n xs gs)
        (lincomb F Fzero Fadd Fmul n xs gs).
Proof.
  intros Hgs. unfold quadratic_form. rewrite map_map.
  rewrite (map_ext _ (fun u => res cols u (lincomb F Fzero Fadd Fmul n xs gs))).
  - rewrite dotF_sym. apply residual_dot_row. exact Hgs.
  - intros u.
    rewrite (map_ext _ (fun g => res cols g u))
      by (intros g; apply residual_dot_sym).
    rewrite (residual_dot_row cols n u gs Hgs xs). apply residual_dot_sym.
Qed.

(** Bessel's inequality: what is left of [y . y] outside the span of
    orthonormal vectors is not negative. *)
Lemma residual_dot_nonneg cols :
  orthonormal F Fzero Fone Fadd Fmul cols ->
  forall y,
    Forall (fun c => length c = length y) cols ->
    Fle Fzero (res cols y y).
Proof.
  induction 1 as [| c cs Hunit Horth _ IH]; intros y Hlen.
  - rewrite residual_dot_nil. apply dotF_self_nonneg.
  - apply Forall_cons_iff in Hlen. destruct Hlen as [Hc Hcs].
    pose (y' := y +v (Fopp (y .* c) *v c)).
    assert (length y = length (Fopp (y .* c) *v c)) as Hl
        by (rewrite scale_length; symmetry; exact Hc).
    assert (length y' = length y) as Hy'
        by (unfold y'; rewrite vadd_length, <- Hl; apply Nat.min_id).
    assert (forall u, y' .* u = Fsub (y .* u) (Fmul (y .* c) (c .* u)))
      as Hdot.
    { intros u. unfold y'. rewrite (dotF_vadd_l _ _ u Hl), dotF_scale_l.
      ring. }
    assert (res cs y' y' = res (c :: cs) y y) as Heq.
    { rewrite residual_dot_cons.
      clear IH Hcs.
      induction cs as [| d cs IHcs].
      - rewrite !residual_dot_nil. rewrite (Hdot y').
        rewrite (dotF_sym y y'), (Hdot y).
        rewrite (dotF_sym c y'), (Hdot c).
        rewrite (dotF_sym c y), Hunit. ring.
      - apply Forall_cons_iff in Horth. destruct Horth as [Hd Hrest].
        rewrite !residual_dot_cons, (IHcs Hrest), (Hdot d), Hd. ring. }
    rewrite <- Heq. apply IH.
    apply Forall_forall. intros d Hd. rewrite Hy'.
    rewrite Forall_forall in Hcs. exact (Hcs d Hd).
Qed.

Lemma F_of_Z_cooccurrence (u : list Z) : forall v,
    F_of_Z (cooccurrence u v) = map F_of_Z u .* map F_of_Z v.
Proof.
  unfold cooccurrence, sumZ.
  induction u as [| a u IH]; intros [| b v]; simpl;
    try (rewrite F_of_Z_0; reflexivity).
  rewrite dotF_cons, F_of_Z_add, F_of_Z_mul, IH. reflexivity.
Qed.

(** The specification's matrix of a set is the matrix of the residual
    products of the set's genotype rows. *)
Lemma exact_adjusted_covariance_residual vset P numeric_idx :
  exact_adjusted_covariance F Fzero Fadd Fsub Fmul F_of_Z vset P numeric_idx
  = map (fun u =>
           map (fun v => res (columns F Fzero P) u v)
               (map (fun ia => map F_of_Z (nth ia vset [])) numeric_idx))
        (map (fun ia => map F_of_Z (nth ia vset [])) numeric_idx).
Proof.
  unfold exact_adjusted_covariance. rewrite !map_map.
  apply map_ext. intros ia. rewrite map_map. apply map_ext. intros ib.
  unfold residual_dot, proj_row, columns.
  rewrite F_of_Z_cooccurrence. f_equal.
  rewrite <- (map_map (fun k => column F Fzero k P)
                      (fun c => map F_of_Z (nth ia vset []) .* c)).
  rewrite <- (map_map (fun k => column F Fzero k P)
                      (fun c => map F_of_Z (nth ib vset []) .* c)).
  apply dotF_map_same.
Qed.

Lemma exact_adjusted_covariance_nonneg vset P numeric_idx x :
  Forall (fun ia => length (nth ia vset []) = length P) numeric_idx ->
  orthonormal F Fzero Fone Fadd Fmul (columns F Fzero P) ->
  Fle Fzero
      (quadratic_form F Fzero Fadd Fmul
         (exact_adjusted_covariance F Fzero Fadd Fsub Fmul F_of_Z vset P
                                    numeric_idx) x).
Proof.
  intros Hrows Horth. rewrite exact_adjusted_covariance_residual.
  assert (Forall (fun g => length g = length P)
                 (map (fun ia => map F_of_Z (nth ia vset [])) numeric_idx))
    as Hgs.
  { apply Forall_forall. intros g Hg. apply in_map_iff in Hg.
    destruct Hg as (ia & <- & Hia). rewrite length_map.
    rewrite Forall_forall in Hrows. exact (Hrows ia Hia). }
  rewrite (quadratic_form_residual _ (length P) _ x Hgs).
  apply residual_dot_nonneg; [exact Horth |].
  rewrite (lincomb_length _ _ Hgs).
  apply Forall_forall. intros c Hc. unfold columns in Hc.
  apply in_map_iff in Hc. destruct Hc as (k & <- & _).
  unfold column. apply length_map.
Qed.

(** C8 (amended). Every matrix stored by the engine is symmetric. When
    its variant set is well formed (no linkage entry of the set has
    wrapped, that is, the co-occurrence counts of its variants are at most
    65535; its genotype rows have one entry per row of the covariate
    half-projection; and the half-projection has orthonormal columns), the
    matrix is positive semi-definite in exact arithmetic: [x.T M x] is not
    negative, for every vector [x]. *)
Theorem cov_mat_symmetric_psd (covar : list (list F))
        (sparse_genotype_dict : list (Z * list (list Z)))
        (chr_gene_numeric_idxs : chr_bin_dict) (g : rng)
        (chr_cov_mat_dict : list (Z * list (cmac_bin * list (list (list F)))))
        (g' : rng) :
  init_cov_mat F Fzero Fadd Fsub Fmul F_of_Z astype_float32 svd covar
               sparse_genotype_dict chr_gene_numeric_idxs g
  = Returned (chr_cov_mat_dict, g') ->
  Forall2
    (fun chr_sets chr_covs =>
       fst chr_covs = fst chr_sets /\
       Forall2
         (fun bin_sets bin_covs =>
            fst bin_covs = fst bin_sets /\
            Forall2
              (fun numeric_idx cov_mat =>
                 exists vset,
                   In (fst chr_sets, vset) sparse_genotype_dict /\
                   (forall a b,
                       (a < length numeric_idx)%nat ->
                       (b < length numeric_idx)%nat ->
                       nth b (nth a cov_mat []) Fzero
                       = nth a (nth b cov_mat []) Fzero) /\
                   (no_wrap vset numeric_idx ->
                    Forall (fun ia =>
                              length (nth ia vset [])
                              = length (half_covar_proj_of
                                          F Fzero Fadd Fmul astype_float32
                                          svd covar))
                           numeric_idx ->
                    orthonormal F Fzero Fone Fadd Fmul
                      (columns F Fzero
                         (half_covar_proj_of F Fzero Fadd Fmul astype_float32
                                             svd covar)) ->
                    forall x,
                      Fle Fzero (quadratic_form F Fzero Fadd Fmul cov_mat x)))
              (snd bin_sets) (snd bin_covs))
         (snd chr_sets) (snd chr_covs))
    chr_gene_numeric_idxs chr_cov_mat_dict.
Proof.
  intros H. apply init_cov_mat_spec in H.
  eapply Forall2_impl; [| exact H]. clear H.
  intros chr_sets chr_covs [Hk H]. split; [exact Hk |].
  eapply Forall2_impl; [| exact H]. clear H.
  intros bin_sets bin_covs [Hb H]. split; [exact Hb |].
  eapply Forall2_impl; [| exact H]. clear H.
  intros numeric_idx cov_mat (vset & Hin & Hcov).
  exists vset. split; [exact Hin |]. split.
  - intros a b Ha Hb'. rewrite Hcov.
    apply adjusted_covariance_symmetric; [| exact Ha | exact Hb'].
    intros x y. ring.
  - intros Hnw Hrows Horth x. rewrite Hcov.
    rewrite (adjusted_covariance_no_wrap F Fzero Fadd Fsub Fmul F_of_Z
               vset _ numeric_idx Hnw).
    apply exact_adjusted_covariance_nonneg; assumption.
Qed.

End PositiveSemidefinite.

(** C8, as stated, fails: with one variant carried twice by each of 16384
    subjects, genotype row and half-projection of matching sizes and an
    orthonormal half-projection, the engine stores the matrix [[-4]],
    whose quadratic form at [1] is -4. *)
Lemma cov_mat_not_psd_counterexample :
  init_cov_mat Z 0 Z.add Z.sub Z.mul (fun x => x) (fun x => x) unit_svd
               wrap_example_covar wrap_example_genotypes wrap_example_mask
               (rng_of [])
  = Returned ([(1, [((501, 1000), [[[-4]]])])], rng_of [])
  /\ quadratic_form Z 0 Z.add Z.mul [[-4]] [1] = -4
  /\ orthonormal Z 0 1 Z.add Z.mul
       (columns Z 0 (half_covar_proj_of Z 0 Z.add Z.mul (fun x => x)
                                        unit_svd wrap_example_covar))
  /\ length (repeat 2 (Z.to_nat 16384))
     = length (half_covar_proj_of Z 0 Z.add Z.mul (fun x => x) unit_svd
                                  wrap_example_covar).
Proof.
  split; [vm_compute; reflexivity |].
  split; [reflexivity |].
  split; [| vm_compute; reflexivity].
  vm_compute. constructor; [reflexivity | constructor | constructor].
Qed.

Lemma cov_mat_symmetric_psd_witness :
  Forall2
    (fun chr_sets chr_covs =>
       fst chr_covs = fst chr_sets /\
       Forall2
         (fun bin_sets bin_covs =>
            fst bin_covs = fst bin_sets /\
            Forall2
              (fun numeric_idx cov_mat =>
                 exists vset,
                   In (fst chr_sets, vset) [(1, [[1; 0; 2]; [0; 1; 1]])] /\
                   (forall a b,
                       (a < length numeric_idx)%nat ->
                       (b < length numeric_idx)%nat ->
                       nth b (nth a cov_mat []) 0
                       = nth a (nth b cov_mat []) 0) /\
                   (no_wrap vset numeric_idx ->
                    Forall (fun ia =>
                              length (nth ia vset [])
                              = length (half_covar_proj_of
                                          Z 0 Z.add Z.mul (fun x => x)
                                          unit_svd [[1]; [0]; [0]]))
                           numeric_idx ->
                    orthonormal Z 0 1 Z.add Z.mul
                      (columns Z 0
                         (half_covar_proj_of Z 0 Z.add Z.mul (fun x => x)
                                             unit_svd [[1]; [0]; [0]])) ->
                    forall x,
                      0 <= quadratic_form Z 0 Z.add Z.mul cov_mat x))
              (snd bin_sets) (snd bin_covs))
         (snd chr_sets) (snd chr_covs))
    [(1, [((2, 2), [[0; 1]; [1]]%nat)])]
    [(1, [((2, 2), [[[4; 2]; [2; 2]]; [[2]]])])].
Proof.
  apply (cov_mat_symmetric_psd Z 0 1 Z.add Z.sub Z.mul Z.opp (fun x => x)
           Z.le (fun x => x) unit_svd InitialRing.Zth eq_refl
           (fun a b => eq_refl) (fun a b => eq_refl)
           Z.square_nonneg Z.add_nonneg_nonneg
           [[1]; [0]; [0]]
           [(1, [[1; 0; 2]; [0; 1; 1]])]
           [(1, [((2, 2), [[0; 1]; [1]]%nat)])] (rng_of [])
           [(1, [((2, 2), [[[4; 2]; [2; 2]]; [[2]]])])] (rng_of [])).
  reflexivity.
Defined.
